(** * OpenMarch canvas and MarcherPage table: a shallow embedding

  This development embeds the parts of
  [src/global/classes/canvasObjects/OpenMarchCanvas.ts] and
  [electron/database/tables/MarcherPageTable.ts] that carry the viewport,
  gesture, scene-reconciliation, grid, background-image, settings,
  selection, export and locking behaviour, and states the properties
  claimed of them, and further properties the code shows.

  Conventions.
  - A JavaScript [number] is modelled as an exact rational ([Q]); all the
    values handled here are finite, so [NaN] and the infinities are left
    out, and rounding is not modelled.  Equality of numbers is [Qeq].
  - JavaScript objects with reference identity (fabric objects) carry an
    explicit reference; mutable class fields become record fields and
    every method is a state transformer.
  - DOM side effects that the properties talk about (the zoom-limit
    notice, [console.error]) are logged in the state.
  - A loop whose number of rounds is not bounded by its input takes a
    bound on the rounds and answers [None] when the bound is used up. *)

From Stdlib Require Import QArith Qminmax Qabs Qround Qfield Lqa ZArith Lia Bool.
From stdpp Require Import gmap list strings.

(** * Part I: the embedding *)

(** ** JavaScript numbers *)

Module JS.
Local Open Scope Q_scope.

(** [a < b] on numbers. *)
Definition ltb (a b : Q) : bool := negb (Qle_bool b a).
(** [a <= b] on numbers. *)
Definition leb (a b : Q) : bool := Qle_bool a b.

(** Truthiness of a number: every number but [0] (and [NaN]) is truthy. *)
Definition truthy (a : Q) : bool := negb (Qeq_bool a 0).

(** [Math.sign]. *)
Definition sign (a : Q) : Q :=
  if ltb 0 a then 1 else if ltb a 0 then -1 else 0.

End JS.

(** ** Viewport controller: [zoomContainer], [panContainer], [fitToScreen],
     [resetZoom] *)

Module Viewport.
Local Open Scope Q_scope.

(** Zoom limits (class constants). *)
Definition MIN_ZOOM : Q := 5 # 10.
Definition MAX_ZOOM : Q := 2.

(** [transformValues]: the CSS transform of the canvas container. *)
Record TransformValues := mkTransform {
  translateX : Q;
  translateY : Q;
  scale : Q;
  originX : Q;
  originY : Q
}.

(** The part of [getBoundingClientRect()] that is read. *)
Record DOMRect := mkRect { left : Q; top : Q }.

(** The container [div] held in [cssZoomWrapper].  [parentElement] is the
    bounding rectangle of its parent, or [None] when it has no parent;
    [style_transform] is the [translate(x, y) scale(s)] last written by
    [applyContainerTransform]. *)
Record HTMLDivElement := mkDiv {
  parentElement : option DOMRect;
  style_transition : string;
  style_transform : option (Q * Q * Q)
}.

(** The fields of [FieldProperties] read by the viewport code. *)
Record FieldProperties := mkField { width : Q; height : Q }.

(** Fabric's viewport matrix [a, b, c, d, e, f]. *)
Record Matrix := mkMatrix {
  m0 : Q; m1 : Q; m2 : Q; m3 : Q; m4 : Q; m5 : Q
}.

(** The fields of [OpenMarchCanvas] read or written by the viewport
    methods.  [zoomLimitFeedback] lists the notices displayed by
    [showZoomLimitFeedback], oldest first. *)
Record Canvas := mkCanvas {
  transformValues : TransformValues;
  cssZoomWrapper : option HTMLDivElement;
  viewportTransform : option Matrix;
  fieldProperties : FieldProperties;
  zoomLimitFeedback : list string
}.

Definition set_wrapper (w : HTMLDivElement) (c : Canvas) : Canvas :=
  mkCanvas (transformValues c) (Some w) (viewportTransform c)
           (fieldProperties c) (zoomLimitFeedback c).

Definition set_transform (t : TransformValues) (c : Canvas) : Canvas :=
  mkCanvas t (cssZoomWrapper c) (viewportTransform c)
           (fieldProperties c) (zoomLimitFeedback c).

Definition set_viewportTransform (m : Matrix) (c : Canvas) : Canvas :=
  mkCanvas (transformValues c) (cssZoomWrapper c) (Some m)
           (fieldProperties c) (zoomLimitFeedback c).

(** [showZoomLimitFeedback(message)]: one notice is put on screen. *)
Definition showZoomLimitFeedback (message : string) (c : Canvas) : Canvas :=
  mkCanvas (transformValues c) (cssZoomWrapper c) (viewportTransform c)
           (fieldProperties c) (zoomLimitFeedback c ++ [message]).

(** [this.cssZoomWrapper.style.transition = t] *)
Definition set_transition (t : string) (c : Canvas) : Canvas :=
  match cssZoomWrapper c with
  | None => c
  | Some w =>
      set_wrapper (mkDiv (parentElement w) t (style_transform w)) c
  end.

(** [applyContainerTransform] *)
Definition applyContainerTransform (c : Canvas) : Canvas :=
  match cssZoomWrapper c with
  | None => c
  | Some w =>
      let t := transformValues c in
      set_wrapper
        (mkDiv (parentElement w) (style_transition w)
               (Some (translateX t, translateY t, scale t))) c
  end.

(** [updateFabricViewportFromContainer] *)
Definition updateFabricViewportFromContainer (c : Canvas) : Canvas :=
  match cssZoomWrapper c with
  | None => c
  | Some _ =>
      let t := transformValues c in
      match viewportTransform c with
      | None => c
      | Some m =>
          set_viewportTransform
            (mkMatrix (scale t) (m1 m) (m2 m) (scale t)
                      (translateX t) (translateY t)) c
      end
  end.

(** [zoomContainer(factor, clientX, clientY)].  The timer that later
    clears the transition and the rebuilding of the zoom-percentage
    widget touch no field modelled here. *)
Definition zoomContainer (factor clientX clientY : Q) (c : Canvas) : Canvas :=
  match cssZoomWrapper c with
  | None => c
  | Some w =>
    match parentElement w with
    | None => c
    | Some rect =>
      let x := clientX - left rect in
      let y := clientY - top rect in
      let prevScale := scale (transformValues c) in
      let dampedFactor :=
        if JS.ltb 1 factor
        then 1 + (factor - 1) * (5 # 10)
        else 1 - (1 - factor) * (5 # 10) in
      let newScale := prevScale * dampedFactor in
      let isAtMinZoom := JS.leb prevScale MIN_ZOOM && JS.ltb factor 1 in
      let isAtMaxZoom := JS.leb MAX_ZOOM prevScale && JS.ltb 1 factor in
      if isAtMinZoom then
        showZoomLimitFeedback "You've reached maximum zoom out" c
      else if isAtMaxZoom then
        showZoomLimitFeedback "You've reached maximum zoom in" c
      else
        let newScale := Qmax MIN_ZOOM (Qmin MAX_ZOOM newScale) in
        if JS.ltb (Qabs (newScale - prevScale)) (1 # 10000) then c
        else
          let scaleFactor := newScale / prevScale in
          let t := transformValues c in
          let t' :=
            mkTransform (x - (x - translateX t) * scaleFactor)
                        (y - (y - translateY t) * scaleFactor)
                        newScale x y in
          applyContainerTransform
            (set_transition "transform 0.15s cubic-bezier(0.25, 0.1, 0.25, 1)"
               (set_transform t' c))
    end
  end.

(** The damping curve of [panContainer]. *)
Definition applyInertia (delta : Q) : Q :=
  let sign := JS.sign delta in
  let absDelta := Qabs delta in
  if JS.ltb absDelta 3 then delta * (6 # 10)
  else if JS.ltb absDelta 10 then sign * (absDelta * (5 # 10))
  else if JS.ltb absDelta 30 then sign * (absDelta * (4 # 10))
  else sign * (absDelta * (3 # 10)).

(** [panContainer(deltaX, deltaY)] *)
Definition panContainer (deltaX deltaY : Q) (c : Canvas) : Canvas :=
  match cssZoomWrapper c with
  | None => c
  | Some _ =>
      let smoothDeltaX := applyInertia deltaX in
      let smoothDeltaY := applyInertia deltaY in
      let t := transformValues c in
      let t' :=
        mkTransform (translateX t + smoothDeltaX) (translateY t + smoothDeltaY)
                    (scale t) (originX t) (originY t) in
      updateFabricViewportFromContainer
        (applyContainerTransform
           (set_transition "transform 0.08s cubic-bezier(0.33, 1, 0.68, 1)"
              (set_transform t' c)))
  end.

(** [resetZoom()] *)
Definition resetZoom (c : Canvas) : Canvas :=
  let t := transformValues c in
  updateFabricViewportFromContainer
    (applyContainerTransform
       (set_transform (mkTransform 0 0 1 (originX t) (originY t)) c)).

(** [fitToScreen()]; [innerWidth] and [innerHeight] are the window's. *)
Definition fitToScreen (innerWidth innerHeight : Q) (c : Canvas) : Canvas :=
  match cssZoomWrapper c with
  | None => c
  | Some _ =>
      let fieldWidth := width (fieldProperties c) in
      let fieldHeight := height (fieldProperties c) in
      let viewportWidth := innerWidth in
      let viewportHeight := innerHeight in
      let margin := 40 in
      let scaleX := (viewportWidth - margin) / fieldWidth in
      let scaleY := (viewportHeight - margin) / fieldHeight in
      let scale0 := Qmin scaleX scaleY * (8 # 10) in
      let scale1 := Qmax MIN_ZOOM (Qmin MAX_ZOOM scale0) in
      let centerFieldX := fieldWidth / 2 in
      let centerFieldY := fieldHeight / 2 in
      let centerViewportX := viewportWidth / 2 in
      let centerViewportY := viewportHeight / 2 in
      let translateX' := centerViewportX - centerFieldX * scale1 in
      let translateY' := centerViewportY - centerFieldY * scale1 in
      let t := transformValues c in
      let t' := mkTransform translateX' translateY' scale1
                            (originX t) (originY t) in
      updateFabricViewportFromContainer
        (applyContainerTransform
           (set_transition "transform 0.3s cubic-bezier(0.2, 0, 0.2, 1)"
              (set_transform t' c)))
  end.

(** The viewport operations a user can trigger, and their effect. *)
Inductive Gesture :=
| Zoom (factor clientX clientY : Q)
| Pan (deltaX deltaY : Q)
| FitToScreen (innerWidth innerHeight : Q)
| ResetZoom.

Definition step (c : Canvas) (g : Gesture) : Canvas :=
  match g with
  | Zoom f x y => zoomContainer f x y c
  | Pan dx dy => panContainer dx dy c
  | FitToScreen w h => fitToScreen w h c
  | ResetZoom => resetZoom c
  end.

Definition run (gs : list Gesture) (c : Canvas) : Canvas := foldl step c gs.

(** The canvas as the constructor leaves it: identity transform, no
    notice shown. *)
Definition initial (w : option HTMLDivElement) (fp : FieldProperties) : Canvas :=
  mkCanvas (mkTransform 0 0 1 0 0) w (Some (mkMatrix 1 0 0 1 0 0)) fp [].

Definition scale_in_limits (c : Canvas) : Prop :=
  MIN_ZOOM <= scale (transformValues c) /\ scale (transformValues c) <= MAX_ZOOM.

End Viewport.

(** ** Scene synchronizer: [renderMarchers] *)

Module Scene.
Local Open Scope Z_scope.

(** [Marcher]: the fields read by the canvas. *)
Record Marcher := mkMarcher { id : Z; section : string }.

(** [MarcherPage]: the position of one marcher on one page. *)
Record MarcherPage := mkMarcherPage {
  mp_id : Z;
  marcher_id : Z;
  page_id : Z;
  x : Q;
  y : Q
}.

Record SectionAppearance := mkSectionAppearance {
  sa_section : string;
  fill_color : string
}.

(** The drawable for one marcher: [marcherObj], the [marcherPage] it is
    drawn at, and its appearance. *)
Record CanvasMarcher := mkCanvasMarcher {
  marcherObj : Marcher;
  marcherPage : MarcherPage;
  sectionAppearance : option SectionAppearance
}.

(** The objects a canvas holds: [CanvasMarcher]s, and everything else
    (static marchers, pathways, lines, the field grid, control points),
    of which only the class name matters here. *)
Inductive FabricObject :=
| ACanvasMarcher (m : CanvasMarcher)
| AnotherObject (class_name : string).

(** Object identity: every fabric object is created once and has its own
    reference. *)
Definition ObjRef := nat.

(** The canvas state [renderMarchers] works on: fabric's [_objects] in
    draw order, the next reference [new] hands out, the rows reported
    through [console.error], and the number of [requestRenderAll] calls. *)
Record Canvas := mkCanvas {
  objects : list (ObjRef * FabricObject);
  nextRef : ObjRef;
  consoleErrors : list MarcherPage;
  renderRequests : nat
}.

Definition emptyCanvas : Canvas := mkCanvas [] 0%nat [] 0%nat.

(** fabric's [add(object)] for a freshly constructed object. *)
Definition add_new (o : FabricObject) (c : Canvas) : Canvas :=
  mkCanvas (objects c ++ [(nextRef c, o)]) (S (nextRef c))
           (consoleErrors c) (renderRequests c).

(** fabric's [remove(object)]: [indexOf] then [splice], so the first entry
    holding the reference goes. *)
Fixpoint remove_ref {A} (r : ObjRef) (l : list (ObjRef * A)) : list (ObjRef * A) :=
  match l with
  | [] => []
  | ro :: l' => if decide (ro.1 = r) then l' else ro :: remove_ref r l'
  end.

Definition remove (r : ObjRef) (c : Canvas) : Canvas :=
  mkCanvas (remove_ref r (objects c)) (nextRef c)
           (consoleErrors c) (renderRequests c).

Definition console_error (mp : MarcherPage) (c : Canvas) : Canvas :=
  mkCanvas (objects c) (nextRef c) (consoleErrors c ++ [mp]) (renderRequests c).

Definition requestRenderAll (c : Canvas) : Canvas :=
  mkCanvas (objects c) (nextRef c) (consoleErrors c) (S (renderRequests c)).

(** [getCanvasMarchers()]: the objects that are [CanvasMarcher]s, in
    canvas order. *)
Definition getCanvasMarchers (c : Canvas) : list (ObjRef * CanvasMarcher) :=
  omap (fun ro => match ro.2 with
                  | ACanvasMarcher m => Some (ro.1, m)
                  | AnotherObject _ => None
                  end) (objects c).

(** [new Map(entries)]: entries are set in order, a later entry for a key
    replaces an earlier one. *)
Definition new_Map {V} (entries : list (Z * V)) : gmap Z V :=
  foldl (fun m kv => <[kv.1 := kv.2]> m) ∅ entries.

(** Modelled from the spec: [CanvasMarcher.setMarcherCoords] is not part of
    the sources at hand; following "update its displayed coordinates in
    place", the drawable held under the reference takes the row as its
    [marcherPage] and stays the same object. *)
Definition setMarcherCoords (r : ObjRef) (mp : MarcherPage) (c : Canvas) : Canvas :=
  mkCanvas
    ((fun ro => match ro.2 with
                | ACanvasMarcher m =>
                    if decide (ro.1 = r)
                    then (ro.1, ACanvasMarcher
                                  (mkCanvasMarcher (marcherObj m) mp (sectionAppearance m)))
                    else ro
                | AnotherObject _ => ro
                end) <$> objects c)
    (nextRef c) (consoleErrors c) (renderRequests c).

(** Modelled from the spec: [getSectionAppearance] is not part of the
    sources at hand; following "resolving the marcher's section-based
    appearance", it is the appearance recorded for the section, if any. *)
Definition getSectionAppearance (s : string) (sas : list SectionAppearance) :
    option SectionAppearance :=
  find (fun sa => bool_decide (sa_section sa = s)) sas.

(** The body of the loop over [currentMarcherPages]. *)
Definition renderRow (canvasMarchersMap : gmap Z ObjRef)
    (allMarchersMap : gmap Z Marcher) (sectionAppearances : list SectionAppearance)
    (c : Canvas) (marcherPage : MarcherPage) : Canvas :=
  match canvasMarchersMap !! marcher_id marcherPage with
  | None =>
      match allMarchersMap !! marcher_id marcherPage with
      | None => console_error marcherPage c
      | Some curMarcher =>
          add_new (ACanvasMarcher
                     (mkCanvasMarcher curMarcher marcherPage
                        (getSectionAppearance (section curMarcher) sectionAppearances)))
                  c
      end
  | Some curCanvasMarcher => setMarcherCoords curCanvasMarcher marcherPage c
  end.

(** The body of [canvasMarchersMap.forEach]. *)
Definition removeStale (marcherPageMarcherIds : gset Z)
    (c : Canvas) (entry : Z * ObjRef) : Canvas :=
  if decide (entry.1 ∈ marcherPageMarcherIds) then c else remove entry.2 c.

(** [renderMarchers({currentMarcherPages, allMarchers})], from the point
    where the section appearances have been awaited; from there on the
    method runs to completion.  [forEach] visits the map in insertion
    order and [map_to_list] in another one; the entries removed, and the
    list left, are the same.  The listeners' [refreshMarchers] hook and
    [bringAllControlPointsTooFront] neither add, remove nor move a
    [CanvasMarcher] and are left out. *)
Definition renderMarchers (currentMarcherPages : list MarcherPage)
    (allMarchers : list Marcher) (sectionAppearances : list SectionAppearance)
    (c : Canvas) : Canvas :=
  let canvasMarchersMap : gmap Z ObjRef :=
    new_Map ((fun rm => (id (marcherObj rm.2), rm.1)) <$> getCanvasMarchers c) in
  let allMarchersMap : gmap Z Marcher :=
    new_Map ((fun m => (id m, m)) <$> allMarchers) in
  let c1 :=
    foldl (renderRow canvasMarchersMap allMarchersMap sectionAppearances)
          c currentMarcherPages in
  let marcherPageMarcherIds : gset Z :=
    list_to_set (marcher_id <$> currentMarcherPages) in
  let c2 :=
    if decide (size marcherPageMarcherIds ≠ size canvasMarchersMap)
    then foldl (removeStale marcherPageMarcherIds) c1 (map_to_list canvasMarchersMap)
    else c1 in
  requestRenderAll c2.

(** The marcher identities drawn on the canvas. *)
Definition canvasMarcherIds (c : Canvas) : gset Z :=
  list_to_set ((fun rm => id (marcherObj rm.2)) <$> getCanvasMarchers c).

(** The marcher identities of a list of position rows, and of a roster. *)
Definition rowIds (rows : list MarcherPage) : gset Z :=
  list_to_set (marcher_id <$> rows).
Definition rosterIds (allMarchers : list Marcher) : gset Z :=
  list_to_set (id <$> allMarchers).

(** What one call did to the drawables, read off the canvas before and
    after: the references created, the references removed, and the
    references whose displayed coordinates changed. *)
Definition refsOf (c : Canvas) : list ObjRef := (getCanvasMarchers c).*1.

Definition created (before after : Canvas) : list ObjRef :=
  filter (fun r => r ∉ refsOf before) (refsOf after).

Definition removed (before after : Canvas) : list ObjRef :=
  filter (fun r => r ∉ refsOf after) (refsOf before).

Definition coordsOf (c : Canvas) (r : ObjRef) : option (Q * Q) :=
  (fun rm => (x (marcherPage rm.2), y (marcherPage rm.2)))
    <$> find (fun rm => bool_decide (rm.1 = r)) (getCanvasMarchers c).

Definition sameCoords (a b : option (Q * Q)) : bool :=
  match a, b with
  | Some (x1, y1), Some (x2, y2) => Qeq_bool x1 x2 && Qeq_bool y1 y2
  | None, None => true
  | _, _ => false
  end.

Definition moved (before after : Canvas) : list ObjRef :=
  filter (fun r => r ∈ refsOf after /\ sameCoords (coordsOf before r) (coordsOf after r) = false)
         (refsOf before).

(** Position rows of one page hold one row per marcher. *)
Definition distinctMarchers (rows : list MarcherPage) : Prop :=
  NoDup (marcher_id <$> rows).

(** References on a canvas are handed out once and below [nextRef]. *)
Definition canvas_wf (c : Canvas) : Prop :=
  NoDup (objects c).*1 /\ Forall (fun r => (r < nextRef c)%nat) (objects c).*1.

(** The canvases reached by repeated [renderMarchers] calls, starting from
    a canvas without marchers. *)
Inductive reachable : Canvas -> Prop :=
| reach_start c :
    canvas_wf c -> getCanvasMarchers c = [] -> reachable c
| reach_render c rows allMarchers sas :
    reachable c -> distinctMarchers rows ->
    reachable (renderMarchers rows allMarchers sas c).

End Scene.

(** ** The MarcherPage table: [getMarcherPages], [isLocked],
       [updateMarcherPages] *)

Module MarcherPageTable.
Local Open Scope Z_scope.

(** A row of the [marcher_pages] table. *)
Record MarcherPage := mkMarcherPage {
  id : Z;
  marcher_id : Z;
  page_id : Z;
  x : Q;
  y : Q
}.

(** [ModifiedMarcherPageArgs]: the MarcherPage to update, named by its
    marcher and page, and its new position. *)
Record ModifiedMarcherPageArgs := mkModified {
  upd_marcher_id : Z;
  upd_page_id : Z;
  upd_x : Q;
  upd_y : Q
}.

(** [NewModifiedMarcherPageArgs]: the same with the row id. *)
Record NewModifiedMarcherPageArgs := mkNewModified {
  item_id : Z;
  item_args : ModifiedMarcherPageArgs
}.

(** A [ShapePageMarcher] record, with the page of its shape page. *)
Record ShapePageMarcher := mkSpm {
  spm_id : Z;
  spm_marcher_id : Z;
  spm_page_id : Z
}.

(** The tables the functions read and write. *)
Record Database := mkDatabase {
  marcher_pages : list MarcherPage;
  shape_page_marchers : list ShapePageMarcher
}.

Record DatabaseResponse (T : Type) := mkResponse {
  success : bool;
  data : T;
  error : option string
}.
Arguments mkResponse {T} _ _ _.
Arguments success {T} _.
Arguments data {T} _.
Arguments error {T} _.

(** Code that may throw: a value, or the message of the error thrown. *)
Inductive Result (A : Type) :=
| Ok (a : A)
| Throw (message : string).
Arguments Ok {A} _.
Arguments Throw {A} _.

#[export] Instance Result_ret : MRet Result := fun A a => Ok a.
#[export] Instance Result_bind : MBind Result := fun A B f r =>
  match r with
  | Ok a => f a
  | Throw msg => Throw msg
  end.

(** Truthiness of an optional numeric argument: [undefined] and [0] are
    falsy. *)
Definition truthy (n : option Z) : bool :=
  match n with
  | Some k => negb (k =? 0)
  | None => false
  end.

(** The value an optional argument is interpolated as where it is used;
    it is only used when truthy. *)
Definition valueOf (n : option Z) : Z := default 0 n.

(** [getMarcherPages({db, marcher_id?, page_id?})]; each [SELECT] is the
    filter it denotes. *)
Definition getMarcherPages (db : Database) (marcher_id' page_id' : option Z) :
    DatabaseResponse (list MarcherPage) :=
  let result :=
    if truthy marcher_id' && truthy page_id' then
      filter (fun mp => marcher_id mp = valueOf marcher_id' /\ page_id mp = valueOf page_id')
             (marcher_pages db)
    else if truthy marcher_id' then
      filter (fun mp => marcher_id mp = valueOf marcher_id') (marcher_pages db)
    else if truthy page_id' then
      filter (fun mp => page_id mp = valueOf page_id') (marcher_pages db)
    else marcher_pages db in
  mkResponse true result None.

(** Modelled from the spec: [getSpmByMarcherPage] belongs to
    [ShapePageMarcherTable], which is not part of the sources at hand; after
    the description of [isLocked] it answers with the ShapePageMarcher
    record for the given marcher and page, or [null]. *)
Definition getSpmByMarcherPage (db : Database) (marcher_id' page_id' : Z) :
    DatabaseResponse (option ShapePageMarcher) :=
  mkResponse true
    (find (fun s => bool_decide (spm_marcher_id s = marcher_id' /\ spm_page_id s = page_id'))
          (shape_page_marchers db))
    None.

(** [isLocked({db, marcherId, pageId})] *)
Definition isLocked (db : Database) (marcherId pageId : Z) : Result bool :=
  let response := getSpmByMarcherPage db marcherId pageId in
  if negb (success response)
  then Throw ("Failed to check if MarcherPage is locked: Error: "
                ++ default "Failed to get SPM" (error response))
  else Ok (bool_decide (data response ≠ None)).

(** Modelled from the spec: [DbActions.updateItems] is not part of the
    sources at hand; as the persistence layer that "accepts position
    updates", it writes the fields of an item into the row of the table
    that carries the item's id.  History (undo groups) is left out. *)
Definition updateItem (item : NewModifiedMarcherPageArgs) (row : MarcherPage) :
    MarcherPage :=
  if decide (id row = item_id item)
  then mkMarcherPage (id row) (upd_marcher_id (item_args item))
                     (upd_page_id (item_args item))
                     (upd_x (item_args item)) (upd_y (item_args item))
  else row.

(** Modelled from the spec: [DbActions.updateItems], continued: the items
    are written in order and the answer lists the rows written. *)
Definition updateItems (db : Database) (items : list NewModifiedMarcherPageArgs) :
    DatabaseResponse (list MarcherPage) * Database :=
  let rows := foldl (fun rows item => updateItem item <$> rows) (marcher_pages db) items in
  (mkResponse true
     (filter (fun row => id row ∈ item_id <$> items) rows) None,
   mkDatabase rows (shape_page_marchers db)).

(** An update names the row of its marcher and page: the [WHERE] clause of
    the id query. *)
Definition targets (update : ModifiedMarcherPageArgs) (row : MarcherPage) : Prop :=
  marcher_id row = upd_marcher_id update /\ page_id row = upd_page_id update.

#[export] Instance targets_dec update row : Decision (targets update row).
Proof. unfold targets. apply _. Defined.
#[export] Typeclasses Opaque targets.

(** The body of the loop of [updateMarcherPages]: [.get(...)] answers with
    the first matching row, and reading [.id] of [undefined] throws. *)
Definition collectUpdate (db : Database) (isChildAction : bool)
    (newUpdatedItems : list NewModifiedMarcherPageArgs)
    (update : ModifiedMarcherPageArgs) : Result (list NewModifiedMarcherPageArgs) :=
  match find (fun mp => bool_decide (targets update mp)) (marcher_pages db) with
  | None => Throw "TypeError: Cannot read properties of undefined (reading 'id')"
  | Some row =>
      let id' := id row in
      mpIsLocked ←
        (if negb isChildAction
         then isLocked db (upd_marcher_id update) (upd_page_id update)
         else Ok false);
      if negb mpIsLocked
      then Ok (newUpdatedItems ++ [mkNewModified id' update])
      else Ok newUpdatedItems
  end.

Fixpoint collectUpdates (db : Database) (isChildAction : bool)
    (newUpdatedItems : list NewModifiedMarcherPageArgs)
    (marcherPageUpdates : list ModifiedMarcherPageArgs) :
    Result (list NewModifiedMarcherPageArgs) :=
  match marcherPageUpdates with
  | [] => Ok newUpdatedItems
  | update :: rest =>
      items ← collectUpdate db isChildAction newUpdatedItems update;
      collectUpdates db isChildAction items rest
  end.

(** [updateMarcherPages({db, marcherPageUpdates, isChildAction = false})] *)
Definition updateMarcherPages (db : Database)
    (marcherPageUpdates : list ModifiedMarcherPageArgs) (isChildAction : bool) :
    Result (DatabaseResponse (list MarcherPage) * Database) :=
  newUpdatedItems ← collectUpdates db isChildAction [] marcherPageUpdates;
  Ok (updateItems db newUpdatedItems).

(** A MarcherPage is locked when a ShapePageMarcher record exists for its
    marcher and page. *)
Definition locked (db : Database) (row : MarcherPage) : Prop :=
  Exists (fun s => spm_marcher_id s = marcher_id row /\ spm_page_id s = page_id row)
         (shape_page_marchers db).

#[export] Instance locked_dec db row : Decision (locked db row).
Proof. unfold locked. apply _. Defined.
#[export] Typeclasses Opaque locked.

(** The row an update leaves behind when it is applied. *)
Definition moveTo (update : ModifiedMarcherPageArgs) (row : MarcherPage) : MarcherPage :=
  mkMarcherPage (id row) (marcher_id row) (page_id row) (upd_x update) (upd_y update).

(** A batch applied to one unlocked row: every update that targets the
    row moves it, in the order of the batch. *)
Definition applyBatch (updates : list ModifiedMarcherPageArgs) (row : MarcherPage) :
    MarcherPage :=
  foldl (fun r update => if decide (targets update r) then moveTo update r else r)
        row updates.

(** The table's constraints: [id] is the primary key and
    [(marcher_id, page_id)] is unique. *)
Definition table_wf (db : Database) : Prop :=
  NoDup (id <$> marcher_pages db) /\
  NoDup ((fun mp => (marcher_id mp, page_id mp)) <$> marcher_pages db).

End MarcherPageTable.

(** ** Vector export: [toSVG] *)

Module SvgExport.
Local Open Scope Q_scope.

(** Fabric's viewport matrix [a, b, c, d, e, f]. *)
Record Matrix := mkMatrix {
  m0 : Q; m1 : Q; m2 : Q; m3 : Q; m4 : Q; m5 : Q
}.

Definition identityMatrix : Matrix := mkMatrix 1 0 0 1 0 0.

Record FieldProperties := mkField { field_width : Q; field_height : Q }.

(** The fields of the canvas [toSVG] reads or writes.  [consoleErrors]
    counts the [console.error] calls. *)
Record Canvas := mkCanvas {
  viewportTransform : option Matrix;
  width : Q;
  height : Q;
  fieldProperties : FieldProperties;
  renderRequests : nat;
  consoleErrors : nat
}.

(** The options handed to fabric's own [toSVG]. *)
Record ViewBox := mkViewBox { vb_x : Q; vb_y : Q; vb_width : Q; vb_height : Q }.
Record SvgOptions := mkSvgOptions {
  svg_width : Q;
  svg_height : Q;
  svg_viewBox : ViewBox
}.

(** The caller's [options]: the keys it sets replace the defaults. *)
Record CallerOptions := mkCallerOptions {
  opt_width : option Q;
  opt_height : option Q;
  opt_viewBox : option ViewBox
}.

(** What a [throw] carries: an [Error] with its message, or any other
    value. *)
Inductive Thrown :=
| ErrorObject (message : string)
| OtherValue (description : string).

Inductive Result (A : Type) :=
| Returns (a : A)
| Throws (e : Thrown).
Arguments Returns {A} _.
Arguments Throws {A} _.

Definition setViewportTransform (m : Matrix) (c : Canvas) : Canvas :=
  mkCanvas (Some m) (width c) (height c) (fieldProperties c)
           (renderRequests c) (consoleErrors c).

Definition setWidth (w : Q) (c : Canvas) : Canvas :=
  mkCanvas (viewportTransform c) w (height c) (fieldProperties c)
           (renderRequests c) (consoleErrors c).

Definition setHeight (h : Q) (c : Canvas) : Canvas :=
  mkCanvas (viewportTransform c) (width c) h (fieldProperties c)
           (renderRequests c) (consoleErrors c).

Definition requestRenderAll (c : Canvas) : Canvas :=
  mkCanvas (viewportTransform c) (width c) (height c) (fieldProperties c)
           (S (renderRequests c)) (consoleErrors c).

Definition console_error (c : Canvas) : Canvas :=
  mkCanvas (viewportTransform c) (width c) (height c) (fieldProperties c)
           (renderRequests c) (S (consoleErrors c)).

(** [a || b] on numbers. *)
Definition orElse (a b : Q) : Q := if JS.truthy a then a else b.

Section ToSVG.

(** fabric's [toSVG] ([super.toSVG]): it serialises the canvas it is given
    and may throw. *)
Variable superToSVG : Canvas -> SvgOptions -> Result string.

(** [toSVG(options?)]: the canvas left behind and the outcome. *)
Definition toSVG (options : option CallerOptions) (c : Canvas) :
    Canvas * Result string :=
  let originalVPT := viewportTransform c in
  let c := setViewportTransform identityMatrix c in
  let fieldWidth := field_width (fieldProperties c) in
  let fieldHeight := field_height (fieldProperties c) in
  let originalWidth := width c in
  let originalHeight := height c in
  let c := setWidth fieldWidth c in
  let c := setHeight fieldHeight c in
  let c := requestRenderAll c in
  let svgOptions :=
    mkSvgOptions
      (default fieldWidth (options ≫= opt_width))
      (default fieldHeight (options ≫= opt_height))
      (default (mkViewBox 0 0 fieldWidth fieldHeight) (options ≫= opt_viewBox)) in
  match superToSVG c svgOptions with
  | Returns svgString =>
      let c := match originalVPT with
               | Some m => setViewportTransform m c
               | None => c
               end in
      let c := setWidth (orElse originalWidth fieldWidth) c in
      let c := setHeight (orElse originalHeight fieldHeight) c in
      let c := requestRenderAll c in
      (c, Returns svgString)
  | Throws error =>
      let c := console_error c in
      (c, Throws (ErrorObject
                    ("Failed to export canvas to SVG: "
                       ++ match error with
                          | ErrorObject message => message
                          | OtherValue _ => "Unknown error"
                          end)))
  end.

End ToSVG.

End SvgExport.

(** ** Settings: [setUiSettings], [renderFieldGrid], the sensitivity
       setters *)

Module Settings.
Local Open Scope Q_scope.

(** [mouseSettings] of the UI settings; a sensitivity may be missing. *)
Record MouseSettings := mkMouseSettings {
  trackpadMode : bool;
  trackpadPanSensitivity_setting : option Q;
  zoomSensitivity_setting : option Q;
  panSensitivity_setting : option Q;
  enableCanvasPanning : bool
}.

(** [UiSettings]: the fields the canvas reads. *)
Record UiSettings := mkUiSettings {
  lockX : bool;
  lockY : bool;
  gridLines : bool;
  halfLines : bool;
  mouseSettings : MouseSettings
}.

(** The field geometry the grid is drawn from. *)
Record FieldProperties := mkField {
  field_width : Q;
  field_height : Q;
  pixelsPerStep : Q
}.

(** The grid group.  [createFieldGrid] draws it from the field properties
    and the two visibility flags; the group is represented by what it was
    drawn from, and by its identity as an object. *)
Record Grid := mkGrid {
  grid_ref : nat;
  grid_gridLines : bool;
  grid_halfLines : bool;
  grid_field : FieldProperties;
  objectCaching : bool
}.

Record ActiveObject := mkActiveObject {
  active_ref : nat;
  lockMovementX : bool;
  lockMovementY : bool
}.

(** The fields of the canvas the settings methods read or write.
    [gridBuilds] counts the calls of [renderFieldGrid]; [nextRef] is the
    identity the next constructed object gets. *)
Record Canvas := mkCanvas {
  uiSettings : UiSettings;
  fieldProperties : FieldProperties;
  staticGridRef : Grid;
  activeObject : option ActiveObject;
  trackpadModeEnabled : bool;
  panSensitivity : Q;
  zoomSensitivity : Q;
  trackpadPanSensitivity : Q;
  defaultCursor : string;
  moveCursor : string;
  gridBuilds : nat;
  nextRef : nat
}.

(** Truthiness of an optional number: [undefined] and [0] are falsy. *)
Definition truthy (v : option Q) : bool :=
  match v with
  | Some q => JS.truthy q
  | None => false
  end.

(** [createFieldGrid({gridLines, halfLines})] *)
Definition createFieldGrid (gridLines' halfLines' : bool) (c : Canvas) : Grid :=
  mkGrid (nextRef c) gridLines' halfLines' (fieldProperties c) true.

(** [renderFieldGrid()]: the old group is removed and a new one, with
    object caching off, takes its place.  Once the constructor has run the
    settings are there, so the [?? true] defaults of the two flags do not
    come into play. *)
Definition renderFieldGrid (c : Canvas) : Canvas :=
  let gridLines' := gridLines (uiSettings c) in
  let halfLines' := halfLines (uiSettings c) in
  let g := createFieldGrid gridLines' halfLines' c in
  let g := mkGrid (grid_ref g) (grid_gridLines g) (grid_halfLines g)
                  (grid_field g) false in
  mkCanvas (uiSettings c) (fieldProperties c) g (activeObject c)
           (trackpadModeEnabled c) (panSensitivity c) (zoomSensitivity c)
           (trackpadPanSensitivity c) (defaultCursor c) (moveCursor c)
           (S (gridBuilds c)) (S (nextRef c)).

(** [setUiSettings(uiSettings)] *)
Definition setUiSettings (uiSettings' : UiSettings) (c : Canvas) : Canvas :=
  let oldUiSettings := uiSettings c in
  let activeObject' :=
    (fun a => mkActiveObject (active_ref a) (lockX uiSettings') (lockY uiSettings'))
      <$> activeObject c in
  let ms := mouseSettings uiSettings' in
  let trackpadModeEnabled' :=
    if negb (eqb (trackpadModeEnabled c) (trackpadMode ms))
    then trackpadMode ms else trackpadModeEnabled c in
  let panSensitivity' :=
    if truthy (panSensitivity_setting ms)
    then default 0 (panSensitivity_setting ms) else panSensitivity c in
  let trackpadPanSensitivity' :=
    if truthy (trackpadPanSensitivity_setting ms)
    then default 0 (trackpadPanSensitivity_setting ms) else trackpadPanSensitivity c in
  let zoomSensitivity' :=
    if truthy (zoomSensitivity_setting ms)
    then default 0 (zoomSensitivity_setting ms) else zoomSensitivity c in
  let c1 :=
    mkCanvas uiSettings' (fieldProperties c) (staticGridRef c) activeObject'
             trackpadModeEnabled' panSensitivity' zoomSensitivity'
             trackpadPanSensitivity' (defaultCursor c) (moveCursor c)
             (gridBuilds c) (nextRef c) in
  let c2 :=
    if negb (eqb (gridLines oldUiSettings) (gridLines uiSettings'))
       || negb (eqb (halfLines oldUiSettings) (halfLines uiSettings'))
    then renderFieldGrid c1 else c1 in
  let cursors :=
    if negb (enableCanvasPanning ms)
    then ("default", "default") else ("grab", "grabbing") in
  mkCanvas (uiSettings c2) (fieldProperties c2) (staticGridRef c2) (activeObject c2)
           (trackpadModeEnabled c2) (panSensitivity c2) (zoomSensitivity c2)
           (trackpadPanSensitivity c2) cursors.1 cursors.2
           (gridBuilds c2) (nextRef c2).

(** [set fieldProperties(fieldProperties)] *)
Definition set_fieldProperties (fp : FieldProperties) (c : Canvas) : Canvas :=
  renderFieldGrid
    (mkCanvas (uiSettings c) fp (staticGridRef c) (activeObject c)
              (trackpadModeEnabled c) (panSensitivity c) (zoomSensitivity c)
              (trackpadPanSensitivity c) (defaultCursor c) (moveCursor c)
              (gridBuilds c) (nextRef c)).

(** [setPanSensitivity(value)] *)
Definition setPanSensitivity (value : Q) (c : Canvas) : Canvas :=
  mkCanvas (uiSettings c) (fieldProperties c) (staticGridRef c) (activeObject c)
           (trackpadModeEnabled c) (Qmax (1 # 10) (Qmin 3 value)) (zoomSensitivity c)
           (trackpadPanSensitivity c) (defaultCursor c) (moveCursor c)
           (gridBuilds c) (nextRef c).

(** [setTrackpadPanSensitivity(value)] *)
Definition setTrackpadPanSensitivity (value : Q) (c : Canvas) : Canvas :=
  mkCanvas (uiSettings c) (fieldProperties c) (staticGridRef c) (activeObject c)
           (trackpadModeEnabled c) (panSensitivity c) (zoomSensitivity c)
           (Qmax (1 # 10) (Qmin 3 value)) (defaultCursor c) (moveCursor c)
           (gridBuilds c) (nextRef c).

(** [setZoomSensitivity(value)] *)
Definition setZoomSensitivity (value : Q) (c : Canvas) : Canvas :=
  mkCanvas (uiSettings c) (fieldProperties c) (staticGridRef c) (activeObject c)
           (trackpadModeEnabled c) (panSensitivity c)
           (Qmax (1 # 100) (Qmin (5 # 10) value))
           (trackpadPanSensitivity c) (defaultCursor c) (moveCursor c)
           (gridBuilds c) (nextRef c).

(** The sane ranges of the three coefficients. *)
Definition sensitivities_in_range (c : Canvas) : Prop :=
  ((1 # 10) <= panSensitivity c /\ panSensitivity c <= 3) /\
  ((1 # 10) <= trackpadPanSensitivity c /\ trackpadPanSensitivity c <= 3) /\
  ((1 # 100) <= zoomSensitivity c /\ zoomSensitivity c <= (5 # 10)).

(** Whether two settings differ in a grid visibility flag. *)
Definition gridFlagsDiffer (old new : UiSettings) : Prop :=
  gridLines old ≠ gridLines new \/ halfLines old ≠ halfLines new.

End Settings.

(** ** Selection manager: [setActiveObjects] *)

Module Selection.

(** A selectable object, by its identity. *)
Definition Selectable := nat.

(** What fabric holds as the active object: one object, or an
    [ActiveSelection] grouping several; with the movement locks the canvas
    writes on it. *)
Inductive Target :=
| SingleObject (o : Selectable)
| ActiveSelection (os : list Selectable).

Record ActiveObject := mkActiveObject {
  target : Target;
  lockMovementX : bool;
  lockMovementY : bool
}.

(** The fields of the canvas the selection code reads or writes. *)
Record Canvas := mkCanvas {
  handleSelectLock : bool;
  activeObject : option ActiveObject;
  lockX : bool;
  lockY : bool;
  renderRequests : nat
}.

Definition set_handleSelectLock (b : bool) (c : Canvas) : Canvas :=
  mkCanvas b (activeObject c) (lockX c) (lockY c) (renderRequests c).

Definition set_activeObject (a : option ActiveObject) (c : Canvas) : Canvas :=
  mkCanvas (handleSelectLock c) a (lockX c) (lockY c) (renderRequests c).

Definition requestRenderAll (c : Canvas) : Canvas :=
  mkCanvas (handleSelectLock c) (activeObject c) (lockX c) (lockY c)
           (S (renderRequests c)).

Section Handlers.

(** The selection-change handlers registered on the canvas.  Fabric runs
    them, synchronously, each time it changes the active object; what they
    do to the canvas is arbitrary. *)
Variable onSelectionChange : Canvas -> Canvas.

(** [setActiveObject(object)]: the canvas first copies its axis locks onto
    the object, then fabric makes it the active object and fires the
    selection events. *)
Definition setActiveObject (t : Target) (c : Canvas) : Canvas :=
  onSelectionChange
    (set_activeObject (Some (mkActiveObject t (lockX c) (lockY c))) c).

(** fabric's [discardActiveObject()] *)
Definition discardActiveObject (c : Canvas) : Canvas :=
  match activeObject c with
  | Some _ => onSelectionChange (set_activeObject None c)
  | None => c
  end.

(** [setActiveObjects(newSelectedObjects)] *)
Definition setActiveObjects (newSelectedObjects : list Selectable) (c : Canvas) :
    Canvas :=
  if handleSelectLock c then c
  else
    let c := set_handleSelectLock true c in
    let c :=
      match newSelectedObjects with
      | [o] => setActiveObject (SingleObject o) c
      | _ :: _ :: _ =>
          setActiveObject (ActiveSelection newSelectedObjects) (discardActiveObject c)
      | [] => discardActiveObject c
      end in
    let c := requestRenderAll c in
    set_handleSelectLock false c.

End Handlers.

(** The selection a call asks for. *)
Definition requested (newSelectedObjects : list Selectable) (c : Canvas) :
    option ActiveObject :=
  match newSelectedObjects with
  | [] => None
  | [o] => Some (mkActiveObject (SingleObject o) (lockX c) (lockY c))
  | _ => Some (mkActiveObject (ActiveSelection newSelectedObjects) (lockX c) (lockY c))
  end.

(** A handler that does nothing while the lock is held: what every
    selection-change handler has to be. *)
Definition guarded (h : Canvas -> Canvas) : Prop :=
  forall c, handleSelectLock c = true -> h c = c.

End Selection.

(** ** The zoom read-out: [updateZoomPercentageDisplay] *)

Module ZoomDisplay.
Import Viewport.
Local Open Scope Q_scope.

(** [Math.round]: the nearest integer, halves going up. *)
Definition round (q : Q) : Z := Qfloor (q + (1 # 2)).

(** The scale at which the field fits the window, as the read-out
    computes it. *)
Definition fitScale (innerWidth innerHeight : Q) (fp : FieldProperties) : Q :=
  let fieldWidth := width fp in
  let fieldHeight := height fp in
  let viewportWidth := innerWidth in
  let viewportHeight := innerHeight in
  let margin := 40 in
  let scaleX := (viewportWidth - margin) / fieldWidth in
  let scaleY := (viewportHeight - margin) / fieldHeight in
  Qmin scaleX scaleY * (8 # 10).

(** [updateZoomPercentageDisplay()]: the number written, followed by [%],
    into the read-out the method has just rebuilt; without a container
    the method returns before anything is built.  A fit scale of [0]
    (a window 40 pixels wide or high) makes the quotient infinite and is
    not covered by the rational model. *)
Definition updateZoomPercentageDisplay (innerWidth innerHeight : Q) (c : Canvas) :
    option Z :=
  match cssZoomWrapper c with
  | None => None
  | Some _ =>
      let fitScale := fitScale innerWidth innerHeight (fieldProperties c) in
      let percentOfFit := round (scale (transformValues c) / fitScale * 100) in
      Some percentOfFit
  end.

End ZoomDisplay.

(** ** The MarcherPage table, continued: [getMarcherPage] *)

Module MarcherPageLookup.
Import MarcherPageTable.
Local Open Scope Z_scope.

(** [getMarcherPage({db, marcher_id, page_id})]: [response.data[0] || null];
    a row is an object and so truthy. *)
Definition getMarcherPage (db : Database) (marcher_id' page_id' : Z) :
    DatabaseResponse (option MarcherPage) :=
  let response := getMarcherPages db (Some marcher_id') (Some page_id') in
  mkResponse (success response) (head (data response)) (error response).

End MarcherPageLookup.

(** ** Gesture handlers: wheel, mouse drag and touch *)

Module Gestures.
Import Viewport.
Local Open Scope Q_scope.

(** The fields of a [WheelEvent] the handlers read; [deltaMode] is [0]
    when the deltas are in pixels. *)
Record WheelEvent := mkWheelEvent {
  deltaX : Q;
  deltaY : Q;
  deltaMode : Z;
  ctrlKey : bool;
  metaKey : bool;
  clientX : Q;
  clientY : Q
}.

(** The fields of a [MouseEvent] the handlers read; [button] is [1] for
    the middle button. *)
Record MouseEvent := mkMouseEvent {
  button : Z;
  altKey : bool;
  mouse_clientX : Q;
  mouse_clientY : Q
}.

Record Touch := mkTouch { touch_clientX : Q; touch_clientY : Q }.

(** What the handlers read and write: the viewport fields of the canvas
    ([canvas]), the platform ([isMacOS()], which does not change), the
    trackpad mode and the sensitivities, [staticGridRef.objectCaching],
    whether a [_zoomTimeout] timer is pending, the drag and pinch
    bookkeeping, and the cursor of the document body.  The timers that
    later reset the CSS transition, and the repaint requests, are left
    out. *)
Record State := mkState {
  canvas : Canvas;
  isMacOS : bool;
  trackpadModeEnabled : bool;
  panSensitivity : Q;
  zoomSensitivity : Q;
  trackpadPanSensitivity : Q;
  objectCaching : bool;
  zoomTimeout : bool;
  isPanning : bool;
  lastPosX : Q;
  lastPosY : Q;
  initialPinchDistance : Q;
  body_cursor : string
}.

Definition on_canvas (f : Canvas -> Canvas) (s : State) : State :=
  mkState (f (canvas s)) (isMacOS s) (trackpadModeEnabled s) (panSensitivity s)
          (zoomSensitivity s) (trackpadPanSensitivity s) (objectCaching s)
          (zoomTimeout s) (isPanning s) (lastPosX s) (lastPosY s)
          (initialPinchDistance s) (body_cursor s).

Definition set_objectCaching (b : bool) (s : State) : State :=
  mkState (canvas s) (isMacOS s) (trackpadModeEnabled s) (panSensitivity s)
          (zoomSensitivity s) (trackpadPanSensitivity s) b
          (zoomTimeout s) (isPanning s) (lastPosX s) (lastPosY s)
          (initialPinchDistance s) (body_cursor s).

Definition set_zoomTimeout (b : bool) (s : State) : State :=
  mkState (canvas s) (isMacOS s) (trackpadModeEnabled s) (panSensitivity s)
          (zoomSensitivity s) (trackpadPanSensitivity s) (objectCaching s)
          b (isPanning s) (lastPosX s) (lastPosY s)
          (initialPinchDistance s) (body_cursor s).

Definition set_isPanning (b : bool) (s : State) : State :=
  mkState (canvas s) (isMacOS s) (trackpadModeEnabled s) (panSensitivity s)
          (zoomSensitivity s) (trackpadPanSensitivity s) (objectCaching s)
          (zoomTimeout s) b (lastPosX s) (lastPosY s)
          (initialPinchDistance s) (body_cursor s).

Definition set_lastPos (x y : Q) (s : State) : State :=
  mkState (canvas s) (isMacOS s) (trackpadModeEnabled s) (panSensitivity s)
          (zoomSensitivity s) (trackpadPanSensitivity s) (objectCaching s)
          (zoomTimeout s) (isPanning s) x y
          (initialPinchDistance s) (body_cursor s).

Definition set_initialPinchDistance (d : Q) (s : State) : State :=
  mkState (canvas s) (isMacOS s) (trackpadModeEnabled s) (panSensitivity s)
          (zoomSensitivity s) (trackpadPanSensitivity s) (objectCaching s)
          (zoomTimeout s) (isPanning s) (lastPosX s) (lastPosY s)
          d (body_cursor s).

Definition set_body_cursor (cursor : string) (s : State) : State :=
  mkState (canvas s) (isMacOS s) (trackpadModeEnabled s) (panSensitivity s)
          (zoomSensitivity s) (trackpadPanSensitivity s) (objectCaching s)
          (zoomTimeout s) (isPanning s) (lastPosX s) (lastPosY s)
          (initialPinchDistance s) cursor.

(** [isMacTrackpadGesture(e)] *)
Definition isMacTrackpadGesture (e : WheelEvent) (s : State) : bool :=
  if negb (isMacOS s) then false
  else if negb (trackpadModeEnabled s) then false
  else
    let isPixelMode := (deltaMode e =? 0)%Z in
    let isPreciseMovement :=
      JS.ltb (Qabs (deltaY e)) 10 || JS.ltb (Qabs (deltaX e)) 10 in
    let isTwoDimensional :=
      JS.ltb 0 (Qabs (deltaX e)) && JS.ltb 0 (Qabs (deltaY e)) in
    isPixelMode && (isPreciseMovement || isTwoDimensional).

(** The factor a wheel event with a modifier key asks for. *)
Definition smoothZoomFactor (e : WheelEvent) (s : State) : Q :=
  1 + (if JS.ltb (deltaY e) 0 then zoomSensitivity s else - zoomSensitivity s).

(** [if (this.staticGridRef.objectCaching) this.staticGridRef.objectCaching = false] *)
Definition disableCaching (s : State) : State :=
  if objectCaching s then set_objectCaching false s else s.

(** [clearTimeout(this._zoomTimeout); this._zoomTimeout = setTimeout(..., 100)]:
    whatever timer was pending is dropped and one is pending. *)
Definition restartZoomTimeout (s : State) : State := set_zoomTimeout true s.

(** The pending [_zoomTimeout] timer expires and its callback runs. *)
Definition zoomTimeoutFired (s : State) : State :=
  if zoomTimeout s then
    let s := set_zoomTimeout false s in
    if negb (objectCaching s)
    then on_canvas updateFabricViewportFromContainer (set_objectCaching true s)
    else s
  else s.

(** [handleMacOSTrackpad(e)] *)
Definition handleMacOSTrackpad (e : WheelEvent) (s : State) : State :=
  if negb (isMacOS s) then s
  else if isMacTrackpadGesture e s then
    let s := disableCaching s in
    let s :=
      if metaKey e || ctrlKey e
      then on_canvas (zoomContainer (smoothZoomFactor e s) (clientX e) (clientY e)) s
      else on_canvas (panContainer (- deltaX e * trackpadPanSensitivity s)
                                   (- deltaY e * trackpadPanSensitivity s)) s in
    restartZoomTimeout s
  else s.

(** [handleContainerWheel(e)] *)
Definition handleContainerWheel (e : WheelEvent) (s : State) : State :=
  let s := disableCaching s in
  let isMac := isMacOS s in
  let s :=
    if isMac && trackpadModeEnabled s then
      if ctrlKey e || metaKey e
      then on_canvas (zoomContainer (smoothZoomFactor e s) (clientX e) (clientY e)) s
      else on_canvas (panContainer (- deltaX e * trackpadPanSensitivity s)
                                   (- deltaY e * trackpadPanSensitivity s)) s
    else
      if ctrlKey e || metaKey e
      then on_canvas (zoomContainer (smoothZoomFactor e s) (clientX e) (clientY e)) s
      else on_canvas (panContainer (- deltaX e * panSensitivity s)
                                   (- deltaY e * panSensitivity s)) s in
  restartZoomTimeout s.

(** [handleContainerMouseDown(e)] *)
Definition handleContainerMouseDown (e : MouseEvent) (s : State) : State :=
  if (button e =? 1)%Z || altKey e then
    set_body_cursor "grabbing"
      (set_lastPos (mouse_clientX e) (mouse_clientY e) (set_isPanning true s))
  else s.

(** [handleContainerMouseMove(e)] *)
Definition handleContainerMouseMove (e : MouseEvent) (s : State) : State :=
  if negb (isPanning s) then s
  else
    let deltaX := mouse_clientX e - lastPosX s in
    let deltaY := mouse_clientY e - lastPosY s in
    set_lastPos (mouse_clientX e) (mouse_clientY e)
      (on_canvas (panContainer deltaX deltaY) s).

(** [handleContainerMouseUp()] *)
Definition handleContainerMouseUp (s : State) : State :=
  if isPanning s then
    on_canvas updateFabricViewportFromContainer
      (set_body_cursor "" (set_isPanning false s))
  else s.

Section Touch.

(** [Math.hypot] on two numbers; its value is a square root, which the
    handlers only compare and divide. *)
Variable hypot : Q -> Q -> Q.

(** [handleContainerTouchStart(e)], on [e.touches] *)
Definition handleContainerTouchStart (touches : list Touch) (s : State) : State :=
  match touches with
  | [touch1; touch2] =>
      let s :=
        set_initialPinchDistance
          (hypot (touch_clientX touch2 - touch_clientX touch1)
                 (touch_clientY touch2 - touch_clientY touch1)) s in
      set_lastPos ((touch_clientX touch1 + touch_clientX touch2) / 2)
                  ((touch_clientY touch1 + touch_clientY touch2) / 2) s
  | [touch] =>
      set_lastPos (touch_clientX touch) (touch_clientY touch) (set_isPanning true s)
  | _ => s
  end.

(** [handleContainerTouchMove(e)], on [e.touches].  A pinch whose recorded
    distance is [0] divides by zero, giving an infinite factor; that case
    is outside the rational model. *)
Definition handleContainerTouchMove (touches : list Touch) (s : State) : State :=
  match touches with
  | [touch1; touch2] =>
      let currentDistance :=
        hypot (touch_clientX touch2 - touch_clientX touch1)
              (touch_clientY touch2 - touch_clientY touch1) in
      let centerX := (touch_clientX touch1 + touch_clientX touch2) / 2 in
      let centerY := (touch_clientY touch1 + touch_clientY touch2) / 2 in
      let deltaX := centerX - lastPosX s in
      let deltaY := centerY - lastPosY s in
      let s :=
        if JS.ltb 10 (Qabs (currentDistance - initialPinchDistance s)) then
          let zoomFactor := currentDistance / initialPinchDistance s in
          set_initialPinchDistance currentDistance
            (on_canvas (zoomContainer zoomFactor centerX centerY) s)
        else s in
      set_lastPos centerX centerY (on_canvas (panContainer deltaX deltaY) s)
  | [touch] =>
      if isPanning s then
        let deltaX := touch_clientX touch - lastPosX s in
        let deltaY := touch_clientY touch - lastPosY s in
        set_lastPos (touch_clientX touch) (touch_clientY touch)
          (on_canvas (panContainer deltaX deltaY) s)
      else s
  | _ => s
  end.

(** [handleContainerTouchEnd()] *)
Definition handleContainerTouchEnd (s : State) : State :=
  on_canvas updateFabricViewportFromContainer
    (set_initialPinchDistance 0 (set_isPanning false s)).

End Touch.

End Gestures.

(** ** The background image: [refreshBackgroundImageValues] *)

Module BackgroundImage.
Import MarcherPageTable.
Local Open Scope Q_scope.

(** The dimensions of the fabric image held in [_backgroundImage]. *)
Record Image := mkImage { image_width : Q; image_height : Q }.

(** [_bgImageValues] *)
Record BgImageValues := mkBgImageValues {
  left : Q;
  top : Q;
  scale : Q;
  imgAspectRatio : Q
}.

(** The fields of [FieldProperties] read here. *)
Record FieldProperties := mkField {
  width : Q;
  height : Q;
  imageFillOrFit : string
}.

(** The fields of the canvas [refreshBackgroundImageValues] reads or
    writes; [consoleErrors] lists the messages of [console.error]. *)
Record Canvas := mkCanvas {
  backgroundImage : option Image;
  bgImageValues : option BgImageValues;
  fieldProperties : FieldProperties;
  consoleErrors : list string
}.

Definition console_error (message : string) (c : Canvas) : Canvas :=
  mkCanvas (backgroundImage c) (bgImageValues c) (fieldProperties c)
           (consoleErrors c ++ [message]).

Definition set_bgImageValues (v : BgImageValues) (c : Canvas) : Canvas :=
  mkCanvas (backgroundImage c) (Some v) (fieldProperties c) (consoleErrors c).

(** The body of [refreshBackgroundImageValues] from the point where the
    image and [imgAspectRatio] are known: the scale and the offsets are
    computed and stored. *)
Definition placeImage (image : Image) (imgAspectRatio : Q) (c : Canvas) : Canvas :=
  let width := width (fieldProperties c) in
  let height := height (fieldProperties c) in
  let canvasAspectRatio := width / height in
  if String.eqb (imageFillOrFit (fieldProperties c)) "fill" then
    if JS.ltb canvasAspectRatio imgAspectRatio then
      let scale := height / image_height image in
      let offset_left := (width - image_width image * scale) / 2 in
      set_bgImageValues (mkBgImageValues offset_left 0 scale imgAspectRatio) c
    else
      let scale := width / image_width image in
      let offset_top := (height - image_height image * scale) / 2 in
      set_bgImageValues (mkBgImageValues 0 offset_top scale imgAspectRatio) c
  else
    let c :=
      if negb (String.eqb (imageFillOrFit (fieldProperties c)) "fit")
      then console_error "Invalid image fill or fit value. Defaulting to 'fit'" c
      else c in
    if JS.ltb canvasAspectRatio imgAspectRatio then
      let scale := width / image_width image in
      let offset_top := (height - image_height image * scale) / 2 in
      set_bgImageValues (mkBgImageValues 0 offset_top scale imgAspectRatio) c
    else
      let scale := height / image_height image in
      let offset_left := (width - image_width image * scale) / 2 in
      set_bgImageValues (mkBgImageValues offset_left 0 scale imgAspectRatio) c.

(** [refreshBackgroundImageValues(newAspectRatio?)]; [imgAspectRatio] is
    [newAspectRatio ?? this._bgImageValues.imgAspectRatio].  A field or an
    image of height or width [0] makes a quotient infinite and is not
    covered by the rational model. *)
Definition refreshBackgroundImageValues (newAspectRatio : option Q) (c : Canvas) :
    Result Canvas :=
  match backgroundImage c with
  | None => Ok c
  | Some image =>
      match newAspectRatio, bgImageValues c with
      | None, None =>
          Throw "Must provide an aspect ratio or have _bgImageValues be defined"
      | Some ratio, _ => Ok (placeImage image ratio c)
      | None, Some values => Ok (placeImage image (imgAspectRatio values) c)
      end
  end.

End BackgroundImage.

(** ** Scene synchronizer, continued: [renderMarcherShapes] *)

Module Shapes.
Import Scene.
Local Open Scope Z_scope.

(** A row of the shape-page table: the fields read by the canvas. *)
Record ShapePage := mkShapePage {
  sp_id : Z;
  shape_id : Z;
  svg_path : string
}.

(** [marcherShapes], each [MarcherShape] object with its identity and the
    [shapePage] it holds; the objects [destroy()] has been called on,
    in the order of the calls; and the next reference [new] hands out. *)
Record Canvas := mkCanvas {
  marcherShapes : list (ObjRef * ShapePage);
  destroyed : list ObjRef;
  nextRef : ObjRef
}.

(** [existingMarcherShape.destroy()] *)
Definition destroy (r : ObjRef) (c : Canvas) : Canvas :=
  mkCanvas (marcherShapes c) (destroyed c ++ [r]) (nextRef c).

(** Modelled from the spec: [MarcherShape] is not part of the sources at
    hand; following "existing shapes are updated in place via
    [setShapePage] + refresh", the object held under the reference takes
    the row as its [shapePage] and stays the same object.  Its
    [refreshMarchers] moves marchers and does not touch [marcherShapes]. *)
Definition setShapePage (r : ObjRef) (shapePage : ShapePage) (c : Canvas) : Canvas :=
  mkCanvas ((fun rs => if decide (rs.1 = r) then (rs.1, shapePage) else rs)
              <$> marcherShapes c)
           (destroyed c) (nextRef c).

(** [this.marcherShapes.push(new MarcherShape({canvas: this, shapePage}))] *)
Definition push_new (shapePage : ShapePage) (c : Canvas) : Canvas :=
  mkCanvas (marcherShapes c ++ [(nextRef c, shapePage)]) (destroyed c)
           (S (nextRef c)).

(** The body of the loop over [existingMarcherShapeMap]. *)
Definition removeAbsent (newShapeIds : gset Z)
    (acc : gset Z * Canvas) (existingMarcherShape : Z * ObjRef) : gset Z * Canvas :=
  if decide (existingMarcherShape.1 ∈ newShapeIds) then acc
  else ({[existingMarcherShape.1]} ∪ acc.1, destroy existingMarcherShape.2 acc.2).

(** The body of the loop over [shapePages]. *)
Definition renderShapePage (existingMarcherShapeMap : gmap Z ObjRef)
    (c : Canvas) (shapePage : ShapePage) : Canvas :=
  match existingMarcherShapeMap !! shape_id shapePage with
  | Some existingMarcherShape => setShapePage existingMarcherShape shapePage c
  | None => push_new shapePage c
  end.

(** [renderMarcherShapes({shapePages})].  The loop over the map visits it
    in insertion order and [map_to_list] in another one; the shapes
    destroyed and the shapes left are the same. *)
Definition renderMarcherShapes (shapePages : list ShapePage) (c : Canvas) : Canvas :=
  let existingMarcherShapeMap : gmap Z ObjRef :=
    new_Map ((fun ms => (shape_id ms.2, ms.1)) <$> marcherShapes c) in
  let newShapeIds : gset Z := list_to_set (shape_id <$> shapePages) in
  let '(removedShapeIds, c) :=
    foldl (removeAbsent newShapeIds) (∅, c) (map_to_list existingMarcherShapeMap) in
  let c :=
    if decide (size removedShapeIds ≠ 0%nat) then
      mkCanvas (filter (fun ms => shape_id ms.2 ∉ removedShapeIds) (marcherShapes c))
               (destroyed c) (nextRef c)
    else c in
  foldl (renderShapePage existingMarcherShapeMap) c shapePages.

(** The shape identities held in [marcherShapes]. *)
Definition shapeIds (c : Canvas) : gset Z :=
  list_to_set ((fun ms => shape_id ms.2) <$> marcherShapes c).

End Shapes.

(** ** Field grid builder: the vertical grid lines of [createFieldGrid] *)

Module FieldGrid.
Local Open Scope Q_scope.

(** A [fabric.Line([x1, y1, x2, y2], ...)]. *)
Record Line := mkLine { x1 : Q; y1 : Q; x2 : Q; y2 : Q }.

(** The fields of [FieldProperties] the loops read; [centerFrontPoint] is
    given by its two coordinates. *)
Record FieldProperties := mkField {
  width : Q;
  height : Q;
  pixelsPerStep : Q;
  centerFront_xPixels : Q;
  centerFront_yPixels : Q
}.

(** [for (let i = start; i < limit; i += step) push(i)]: the values of [i]
    the body runs with.  The loop runs as long as its test holds; [fuel]
    bounds the number of rounds, and [None] says it was used up before
    the test failed.

    The counter is an exact rational, where the program adds doubles.
    With a positive step a rounded sum can fall on the other side of the
    loop's bound than the exact one (a tenth added ten times stays below
    1 on doubles), so the number of rounds of the program can differ by
    one from the number computed here, and nothing is proved below of the
    loops with a positive step.  With a step of zero or less the counter
    of the first loop does not grow, on doubles as on rationals. *)
Fixpoint forUp (fuel : nat) (i limit step : Q) : option (list Q) :=
  if JS.ltb i limit then
    match fuel with
    | O => None
    | S fuel' => cons i <$> forUp fuel' (i + step) limit step
    end
  else Some [].

(** [for (let i = start; i > 0; i -= step) push(i)], with the same
    exact counter. *)
Fixpoint forDown (fuel : nat) (i step : Q) : option (list Q) :=
  if JS.ltb 0 i then
    match fuel with
    | O => None
    | S fuel' => cons i <$> forDown fuel' (i - step) step
    end
  else Some [].

(** The line pushed for a value of [i]: [[i, 0, i, fieldHeight]]. *)
Definition vertical (fieldHeight i : Q) : Line := mkLine i 0 i fieldHeight.

(** The part of [createFieldGrid] under [// X] of [if (gridLines)]: the
    lines from the centre to the right, then those left of the centre. *)
Definition gridLinesX (fuel : nat) (fp : FieldProperties) : option (list Line) :=
  let fieldWidth := width fp in
  let fieldHeight := height fp in
  let pixelsPerStep := pixelsPerStep fp in
  right ← forUp fuel (centerFront_xPixels fp) fieldWidth pixelsPerStep;
  left ← forDown fuel (centerFront_xPixels fp - pixelsPerStep) pixelsPerStep;
  Some ((vertical fieldHeight <$> right) ++ (vertical fieldHeight <$> left)).

End FieldGrid.

(** ** Scene synchronizer, continued: static marchers, marcher lines and
       pathways *)

Module SceneObjects.
Import Scene.
Local Open Scope Z_scope.

(** The drawables handled here.  A [MarcherLine] is handed in by the
    caller and is known by an identity of its own; anything else on the
    canvas (marchers, the grid, control points) is known by its class
    name. *)
Inductive FabricObject :=
| AStaticCanvasMarcher (marcherPage : MarcherPage) (color : string)
| APathway (start finish : MarcherPage) (color : string)
           (strokeWidth : option Q) (dashed : bool) (marcherId : Z)
| AMarcherLine (line_id : Z)
| AnotherObject (class_name : string).

Inductive Class := StaticCanvasMarcherClass | PathwayClass | MarcherLineClass.

(** [obj instanceof type].  The three classes extend fabric's classes and
    not one another. *)
Definition instanceOf (obj : FabricObject) (type : Class) : bool :=
  match obj, type with
  | AStaticCanvasMarcher _ _, StaticCanvasMarcherClass => true
  | APathway _ _ _ _ _ _, PathwayClass => true
  | AMarcherLine _, MarcherLineClass => true
  | _, _ => false
  end.

(** fabric's [_objects] in draw order, the next reference [new] hands out,
    and the rows reported through [console.error].  Repaint requests are
    left out. *)
Record Canvas := mkCanvas {
  objects : list (ObjRef * FabricObject);
  nextRef : ObjRef;
  consoleErrors : list MarcherPage
}.

(** fabric's [add(object)], for an object that exists already and for a
    freshly constructed one. *)
Definition add (o : ObjRef * FabricObject) (c : Canvas) : Canvas :=
  mkCanvas (objects c ++ [o]) (nextRef c) (consoleErrors c).

Definition add_new (o : FabricObject) (c : Canvas) : Canvas :=
  mkCanvas (objects c ++ [(nextRef c, o)]) (S (nextRef c)) (consoleErrors c).

(** fabric's [remove(object)] *)
Definition remove (r : ObjRef) (c : Canvas) : Canvas :=
  mkCanvas (remove_ref r (objects c)) (nextRef c) (consoleErrors c).

Definition console_error (mp : MarcherPage) (c : Canvas) : Canvas :=
  mkCanvas (objects c) (nextRef c) (consoleErrors c ++ [mp]).

(** [getObjectsByType(type)] *)
Definition getObjectsByType (type : Class) (c : Canvas) : list (ObjRef * FabricObject) :=
  filter (fun ro => instanceOf ro.2 type = true) (objects c).

(** [removeAllObjectsByType(type)] *)
Definition removeAllObjectsByType (type : Class) (c : Canvas) : Canvas :=
  let objects := getObjectsByType type c in
  foldl (fun c obj => remove obj.1 c) c objects.

(** The body of the loop of [renderStaticMarchers]. *)
Definition renderStaticMarcher (color : string) (allMarchers : list Marcher)
    (acc : list (ObjRef * FabricObject) * Canvas) (marcherPage : MarcherPage) :
    list (ObjRef * FabricObject) * Canvas :=
  let '(createdStaticMarchers, c) := acc in
  match find (fun marcher => bool_decide (id marcher = marcher_id marcherPage))
             allMarchers with
  | None => (createdStaticMarchers, console_error marcherPage c)
  | Some curMarcher =>
      let staticMarcher := AStaticCanvasMarcher marcherPage color in
      (createdStaticMarchers ++ [(nextRef c, staticMarcher)], add_new staticMarcher c)
  end.

(** [renderStaticMarchers({color, intendedMarcherPages, allMarchers})]:
    the objects created, and the canvas. *)
Definition renderStaticMarchers (color : string)
    (intendedMarcherPages : list MarcherPage) (allMarchers : list Marcher)
    (c : Canvas) : list (ObjRef * FabricObject) * Canvas :=
  foldl (renderStaticMarcher color allMarchers) ([], c) intendedMarcherPages.

(** [removeStaticCanvasMarchers()] *)
Definition removeStaticCanvasMarchers (c : Canvas) : Canvas :=
  let curStaticCanvasMarchers := getObjectsByType StaticCanvasMarcherClass c in
  foldl (fun c canvasMarcher => remove canvasMarcher.1 c) c curStaticCanvasMarchers.

(** [renderMarcherLines({marcherLines})] *)
Definition renderMarcherLines (marcherLines : list (ObjRef * FabricObject))
    (c : Canvas) : Canvas :=
  foldl (fun c marcherLine => add marcherLine c)
        (removeAllObjectsByType MarcherLineClass c) marcherLines.

(** The body of the loop of [renderPathways]. *)
Definition renderPathway (startPageMarcherPages : list MarcherPage)
    (color : string) (strokeWidth : option Q) (dashed : bool)
    (acc : list (ObjRef * FabricObject) * Canvas) (previousMarcherPage : MarcherPage) :
    list (ObjRef * FabricObject) * Canvas :=
  let '(createdPathways, c) := acc in
  match find (fun marcherPage =>
                bool_decide (marcher_id marcherPage = marcher_id previousMarcherPage))
             startPageMarcherPages with
  | None => (createdPathways, console_error previousMarcherPage c)
  | Some selectedMarcherPage =>
      let pathway :=
        APathway previousMarcherPage selectedMarcherPage color strokeWidth dashed
                 (marcher_id previousMarcherPage) in
      (createdPathways ++ [(nextRef c, pathway)], add_new pathway c)
  end.

(** [renderPathways({startPageMarcherPages, endPageMarcherPages, color,
    strokeWidth, dashed})]: the pathways created, and the canvas. *)
Definition renderPathways (startPageMarcherPages endPageMarcherPages : list MarcherPage)
    (color : string) (strokeWidth : option Q) (dashed : bool) (c : Canvas) :
    list (ObjRef * FabricObject) * Canvas :=
  foldl (renderPathway startPageMarcherPages color strokeWidth dashed)
        ([], c) endPageMarcherPages.

(** References on a canvas are handed out once and below [nextRef]. *)
Definition canvas_wf (c : Canvas) : Prop :=
  NoDup (objects c).*1 /\ Forall (fun r => (r < nextRef c)%nat) (objects c).*1.

End SceneObjects.

(** * Part II: properties *)

(** ** JavaScript numbers: comparisons and the clamp idiom *)

Module JSFacts.
Import JS.
Local Open Scope Q_scope.

Lemma ltb_lt a b : ltb a b = true <-> a < b.
Proof.
  unfold ltb. rewrite negb_true_iff.
  split; intros H.
  - apply Qnot_le_lt. intros Hle. apply Qle_bool_iff in Hle. congruence.
  - destruct (Qle_bool b a) eqn:E; [|reflexivity].
    apply Qle_bool_iff in E. exfalso. apply (Qlt_not_le _ _ H E).
Qed.

Lemma ltb_ge a b : ltb a b = false <-> b <= a.
Proof.
  unfold ltb. rewrite negb_false_iff. apply Qle_bool_iff.
Qed.

Lemma leb_le a b : leb a b = true <-> a <= b.
Proof. apply Qle_bool_iff. Qed.

(** The clamp idiom [Math.max(lo, Math.min(hi, v))]. *)
Lemma clamp_bounds lo hi v :
  lo <= hi -> lo <= Qmax lo (Qmin hi v) /\ Qmax lo (Qmin hi v) <= hi.
Proof.
  intros Hlh. split.
  - apply Q.le_max_l.
  - apply Q.max_lub; [exact Hlh | apply Q.le_min_l].
Qed.

End JSFacts.

(** ** Lists: a few facts used throughout *)

Module ListFacts.

Lemma NoDup_fmap_eq {A B} (f : A -> B) (l : list A) (a b : A) :
  NoDup (f <$> l) -> a ∈ l -> b ∈ l -> f a = f b -> a = b.
Proof.
  induction l as [|c l IH]; csimpl; intros Hnd Ha Hb Hab.
  - by apply elem_of_nil in Ha.
  - apply NoDup_cons in Hnd as [Hnotin Hnd].
    apply elem_of_cons in Ha as [->|Ha]; apply elem_of_cons in Hb as [->|Hb].
    + done.
    + exfalso. apply Hnotin. apply list_elem_of_fmap. by exists b.
    + exfalso. apply Hnotin. apply list_elem_of_fmap. by exists a.
    + by apply IH.
Qed.

Lemma NoDup_fst_unique {A B} (l : list (A * B)) a b1 b2 :
  NoDup l.*1 -> (a, b1) ∈ l -> (a, b2) ∈ l -> b1 = b2.
Proof.
  induction l as [|[a' b'] l IH]; csimpl; intros Hnd H1 H2.
  - by apply elem_of_nil in H1.
  - apply NoDup_cons in Hnd as [Hnotin Hnd].
    apply elem_of_cons in H1 as [H1|H1]; apply elem_of_cons in H2 as [H2|H2].
    + congruence.
    + inversion H1; subst. exfalso. apply Hnotin.
      apply list_elem_of_fmap. by exists (a', b2).
    + inversion H2; subst. exfalso. apply Hnotin.
      apply list_elem_of_fmap. by exists (a', b1).
    + by apply IH.
Qed.

Lemma filter_all {A} (P : A -> Prop) `{!forall x, Decision (P x)} (l : list A) :
  (forall a, P a) -> filter P l = l.
Proof.
  intros HP. induction l as [|a l IH]; [done|].
  rewrite filter_cons_True by done. by f_equal.
Qed.

Lemma find_Some_elem {A} (f : A -> bool) (l : list A) (a : A) :
  find f l = Some a -> a ∈ l /\ f a = true.
Proof.
  induction l as [|b l IH]; simpl; [done|].
  destruct (f b) eqn:Hb.
  - intros [= ->]. split; [by left | done].
  - intros [Hin Hf]%IH. split; [by right | done].
Qed.

Lemma find_None_all {A} (f : A -> bool) (l : list A) :
  find f l = None -> forall a, a ∈ l -> f a = false.
Proof.
  induction l as [|b l IH]; simpl; intros Hfind a Hin.
  - by apply elem_of_nil in Hin.
  - destruct (f b) eqn:Hb; [done|].
    apply elem_of_cons in Hin as [->|Hin]; [done | by apply IH].
Qed.

Lemma omap_filter_sublist {A B} (f : A -> option B) (P : A -> Prop)
    `{!forall x, Decision (P x)} (l : list A) :
  omap f (filter P l) `sublist_of` omap f l.
Proof.
  induction l as [|a l IH]; [done|].
  rewrite filter_cons. destruct (decide (P a)); csimpl.
  - destruct (f a); [by apply sublist_skip | done].
  - destruct (f a); [by apply sublist_cons | done].
Qed.

Lemma NoDup_fst_filter {K A} (P : K * A -> Prop) `{!forall x, Decision (P x)}
    (l : list (K * A)) :
  NoDup l.*1 -> NoDup (filter P l).*1.
Proof.
  intros Hnd. eapply sublist_NoDup; [exact Hnd|].
  apply fmap_sublist, sublist_filter.
Qed.

Lemma filter_nothing {A} (P : A -> Prop) `{!forall x, Decision (P x)} (l : list A) :
  (forall a, a ∈ l -> ~ P a) -> filter P l = [].
Proof.
  induction l as [|a l IH]; intros HP; [done|].
  rewrite filter_cons_False by (apply HP; by left).
  apply IH. intros a' Ha'. apply HP. by right.
Qed.

End ListFacts.

(** ** Properties of the viewport controller *)

Module ViewportFacts.
Import Viewport.
Local Open Scope Q_scope.

Lemma limits_ordered : MIN_ZOOM <= MAX_ZOOM.
Proof. unfold MIN_ZOOM, MAX_ZOOM. lra. Qed.

(** The helpers that only touch the wrapper or fabric's matrix leave
    [transformValues] and the notices alone. *)
Lemma transform_set_transition s c :
  transformValues (set_transition s c) = transformValues c.
Proof. unfold set_transition. destruct (cssZoomWrapper c); reflexivity. Qed.

Lemma transform_applyContainerTransform c :
  transformValues (applyContainerTransform c) = transformValues c.
Proof. unfold applyContainerTransform. destruct (cssZoomWrapper c); reflexivity. Qed.

Lemma transform_updateFabricViewport c :
  transformValues (updateFabricViewportFromContainer c) = transformValues c.
Proof.
  unfold updateFabricViewportFromContainer.
  destruct (cssZoomWrapper c); [|reflexivity].
  destruct (viewportTransform c); reflexivity.
Qed.

Lemma transform_set_transform t c : transformValues (set_transform t c) = t.
Proof. reflexivity. Qed.

Ltac transform_simpl :=
  repeat first
    [ rewrite transform_updateFabricViewport
    | rewrite transform_applyContainerTransform
    | rewrite transform_set_transition
    | rewrite transform_set_transform ].

(** The ways out of [zoomContainer]: the notice at the lower limit, the
    notice at the upper limit, a return without any write (no container,
    or a change of scale below 0.0001), and the zoom itself. *)
Inductive ZoomOutcome (factor clientX clientY : Q) (c c' : Canvas) : Prop :=
| zoom_at_min :
    scale (transformValues c) <= MIN_ZOOM -> factor < 1 ->
    c' = showZoomLimitFeedback "You've reached maximum zoom out" c ->
    ZoomOutcome factor clientX clientY c c'
| zoom_at_max :
    MAX_ZOOM <= scale (transformValues c) -> 1 < factor ->
    ~ (scale (transformValues c) <= MIN_ZOOM /\ factor < 1) ->
    c' = showZoomLimitFeedback "You've reached maximum zoom in" c ->
    ZoomOutcome factor clientX clientY c c'
| zoom_unchanged :
    c' = c ->
    ZoomOutcome factor clientX clientY c c'
| zoom_applied rect newScale :
    (exists w, cssZoomWrapper c = Some w /\ parentElement w = Some rect) ->
    MIN_ZOOM <= newScale <= MAX_ZOOM ->
    (1 # 10000) <= Qabs (newScale - scale (transformValues c)) ->
    zoomLimitFeedback c' = zoomLimitFeedback c ->
    transformValues c' =
      (let x := clientX - left rect in
       let y := clientY - top rect in
       let t := transformValues c in
       let scaleFactor := newScale / scale t in
       mkTransform (x - (x - translateX t) * scaleFactor)
                   (y - (y - translateY t) * scaleFactor)
                   newScale x y) ->
    ZoomOutcome factor clientX clientY c c'.

Lemma zoomContainer_outcome factor clientX clientY c :
  ZoomOutcome factor clientX clientY c (zoomContainer factor clientX clientY c).
Proof.
  unfold zoomContainer.
  destruct (cssZoomWrapper c) as [w|] eqn:Hw; [|by apply zoom_unchanged].
  destruct (parentElement w) as [rect|] eqn:Hp; [|by apply zoom_unchanged].
  cbv zeta.
  destruct (JS.leb (scale (transformValues c)) MIN_ZOOM && JS.ltb factor 1) eqn:Hmin.
  { apply andb_true_iff in Hmin as [H1 H2].
    apply JSFacts.leb_le in H1. apply JSFacts.ltb_lt in H2.
    by apply zoom_at_min. }
  destruct (JS.leb MAX_ZOOM (scale (transformValues c)) && JS.ltb 1 factor) eqn:Hmax.
  { apply andb_true_iff in Hmax as [H1 H2].
    apply JSFacts.leb_le in H1. apply JSFacts.ltb_lt in H2.
    apply zoom_at_max; try done.
    intros [H3 H4]. apply JSFacts.leb_le in H3. apply JSFacts.ltb_lt in H4.
    rewrite H3, H4 in Hmin. discriminate. }
  match goal with |- context [JS.ltb ?a ?b] =>
    destruct (JS.ltb a b) eqn:Hsmall end; [by apply zoom_unchanged|].
  apply JSFacts.ltb_ge in Hsmall.
  eapply zoom_applied with (rect := rect).
  - eauto.
  - apply JSFacts.clamp_bounds, limits_ordered.
  - exact Hsmall.
  - unfold applyContainerTransform, set_transition; simpl. rewrite Hw; simpl. reflexivity.
  - transform_simpl. reflexivity.
Qed.

Lemma zoomContainer_scale_in_limits factor clientX clientY c :
  scale_in_limits c -> scale_in_limits (zoomContainer factor clientX clientY c).
Proof.
  intros Hc.
  destruct (zoomContainer_outcome factor clientX clientY c)
    as [_ _ -> | _ _ _ -> | -> | rect newScale _ Hn _ _ Ht]; try exact Hc.
  unfold scale_in_limits. rewrite Ht. exact Hn.
Qed.

Lemma panContainer_scale deltaX deltaY c :
  scale (transformValues (panContainer deltaX deltaY c)) = scale (transformValues c).
Proof.
  unfold panContainer. destruct (cssZoomWrapper c); [|reflexivity].
  cbv zeta. transform_simpl. reflexivity.
Qed.

Lemma resetZoom_scale_in_limits c : scale_in_limits (resetZoom c).
Proof.
  unfold scale_in_limits, resetZoom. cbv zeta. transform_simpl. simpl.
  unfold MIN_ZOOM, MAX_ZOOM. lra.
Qed.

Lemma fitToScreen_scale_in_limits innerWidth innerHeight c :
  scale_in_limits c -> scale_in_limits (fitToScreen innerWidth innerHeight c).
Proof.
  intros Hc. unfold fitToScreen.
  destruct (cssZoomWrapper c); [|exact Hc].
  cbv zeta. unfold scale_in_limits. transform_simpl. simpl.
  apply JSFacts.clamp_bounds, limits_ordered.
Qed.

Lemma step_scale_in_limits c g : scale_in_limits c -> scale_in_limits (step c g).
Proof.
  intros Hc. destruct g; simpl.
  - by apply zoomContainer_scale_in_limits.
  - unfold scale_in_limits. rewrite panContainer_scale. exact Hc.
  - by apply fitToScreen_scale_in_limits.
  - apply resetZoom_scale_in_limits.
Qed.

Lemma run_scale_in_limits gs c : scale_in_limits c -> scale_in_limits (run gs c).
Proof.
  unfold run. revert c.
  induction gs as [|g gs IH]; intros c Hc; simpl; [exact Hc|].
  apply IH, step_scale_in_limits, Hc.
Qed.

Lemma initial_scale_in_limits w fp : scale_in_limits (initial w fp).
Proof. unfold scale_in_limits, MIN_ZOOM, MAX_ZOOM; simpl. lra. Qed.

(** A canvas is attached when its container [div] is known and sits in a
    parent element: the configuration in which the gesture handlers and
    the zoom buttons are installed. *)
Definition attached (c : Canvas) : Prop :=
  exists w rect, cssZoomWrapper c = Some w /\ parentElement w = Some rect.

(** The notice shown for a request arriving at a limit. *)
Definition limit_message (factor : Q) : string :=
  if JS.ltb factor 1
  then "You've reached maximum zoom out"
  else "You've reached maximum zoom in".

Lemma zoomContainer_at_limit factor clientX clientY c :
  attached c ->
  (scale (transformValues c) <= MIN_ZOOM /\ factor < 1) \/
  (MAX_ZOOM <= scale (transformValues c) /\ 1 < factor) ->
  zoomContainer factor clientX clientY c =
    showZoomLimitFeedback (limit_message factor) c.
Proof.
  intros (w & rect & Hw & Hp) Hlim.
  unfold zoomContainer, limit_message. rewrite Hw, Hp. cbv zeta.
  destruct Hlim as [[Hs Hf] | [Hs Hf]].
  - apply JSFacts.leb_le in Hs. apply JSFacts.ltb_lt in Hf. rewrite Hs, Hf. reflexivity.
  - assert (JS.ltb factor 1 = false) as Hge by (apply JSFacts.ltb_ge; lra).
    apply JSFacts.leb_le in Hs. apply JSFacts.ltb_lt in Hf.
    rewrite Hge, andb_false_r, Hs, Hf. reflexivity.
Qed.

(** C1.  Along every sequence of viewport operations from the initial
    canvas (zoom requests through [zoomContainer], pans, [fitToScreen],
    [resetZoom]) the scale stays within [[MIN_ZOOM, MAX_ZOOM]] = [[0.5, 2]],
    and so does the scale after one more [zoomContainer] or [fitToScreen]
    call.  On an attached canvas, a zoom request that arrives while the
    scale is at a limit and pushes past it leaves the transform, the
    container and fabric's matrix as they were and shows exactly one more
    notice.  The field dimensions are taken positive, since [fitToScreen]
    divides by them. *)
Theorem zoom_scale_within_limits
    (w : option HTMLDivElement) (fp : FieldProperties) (gs : list Gesture) :
  0 < width fp -> 0 < height fp ->
  let c := run gs (initial w fp) in
  scale_in_limits c /\
  (forall factor clientX clientY,
      scale_in_limits (zoomContainer factor clientX clientY c)) /\
  (forall innerWidth innerHeight,
      scale_in_limits (fitToScreen innerWidth innerHeight c)) /\
  (forall factor clientX clientY,
      attached c ->
      (scale (transformValues c) <= MIN_ZOOM /\ factor < 1) \/
      (MAX_ZOOM <= scale (transformValues c) /\ 1 < factor) ->
      let c' := zoomContainer factor clientX clientY c in
      transformValues c' = transformValues c /\
      cssZoomWrapper c' = cssZoomWrapper c /\
      viewportTransform c' = viewportTransform c /\
      zoomLimitFeedback c' = zoomLimitFeedback c ++ [limit_message factor]).
Proof.
  intros _ _ c.
  assert (scale_in_limits c) as Hc
    by apply run_scale_in_limits, initial_scale_in_limits.
  split; [exact Hc|]. split; [|split].
  - intros. by apply zoomContainer_scale_in_limits.
  - intros. by apply fitToScreen_scale_in_limits.
  - intros factor clientX clientY Hatt Hlim c'. subst c'.
    rewrite (zoomContainer_at_limit _ _ _ _ Hatt Hlim). by cbn.
Qed.

(** C1 on a run: one zoom request takes the scale from 1 to the upper
    limit, and the next is answered by the notice. *)
Lemma zoom_scale_within_limits_witness :
  let w := mkDiv (Some (mkRect 0 0)) "" None in
  let c := run [Zoom 3 100 100] (initial (Some w) (mkField 1600 800)) in
  scale_in_limits c /\
  zoomLimitFeedback (zoomContainer 3 100 100 c) = ["You've reached maximum zoom in"].
Proof.
  intros w c.
  assert (0 < width (mkField 1600 800)) as Hw by reflexivity.
  assert (0 < height (mkField 1600 800)) as Hh by reflexivity.
  destruct (zoom_scale_within_limits (Some w) (mkField 1600 800)
              [Zoom 3 100 100] Hw Hh) as (Hc & _ & _ & Hlim).
  split; [exact Hc|].
  refine (proj2 (proj2 (proj2 (Hlim 3 100 100 _ _)))).
  - eexists _, _. split; reflexivity.
  - right. split; [vm_compute; discriminate | reflexivity].
Defined.

(** C4.  When a [zoomContainer] call changes the scale from [s] to [s'],
    the new translation is [t' = a - (a - t) * (s' / s)] for the anchor
    [a] (the client point relative to the container's parent), so the
    content-space coordinate under the anchor is the same before and
    after: [(a - t) / s == (a - t') / s'].  Numbers are exact rationals,
    so the equality is exact; it covers every scale change from a scale
    within the limits, in particular those with [s] and [s'] strictly
    inside them. *)
Theorem zoom_anchor_fixed
    (c : Canvas) (factor clientX clientY : Q) (w : HTMLDivElement) (rect : DOMRect) :
  cssZoomWrapper c = Some w ->
  parentElement w = Some rect ->
  scale_in_limits c ->
  let c' := zoomContainer factor clientX clientY c in
  let t := transformValues c in
  let t' := transformValues c' in
  ~ scale t' == scale t ->
  let ax := clientX - left rect in
  let ay := clientY - top rect in
  translateX t' = ax - (ax - translateX t) * (scale t' / scale t) /\
  translateY t' = ay - (ay - translateY t) * (scale t' / scale t) /\
  (ax - translateX t) / scale t == (ax - translateX t') / scale t' /\
  (ay - translateY t) / scale t == (ay - translateY t') / scale t'.
Proof.
  intros Hw Hp [Hlo Hhi] c' t t' Hchg ax ay.
  subst c' t t'.
  destruct (zoomContainer_outcome factor clientX clientY c)
    as [_ _ Heq | _ _ _ Heq | Heq | rect' newScale Hatt [Hn _] _ _ Ht].
  1-3: exfalso; apply Hchg; rewrite Heq; reflexivity.
  destruct Hatt as (w' & Hw' & Hp').
  assert (rect' = rect) as -> by congruence.
  rewrite Ht in *. cbn in *; subst ax ay.
  unfold MIN_ZOOM in *.
  repeat split; try reflexivity; field; split; lra.
Qed.

(** C4 on a zoom from scale 1 to 9/8 anchored at (400, 300). *)
Lemma zoom_anchor_fixed_witness :
  let w := mkDiv (Some (mkRect 10 20)) "" None in
  let c := initial (Some w) (mkField 1600 800) in
  let c' := zoomContainer (5 # 4) 410 320 c in
  scale (transformValues c') == 9 # 8 /\
  (400 - translateX (transformValues c)) / scale (transformValues c)
    == (400 - translateX (transformValues c')) / scale (transformValues c').
Proof.
  intros w c c'. split; [reflexivity|].
  assert (scale_in_limits c) as Hc by (split; vm_compute; discriminate).
  assert (~ scale (transformValues c') == scale (transformValues c)) as Hchg
    by (vm_compute; discriminate).
  exact (proj1 (proj2 (proj2
    (zoom_anchor_fixed c (5 # 4) 410 320 w (mkRect 10 20)
       eq_refl eq_refl Hc Hchg)))).
Defined.

End ViewportFacts.

(** ** Properties of the scene synchronizer *)

Module SceneFacts.
Import ListFacts Scene.
Local Open Scope Z_scope.

Section NewMap.
Context {V : Type}.
Implicit Types (l : list (Z * V)) (m : gmap Z V).

Lemma foldl_insert_union l m :
  foldl (fun m kv => <[kv.1 := kv.2]> m) m l = list_to_map (reverse l) ∪ m.
Proof.
  revert m. induction l as [|[k v] l IH]; intros m; simpl.
  - by rewrite (left_id_L ∅ (∪)).
  - rewrite IH, reverse_cons, list_to_map_app. simpl.
    rewrite <- (assoc_L (∪)). f_equal.
    rewrite insert_empty. apply insert_union_singleton_l.
Qed.

Lemma new_Map_reverse l : new_Map l = list_to_map (reverse l).
Proof. unfold new_Map. rewrite foldl_insert_union. by rewrite (right_id_L ∅ (∪)). Qed.

Lemma new_Map_lookup_Some l k v : new_Map l !! k = Some v -> (k, v) ∈ l.
Proof.
  rewrite new_Map_reverse. intros H.
  apply elem_of_list_to_map_2 in H. by rewrite elem_of_reverse in H.
Qed.

Lemma new_Map_lookup_NoDup l k v :
  NoDup l.*1 -> (k, v) ∈ l -> new_Map l !! k = Some v.
Proof.
  intros Hnd Hin. rewrite new_Map_reverse.
  apply elem_of_list_to_map_1.
  - by rewrite fmap_reverse, reverse_Permutation.
  - by apply elem_of_reverse.
Qed.

Lemma new_Map_lookup_None l k : new_Map l !! k = None <-> k ∉ l.*1.
Proof.
  rewrite new_Map_reverse, <- not_elem_of_list_to_map, fmap_reverse.
  by rewrite elem_of_reverse.
Qed.

Lemma dom_new_Map l : dom (new_Map l) = list_to_set l.*1.
Proof.
  apply set_eq. intros k.
  rewrite elem_of_dom, elem_of_list_to_set, <- not_eq_None_Some.
  rewrite new_Map_lookup_None. split; [apply dec_stable | auto].
Qed.

End NewMap.

(** The identity a canvas object is drawn for, and the canvas reduced to
    references and identities. *)
Definition objId (o : FabricObject) : option Z :=
  match o with
  | ACanvasMarcher m => Some (id (marcherObj m))
  | AnotherObject _ => None
  end.

Definition shape (c : Canvas) : list (ObjRef * option Z) :=
  (fun ro => (ro.1, objId ro.2)) <$> objects c.

(** The rows for which the loop constructs a drawable. *)
Definition creates (M : gmap Z ObjRef) (A : gmap Z Marcher) (mp : MarcherPage) : bool :=
  bool_decide (M !! marcher_id mp = None /\ is_Some (A !! marcher_id mp)).

Fixpoint newShape (r : ObjRef) (rows : list MarcherPage) : list (ObjRef * option Z) :=
  match rows with
  | [] => []
  | mp :: rows => (r, Some (marcher_id mp)) :: newShape (S r) rows
  end.

(** The references the removal pass takes off the canvas. *)
Definition staleRefs (keep : gset Z) (entries : list (Z * ObjRef)) : list ObjRef :=
  (filter (fun kr => kr.1 ∉ keep) entries).*2.

Lemma shape_fst c : (shape c).*1 = (objects c).*1.
Proof.
  unfold shape. rewrite <- list_fmap_compose. by apply list_fmap_ext.
Qed.

Lemma getCanvasMarchers_ids c :
  (fun rm => id (marcherObj rm.2)) <$> getCanvasMarchers c = omap snd (shape c).
Proof.
  unfold getCanvasMarchers, shape.
  induction (objects c) as [|[r [m|s]] l IH]; csimpl; [done| |done].
  by f_equal.
Qed.

Lemma getCanvasMarchers_entries c :
  (fun rm => (id (marcherObj rm.2), rm.1)) <$> getCanvasMarchers c
  = omap (fun rk => (fun k => (k, rk.1)) <$> rk.2) (shape c).
Proof.
  unfold getCanvasMarchers, shape.
  induction (objects c) as [|[r [m|s]] l IH]; csimpl; [done| |done].
  by f_equal.
Qed.

Lemma canvasMarcherIds_shape c :
  canvasMarcherIds c = list_to_set (omap snd (shape c)).
Proof. unfold canvasMarcherIds. by rewrite getCanvasMarchers_ids. Qed.

Lemma elem_of_canvasMarcherIds c k :
  k ∈ canvasMarcherIds c <-> exists r, (r, Some k) ∈ shape c.
Proof.
  rewrite canvasMarcherIds_shape, elem_of_list_to_set, list_elem_of_omap.
  split.
  - intros ([r o] & Hin & Ho). simpl in Ho. subst o. eauto.
  - intros [r Hin]. by exists (r, Some k).
Qed.

(** *** The loop over the rows *)

Lemma shape_setMarcherCoords r mp c : shape (setMarcherCoords r mp c) = shape c.
Proof.
  unfold shape, setMarcherCoords; simpl.
  rewrite <- list_fmap_compose. apply list_fmap_ext.
  intros i [r' [m|s]] _; simpl; [|done].
  by destruct (decide (r' = r)).
Qed.

Lemma renderRow_shape M A sas c mp :
  (forall k m, A !! k = Some m -> id m = k) ->
  shape (renderRow M A sas c mp)
    = shape c ++ (if creates M A mp then [(nextRef c, Some (marcher_id mp))] else [])
  /\ nextRef (renderRow M A sas c mp)
    = if creates M A mp then S (nextRef c) else nextRef c.
Proof.
  intros HA. unfold renderRow, creates.
  destruct (M !! marcher_id mp) as [r|] eqn:HM.
  - rewrite bool_decide_eq_false_2 by (intros [? _]; done).
    rewrite shape_setMarcherCoords, app_nil_r. done.
  - destruct (A !! marcher_id mp) as [m|] eqn:HAm.
    + rewrite bool_decide_eq_true_2 by eauto.
      unfold shape, add_new; simpl. rewrite fmap_app; simpl.
      by rewrite (HA _ _ HAm).
    + rewrite bool_decide_eq_false_2 by (intros [_ [? ?]]; done).
      unfold shape, console_error; simpl. by rewrite app_nil_r.
Qed.

Lemma renderRows_shape M A sas rows c :
  (forall k m, A !! k = Some m -> id m = k) ->
  let c1 := foldl (renderRow M A sas) c rows in
  shape c1 = shape c ++ newShape (nextRef c) (filter (fun mp => creates M A mp) rows)
  /\ nextRef c1 = (nextRef c + length (filter (fun mp => creates M A mp) rows))%nat.
Proof.
  intros HA. revert c.
  induction rows as [|mp rows IH]; intros c; simpl.
  - rewrite app_nil_r. split; [done | lia].
  - destruct (IH (renderRow M A sas c mp)) as [IH1 IH2].
    destruct (renderRow_shape M A sas c mp HA) as [H1 H2].
    rewrite IH1, IH2, H1, H2.
    destruct (creates M A mp) eqn:Hc.
    + rewrite filter_cons_True by (by rewrite Hc). simpl.
      rewrite <- app_assoc. simpl. split; [done | lia].
    + rewrite filter_cons_False by (rewrite Hc; simpl; tauto). rewrite app_nil_r. done.
Qed.

Lemma newShape_fst r rows : (newShape r rows).*1 = seq r (length rows).
Proof. revert r. induction rows as [|mp rows IH]; intros r; simpl; [done|]. by rewrite IH. Qed.

Lemma newShape_ids r rows : omap snd (newShape r rows) = marcher_id <$> rows.
Proof. revert r. induction rows as [|mp rows IH]; intros r; simpl; [done|]. by rewrite IH. Qed.

Lemma elem_of_newShape r rows r' k :
  (r', k) ∈ newShape r rows ->
  (r <= r')%nat /\ exists mp, mp ∈ rows /\ k = Some (marcher_id mp).
Proof.
  revert r. induction rows as [|mp rows IH]; intros r; simpl.
  - by intros ?%elem_of_nil.
  - intros [Heq | Hin]%elem_of_cons.
    + inversion Heq; subst. split; [lia|]. exists mp. split; [left | done].
    + destruct (IH _ Hin) as (Hle & mp' & Hmp' & ->).
      split; [lia|]. exists mp'. split; [by right | done].
Qed.

Lemma newShape_complete r rows mp :
  mp ∈ rows -> exists r', (r', Some (marcher_id mp)) ∈ newShape r rows.
Proof.
  revert r. induction rows as [|mp' rows IH]; intros r; simpl.
  - by intros ?%elem_of_nil.
  - intros [-> | Hin]%elem_of_cons.
    + exists r. by left.
    + destruct (IH (S r) Hin) as [r' Hr']. exists r'. by right.
Qed.

(** *** The removal pass *)

Lemma remove_ref_notin {A} r (l : list (ObjRef * A)) :
  r ∉ l.*1 -> remove_ref r l = l.
Proof.
  induction l as [|[r' a] l IH]; csimpl; intros Hnotin; [done|].
  apply not_elem_of_cons in Hnotin as [Hne Hnotin].
  rewrite decide_False by done. f_equal. by apply IH.
Qed.

Lemma remove_ref_filter {A} r (l : list (ObjRef * A)) :
  NoDup l.*1 -> remove_ref r l = filter (fun ro => ro.1 ≠ r) l.
Proof.
  induction l as [|[r' a] l IH]; csimpl; intros Hnd; [done|].
  apply NoDup_cons in Hnd as [Hnotin Hnd].
  destruct (decide (r' = r)) as [->|Hne].
  - rewrite filter_cons_False by (simpl; tauto).
    rewrite <- IH by done. by rewrite remove_ref_notin.
  - rewrite filter_cons_True by done. f_equal. by apply IH.
Qed.

Lemma shape_remove r c : shape (remove r c) = remove_ref r (shape c).
Proof.
  unfold shape, remove; simpl.
  induction (objects c) as [|[r' o] l IH]; csimpl; [done|].
  destruct (decide (r' = r)); csimpl; [done|]. by f_equal.
Qed.

Lemma staleRefs_cons keep k r entries :
  staleRefs keep ((k, r) :: entries)
  = if decide (k ∈ keep) then staleRefs keep entries else r :: staleRefs keep entries.
Proof.
  unfold staleRefs. rewrite filter_cons. simpl.
  destruct (decide (k ∈ keep)).
  - by rewrite decide_False by tauto.
  - by rewrite decide_True by done.
Qed.

Lemma removeStale_shape keep entries c :
  NoDup (shape c).*1 ->
  let c2 := foldl (removeStale keep) c entries in
  shape c2 = filter (fun ro => ro.1 ∉ staleRefs keep entries) (shape c)
  /\ nextRef c2 = nextRef c.
Proof.
  revert c. induction entries as [|[k r] entries IH]; intros c Hnd; simpl.
  - split; [|done]. rewrite filter_all; [done|].
    intros ro. apply not_elem_of_nil.
  - rewrite staleRefs_cons. unfold removeStale at 2 4; simpl.
    destruct (decide (k ∈ keep)); [by apply IH|].
    destruct (IH (remove r c)) as [IH1 IH2].
    { rewrite shape_remove, remove_ref_filter by done. by apply NoDup_fst_filter. }
    rewrite IH1, IH2, shape_remove, remove_ref_filter by done.
    split; [|done].
    rewrite list_filter_filter. apply list_filter_iff.
    intros [r' o]; simpl. rewrite not_elem_of_cons. tauto.
Qed.

(** *** The two maps built on entry *)

Lemma entries_fst c :
  (omap (fun rk : ObjRef * option Z => (fun k => (k, rk.1)) <$> rk.2) (shape c)).*1
  = omap snd (shape c).
Proof.
  induction (shape c) as [|[r [k|]] l IH]; csimpl; [done| |done].
  by f_equal.
Qed.

Lemma elem_of_entries c k r :
  (k, r) ∈ omap (fun rk : ObjRef * option Z => (fun k => (k, rk.1)) <$> rk.2) (shape c)
  <-> (r, Some k) ∈ shape c.
Proof.
  rewrite list_elem_of_omap. split.
  - intros ([r' [k'|]] & Hin & Heq); simpl in Heq; [|done].
    by inversion Heq; subst.
  - intros Hin. by exists (r, Some k).
Qed.

(** The invariant of reachable canvases: references are unique and below
    [nextRef], and no two drawables stand for the same marcher. *)
Definition Inv (c : Canvas) : Prop :=
  NoDup (shape c).*1 /\
  Forall (fun r => (r < nextRef c)%nat) (shape c).*1 /\
  NoDup (omap snd (shape c)).

Definition canvasMarchersMap (c : Canvas) : gmap Z ObjRef :=
  new_Map ((fun rm => (id (marcherObj rm.2), rm.1)) <$> getCanvasMarchers c).

Definition allMarchersMap (allMarchers : list Marcher) : gmap Z Marcher :=
  new_Map ((fun m => (id m, m)) <$> allMarchers).

Lemma canvasMarchersMap_lookup c k r :
  Inv c -> canvasMarchersMap c !! k = Some r <-> (r, Some k) ∈ shape c.
Proof.
  intros (_ & _ & Hids). unfold canvasMarchersMap.
  rewrite getCanvasMarchers_entries, <- elem_of_entries. split.
  - apply new_Map_lookup_Some.
  - apply new_Map_lookup_NoDup. by rewrite entries_fst.
Qed.

Lemma canvasMarchersMap_None c k :
  canvasMarchersMap c !! k = None <-> k ∉ canvasMarcherIds c.
Proof.
  unfold canvasMarchersMap. rewrite new_Map_lookup_None.
  rewrite canvasMarcherIds_shape, elem_of_list_to_set.
  by rewrite getCanvasMarchers_entries, entries_fst.
Qed.

Lemma canvasMarchersMap_size c :
  size (canvasMarchersMap c) = size (canvasMarcherIds c).
Proof.
  rewrite <- (size_dom (D := gset Z)). f_equal.
  unfold canvasMarchersMap. rewrite dom_new_Map.
  rewrite canvasMarcherIds_shape.
  by rewrite getCanvasMarchers_entries, entries_fst.
Qed.

Lemma allMarchersMap_id allMarchers k m :
  allMarchersMap allMarchers !! k = Some m -> id m = k.
Proof.
  intros H%new_Map_lookup_Some.
  apply list_elem_of_fmap in H as (m' & Heq & _). by inversion Heq.
Qed.

Lemma allMarchersMap_is_Some allMarchers k :
  is_Some (allMarchersMap allMarchers !! k) <-> k ∈ rosterIds allMarchers.
Proof.
  rewrite <- not_eq_None_Some. unfold allMarchersMap, rosterIds.
  rewrite new_Map_lookup_None, elem_of_list_to_set.
  rewrite <- list_fmap_compose.
  split; [apply dec_stable | auto].
Qed.

Lemma creates_spec c allMarchers mp :
  creates (canvasMarchersMap c) (allMarchersMap allMarchers) mp
  <-> (marcher_id mp ∉ canvasMarcherIds c) /\ (marcher_id mp ∈ rosterIds allMarchers).
Proof.
  unfold creates. rewrite bool_decide_spec.
  by rewrite canvasMarchersMap_None, allMarchersMap_is_Some.
Qed.

(** *** The whole call, on shapes *)

(** The rows for which a call on canvas [c] constructs a drawable. *)
Definition createdRows (rows : list MarcherPage) (allMarchers : list Marcher)
    (c : Canvas) : list MarcherPage :=
  filter (fun mp => creates (canvasMarchersMap c) (allMarchersMap allMarchers) mp) rows.

(** Whether the removal pass runs. *)
Definition removalRuns (rows : list MarcherPage) (c : Canvas) : Prop :=
  size (rowIds rows) ≠ size (canvasMarcherIds c).

Lemma renderMarchers_shape rows allMarchers sas c :
  Inv c ->
  let c' := renderMarchers rows allMarchers sas c in
  let grown := shape c ++ newShape (nextRef c) (createdRows rows allMarchers c) in
  shape c' =
    (if decide (removalRuns rows c)
     then filter (fun ro => ro.1 ∉ staleRefs (rowIds rows) (map_to_list (canvasMarchersMap c)))
                 grown
     else grown)
  /\ nextRef c' = (nextRef c + length (createdRows rows allMarchers c))%nat.
Proof.
  intros (Hrefs & Hlt & Hids) c' grown. subst c' grown.
  unfold renderMarchers. cbv zeta.
  fold (canvasMarchersMap c). fold (allMarchersMap allMarchers). fold (rowIds rows).
  destruct (renderRows_shape (canvasMarchersMap c) (allMarchersMap allMarchers)
              sas rows c (allMarchersMap_id allMarchers)) as [H1 H2].
  fold (createdRows rows allMarchers c) in H1, H2.
  unfold removalRuns. rewrite <- canvasMarchersMap_size.
  change (shape (requestRenderAll ?c)) with (shape c).
  change (nextRef (requestRenderAll ?c)) with (nextRef c).
  destruct (decide (size (rowIds rows) ≠ size (canvasMarchersMap c))); [|done].
  match goal with |- context [foldl (removeStale ?ks) ?c1 ?es] =>
    destruct (removeStale_shape ks es c1) as [H3 H4] end.
  { rewrite H1, fmap_app, newShape_fst. apply NoDup_app. split; [done|].
    split; [|apply NoDup_seq].
    intros r Hr Hr'. apply elem_of_seq in Hr'.
    rewrite Forall_forall in Hlt. specialize (Hlt r Hr). lia. }
  by rewrite H3, H4, H1, H2.
Qed.

(** Which drawables the removal pass spares. *)
Lemma stale_old c keep r k :
  Inv c -> (r, Some k) ∈ shape c ->
  r ∉ staleRefs keep (map_to_list (canvasMarchersMap c)) <-> k ∈ keep.
Proof.
  intros HI Hin. unfold staleRefs.
  rewrite list_elem_of_fmap. split.
  - intros Hnot. destruct (decide (k ∈ keep)) as [|Hk]; [done|].
    exfalso. apply Hnot. exists (k, r). split; [done|].
    apply list_elem_of_filter. split; [done|].
    apply elem_of_map_to_list. by apply canvasMarchersMap_lookup.
  - intros Hk ([k' r'] & Heq & Hin'). simpl in Heq. subst r'.
    apply list_elem_of_filter in Hin' as [Hk' Hin']. simpl in Hk'.
    apply elem_of_map_to_list, canvasMarchersMap_lookup in Hin'; [|done].
    destruct HI as (Hrefs & _ & _).
    assert (Some k' = Some k) as Heq; [|by inversion Heq; subst].
    exact (NoDup_fst_unique _ _ _ _ Hrefs Hin' Hin).
Qed.

Lemma elem_of_staleRefs c keep r :
  Inv c -> r ∈ staleRefs keep (map_to_list (canvasMarchersMap c)) ->
  exists k, (k ∉ keep) /\ ((r, Some k) ∈ shape c).
Proof.
  intros HI. unfold staleRefs. rewrite list_elem_of_fmap.
  intros ([k r'] & Heq & Hin). simpl in Heq. subst r'.
  apply list_elem_of_filter in Hin as [Hk Hin]. simpl in Hk.
  apply elem_of_map_to_list, canvasMarchersMap_lookup in Hin; [|done].
  eauto.
Qed.

Lemma stale_new c keep r :
  Inv c -> (nextRef c <= r)%nat ->
  r ∉ staleRefs keep (map_to_list (canvasMarchersMap c)).
Proof.
  intros HI Hle Hin.
  destruct (elem_of_staleRefs c keep r HI Hin) as (k & _ & Hk).
  destruct HI as (_ & Hlt & _). rewrite Forall_forall in Hlt.
  assert (r < nextRef c)%nat; [|lia].
  apply Hlt, list_elem_of_fmap. by exists (r, Some k).
Qed.

Lemma elem_of_createdRows rows allMarchers c mp :
  mp ∈ createdRows rows allMarchers c
  <-> (mp ∈ rows) /\ (marcher_id mp ∉ canvasMarcherIds c)
      /\ (marcher_id mp ∈ rosterIds allMarchers).
Proof.
  unfold createdRows. rewrite list_elem_of_filter, creates_spec. tauto.
Qed.

Lemma elem_of_rowIds rows k :
  k ∈ rowIds rows <-> exists mp, mp ∈ rows /\ marcher_id mp = k.
Proof.
  unfold rowIds. rewrite elem_of_list_to_set, list_elem_of_fmap.
  split; [intros (mp & -> & ?) | intros (mp & ? & <-)]; eauto.
Qed.

(** The identities drawn after a call, for a canvas satisfying the
    invariant: those drawn before (restricted to the rows' identities when
    the removal pass runs), and the rows' identities that were not drawn
    and are on the roster. *)
Lemma renderMarchers_ids rows allMarchers sas c k :
  Inv c ->
  k ∈ canvasMarcherIds (renderMarchers rows allMarchers sas c)
  <-> ((k ∈ canvasMarcherIds c) /\ (removalRuns rows c -> k ∈ rowIds rows))
      \/ ((k ∈ rowIds rows) /\ (k ∉ canvasMarcherIds c) /\ (k ∈ rosterIds allMarchers)).
Proof.
  intros HI.
  destruct (renderMarchers_shape rows allMarchers sas c HI) as [Hsh _].
  rewrite elem_of_canvasMarcherIds, Hsh.
  assert (forall r, (r, Some k) ∈ newShape (nextRef c) (createdRows rows allMarchers c) ->
            (nextRef c <= r)%nat /\ (k ∈ rowIds rows) /\ (k ∉ canvasMarcherIds c)
            /\ (k ∈ rosterIds allMarchers)) as Hnew.
  { intros r (Hle & mp & Hmp & Heq)%elem_of_newShape.
    inversion Heq; subst.
    apply elem_of_createdRows in Hmp as (? & ? & ?).
    split; [done|]. split; [|done]. apply elem_of_rowIds. eauto. }
  assert (k ∈ rowIds rows -> k ∉ canvasMarcherIds c -> k ∈ rosterIds allMarchers ->
          exists r, (r, Some k) ∈ newShape (nextRef c) (createdRows rows allMarchers c))
    as Hnew'.
  { intros (mp & Hmp & <-)%elem_of_rowIds ? ?.
    apply newShape_complete, elem_of_createdRows. done. }
  destruct (decide (removalRuns rows c)) as [Hrun|Hrun].
  - split.
    + intros (r & [Hst [Hin|Hin]%elem_of_app]%list_elem_of_filter); simpl in Hst.
      * left. split; [apply elem_of_canvasMarcherIds; eauto|].
        intros _. by eapply stale_old.
      * right. by apply Hnew in Hin as (_ & ? & ? & ?).
    + intros [[(r & Hin)%elem_of_canvasMarcherIds Hk] | (Hk & Hnot & Hros)].
      * exists r. apply list_elem_of_filter. split.
        -- simpl. eapply stale_old; eauto.
        -- apply elem_of_app. by left.
      * destruct (Hnew' Hk Hnot Hros) as [r Hr]. exists r.
        apply list_elem_of_filter. split.
        -- simpl. apply stale_new; [done|]. by apply Hnew in Hr as (? & _).
        -- apply elem_of_app. by right.
  - split.
    + intros (r & [Hin|Hin]%elem_of_app).
      * left. split; [apply elem_of_canvasMarcherIds; eauto | done].
      * right. by apply Hnew in Hin as (_ & ? & ? & ?).
    + intros [[(r & Hin)%elem_of_canvasMarcherIds _] | (Hk & Hnot & Hros)].
      * exists r. apply elem_of_app. by left.
      * destruct (Hnew' Hk Hnot Hros) as [r Hr]. exists r.
        apply elem_of_app. by right.
Qed.

(** *** The invariant holds on every reachable canvas *)

Lemma Inv_start c : canvas_wf c -> getCanvasMarchers c = [] -> Inv c.
Proof.
  intros [Hnd Hlt] Hno. unfold Inv. rewrite shape_fst.
  split; [done|]. split; [done|].
  rewrite <- getCanvasMarchers_ids, Hno. constructor.
Qed.

Lemma Inv_renderMarchers rows allMarchers sas c :
  Inv c -> distinctMarchers rows -> Inv (renderMarchers rows allMarchers sas c).
Proof.
  intros HI Hrows.
  destruct (renderMarchers_shape rows allMarchers sas c HI) as [Hsh Hnext].
  destruct HI as (Hrefs & Hlt & Hids).
  set (grown := shape c ++ newShape (nextRef c) (createdRows rows allMarchers c)) in *.
  assert (NoDup grown.*1) as G1.
  { subst grown. rewrite fmap_app, newShape_fst. apply NoDup_app. split; [done|].
    split; [|apply NoDup_seq].
    intros r Hr Hr'%elem_of_seq.
    rewrite Forall_forall in Hlt. specialize (Hlt r Hr). lia. }
  assert (Forall (fun r => (r < nextRef (renderMarchers rows allMarchers sas c))%nat)
            grown.*1) as G2.
  { rewrite Hnext. subst grown. rewrite fmap_app, newShape_fst. apply Forall_app. split.
    - eapply Forall_impl; [exact Hlt|]. simpl. intros; lia.
    - apply Forall_forall. intros r Hr%elem_of_seq. lia. }
  assert (NoDup (omap snd grown)) as G3.
  { subst grown. rewrite omap_app, newShape_ids. apply NoDup_app. split; [done|]. split.
    - intros k Hk (mp & -> & Hmp)%list_elem_of_fmap.
      apply elem_of_createdRows in Hmp as (_ & Hnot & _).
      apply Hnot. rewrite canvasMarcherIds_shape. by apply elem_of_list_to_set.
    - eapply sublist_NoDup; [exact Hrows|].
      apply fmap_sublist, sublist_filter. }
  unfold Inv. rewrite Hsh. destruct (decide (removalRuns rows c)); [|done].
  split; [by apply NoDup_fst_filter|]. split.
  - rewrite Forall_forall in G2. apply Forall_forall.
    intros r0 ([r' o] & -> & [_ Hin]%list_elem_of_filter)%list_elem_of_fmap.
    apply G2, list_elem_of_fmap. by exists (r', o).
  - eapply sublist_NoDup; [exact G3|]. apply omap_filter_sublist.
Qed.

Lemma reachable_Inv c : reachable c -> Inv c.
Proof.
  induction 1 as [c Hwf Hno | c rows allMarchers sas _ IH Hrows].
  - by apply Inv_start.
  - by apply Inv_renderMarchers.
Qed.

(** *** A repeated call, when the first one left nothing stale *)

(** Every drawable of a marcher named by a row is drawn at that row. *)
Definition synced (rows : list MarcherPage) (c : Canvas) : Prop :=
  forall r m mp,
    (r, ACanvasMarcher m) ∈ objects c -> mp ∈ rows ->
    id (marcherObj m) = marcher_id mp -> marcherPage m = mp.

Lemma elem_of_shape c r k :
  (r, Some k) ∈ shape c
  <-> exists m, (r, ACanvasMarcher m) ∈ objects c /\ id (marcherObj m) = k.
Proof.
  unfold shape. rewrite list_elem_of_fmap. split.
  - intros ([r' [m|s]] & Heq & Hin); simpl in Heq; inversion Heq; subst. eauto.
  - intros (m & Hin & <-). by exists (r, ACanvasMarcher m).
Qed.

Lemma NoDup_ids_unique (l : list (ObjRef * option Z)) r1 r2 k :
  NoDup l.*1 -> NoDup (omap snd l) ->
  (r1, Some k) ∈ l -> (r2, Some k) ∈ l -> r1 = r2.
Proof.
  induction l as [|[r o] l IH]; csimpl; intros Hrefs Hids H1 H2.
  - by apply elem_of_nil in H1.
  - apply NoDup_cons in Hrefs as [Hr Hrefs].
    assert (forall r', (r', Some k) ∈ l -> k ∈ omap snd l) as Hin.
    { intros r' Hr'. apply list_elem_of_omap. by exists (r', Some k). }
    apply elem_of_cons in H1 as [H1|H1]; apply elem_of_cons in H2 as [H2|H2].
    + congruence.
    + inversion H1; subst. simpl in Hids.
      apply NoDup_cons in Hids as [Hk _]. exfalso. eauto.
    + inversion H2; subst. simpl in Hids.
      apply NoDup_cons in Hids as [Hk _]. exfalso. eauto.
    + apply IH; try done. destruct o; simpl in Hids; [|done].
      by apply NoDup_cons in Hids as [_ ?].
Qed.

Lemma elem_of_setMarcherCoords r mp c r' m' :
  (r', ACanvasMarcher m') ∈ objects (setMarcherCoords r mp c) ->
  exists m, (r', ACanvasMarcher m) ∈ objects c /\
            marcherObj m' = marcherObj m /\
            (r' = r -> marcherPage m' = mp) /\
            (r' ≠ r -> m' = m).
Proof.
  unfold setMarcherCoords; simpl. rewrite list_elem_of_fmap.
  intros ([r0 [m|s]] & Heq & Hin); simpl in Heq.
  - destruct (decide (r0 = r)) as [->|Hne]; inversion Heq; subst;
      exists m; simpl; repeat split; try done.
  - inversion Heq.
Qed.

(** The canvas in the middle of the loop, on shapes. *)
Lemma grown_NoDup c rows allMarchers :
  Inv c -> distinctMarchers rows ->
  let grown := shape c ++ newShape (nextRef c) (createdRows rows allMarchers c) in
  NoDup grown.*1 /\ NoDup (omap snd grown).
Proof.
  intros (Hrefs & Hlt & Hids) Hrows grown. subst grown. split.
  - rewrite fmap_app, newShape_fst. apply NoDup_app. split; [done|].
    split; [|apply NoDup_seq].
    intros r Hr Hr'%elem_of_seq.
    rewrite Forall_forall in Hlt. specialize (Hlt r Hr). lia.
  - rewrite omap_app, newShape_ids. apply NoDup_app. split; [done|]. split.
    + intros k Hk (mp & -> & Hmp)%list_elem_of_fmap.
      apply elem_of_createdRows in Hmp as (_ & Hnot & _).
      apply Hnot. rewrite canvasMarcherIds_shape. by apply elem_of_list_to_set.
    + eapply sublist_NoDup; [exact Hrows|].
      apply fmap_sublist, sublist_filter.
Qed.

Lemma distinctMarchers_snoc done mp :
  distinctMarchers (done ++ [mp]) ->
  distinctMarchers done /\
  forall mp', mp' ∈ done ++ [mp] -> marcher_id mp' = marcher_id mp -> mp' = mp.
Proof.
  unfold distinctMarchers. intros Hnd. split.
  - rewrite fmap_app in Hnd. by apply NoDup_app in Hnd as [? _].
  - intros mp' Hin Heq.
    apply (NoDup_fmap_eq marcher_id (done ++ [mp])); try done.
    apply elem_of_app. right. by apply list_elem_of_singleton.
Qed.

Lemma renderRows_synced rows allMarchers sas c :
  Inv c -> distinctMarchers rows ->
  synced rows
    (foldl (renderRow (canvasMarchersMap c) (allMarchersMap allMarchers) sas) c rows).
Proof.
  intros HI. induction rows as [|mp done IH] using rev_ind; intros Hrows.
  - intros r m mp _ Hin. by apply elem_of_nil in Hin.
  - destruct (distinctMarchers_snoc _ _ Hrows) as [Hdone Huniq].
    specialize (IH Hdone). rewrite foldl_app. simpl.
    destruct (renderRows_shape (canvasMarchersMap c) (allMarchersMap allMarchers)
                sas done c (allMarchersMap_id allMarchers)) as [Hsh _].
    fold (createdRows done allMarchers c) in Hsh.
    destruct (grown_NoDup c done allMarchers HI Hdone) as [Hrefs Hids].
    rewrite <- Hsh in Hrefs, Hids.
    set (M := canvasMarchersMap c) in *. set (A := allMarchersMap allMarchers) in *.
    set (ck := foldl (renderRow M A sas) c done) in *.
    (* no drawable of an identity neither drawn at first nor met so far *)
    assert (M !! marcher_id mp = None ->
            forall r, (r, Some (marcher_id mp)) ∉ shape ck) as Habsent.
    { intros HM r Hin. rewrite Hsh in Hin. apply elem_of_app in Hin as [Hin|Hin].
      - apply canvasMarchersMap_None in HM. apply HM.
        apply elem_of_canvasMarcherIds. eauto.
      - apply elem_of_newShape in Hin as (_ & mp' & Hmp' & Heq).
        inversion Heq as [Heq'].
        apply elem_of_createdRows in Hmp' as (Hmp' & _ & _).
        assert (mp' = mp) as ->
          by (apply Huniq; [apply elem_of_app; by left | done]).
        unfold distinctMarchers in Hrows. rewrite fmap_app in Hrows.
        apply NoDup_app in Hrows as (_ & Hdisj & _).
        apply (Hdisj (marcher_id mp)); [by apply list_elem_of_fmap_2 | by left]. }
    assert (forall r m mp', (r, ACanvasMarcher m) ∈ objects ck ->
              mp' ∈ done ++ [mp] -> id (marcherObj m) = marcher_id mp' ->
              M !! marcher_id mp = None -> marcherPage m = mp') as Hkeep.
    { intros r m mp' Hin [Hmp'|Hmp']%elem_of_app Hid HM; [by eapply IH|].
      apply list_elem_of_singleton in Hmp' as ->. exfalso.
      apply (Habsent HM r), elem_of_shape. eauto. }
    unfold renderRow.
    destruct (M !! marcher_id mp) as [r0|] eqn:HM.
    + (* the drawable is there: it is moved to the row *)
      assert ((r0, Some (marcher_id mp)) ∈ shape ck) as Hr0.
      { rewrite Hsh. apply elem_of_app. left. by apply canvasMarchersMap_lookup. }
      intros r m' mp' Hin Hmp' Hid.
      apply elem_of_setMarcherCoords in Hin as (m & Hin & Hobj & Hsame & Hother).
      rewrite Hobj in Hid.
      assert ((r, Some (marcher_id mp')) ∈ shape ck) as Hr
        by (apply elem_of_shape; eauto).
      destruct (decide (r = r0)) as [->|Hne].
      * rewrite (Hsame eq_refl). symmetry. apply Huniq; [done|].
        pose proof (NoDup_fst_unique _ _ _ _ Hrefs Hr Hr0) as Heq. congruence.
      * rewrite (Hother Hne).
        apply elem_of_app in Hmp' as [Hmp'|Hmp']; [by eapply IH|].
        apply list_elem_of_singleton in Hmp' as ->. exfalso. apply Hne.
        exact (NoDup_ids_unique _ _ _ _ Hrefs Hids Hr Hr0).
    + destruct (A !! marcher_id mp) as [cur|] eqn:HA.
      * (* a drawable is made for the row *)
        intros r m mp' Hin Hmp' Hid. simpl in Hin.
        apply elem_of_app in Hin as [Hin|Hin]; [by eapply Hkeep|].
        apply list_elem_of_singleton in Hin. inversion Hin; subst. simpl in *.
        symmetry. apply Huniq; [done|].
        rewrite <- Hid. by apply (allMarchersMap_id allMarchers).
      * (* the row is skipped *)
        intros r m mp' Hin Hmp' Hid. simpl in Hin. by eapply Hkeep.
Qed.

Lemma elem_of_remove_ref {A} r (l : list (ObjRef * A)) ro :
  ro ∈ remove_ref r l -> ro ∈ l.
Proof.
  induction l as [|ro' l IH]; simpl; [done|].
  destruct (decide (ro'.1 = r)).
  - intros Hin. by right.
  - intros [->|Hin]%elem_of_cons; [by left | right; by apply IH].
Qed.

Lemma elem_of_removeStale keep entries c ro :
  ro ∈ objects (foldl (removeStale keep) c entries) -> ro ∈ objects c.
Proof.
  revert c. induction entries as [|[k r] entries IH]; intros c; simpl; [done|].
  intros Hin%IH. unfold removeStale in Hin. simpl in Hin.
  destruct (decide (k ∈ keep)); [done|]. exact (elem_of_remove_ref _ _ _ Hin).
Qed.

Lemma removeStale_nothing keep entries c :
  (forall e, e ∈ entries -> e.1 ∈ keep) ->
  foldl (removeStale keep) c entries = c.
Proof.
  revert c. induction entries as [|e entries IH]; intros c Hall; simpl; [done|].
  unfold removeStale at 2. rewrite decide_True by (apply Hall; by left).
  apply IH. intros e' He'. apply Hall. by right.
Qed.

(** After a call every drawable named by a row is drawn at that row. *)
Lemma renderMarchers_synced rows allMarchers sas c :
  Inv c -> distinctMarchers rows ->
  synced rows (renderMarchers rows allMarchers sas c).
Proof.
  intros HI Hrows r m mp Hin. unfold renderMarchers in Hin. cbv zeta in Hin.
  change (objects (requestRenderAll ?c)) with (objects c) in Hin.
  apply (renderRows_synced rows allMarchers sas c HI Hrows r m mp).
  destruct (decide _) in Hin; [|done]. by eapply elem_of_removeStale.
Qed.

(** A call on a canvas that already shows the rows changes no object. *)
Lemma renderMarchers_settled rows allMarchers sas c :
  Inv c -> synced rows c ->
  canvasMarcherIds c ⊆ rowIds rows ->
  rowIds rows ∩ rosterIds allMarchers ⊆ canvasMarcherIds c ->
  objects (renderMarchers rows allMarchers sas c) = objects c.
Proof.
  intros HI Hs Hsub Hall. unfold renderMarchers. cbv zeta.
  fold (canvasMarchersMap c). fold (allMarchersMap allMarchers). fold (rowIds rows).
  change (objects (requestRenderAll ?c)) with (objects c).
  assert (forall rows' c',
            (forall mp, mp ∈ rows' -> mp ∈ rows) -> objects c' = objects c ->
            objects (foldl (renderRow (canvasMarchersMap c)
                              (allMarchersMap allMarchers) sas) c' rows')
            = objects c) as Hloop.
  { induction rows' as [|mp rows' IH]; intros c' Hin Hc'; simpl; [done|].
    apply IH; [intros; apply Hin; by right|].
    assert (mp ∈ rows) as Hmp by (apply Hin; by left).
    unfold renderRow.
    destruct (canvasMarchersMap c !! marcher_id mp) as [r0|] eqn:HM.
    - apply canvasMarchersMap_lookup in HM; [|done].
      unfold setMarcherCoords; simpl. rewrite Hc'.
      rewrite <- (list_fmap_id (objects c)) at 2.
      apply list_fmap_ext. intros i [r [m|s]] Hi; simpl; [|done].
      destruct (decide (r = r0)) as [->|]; [|done].
      apply list_elem_of_lookup_2 in Hi.
      assert ((r0, Some (id (marcherObj m))) ∈ shape c) as Hr
        by (apply elem_of_shape; eauto).
      destruct HI as (Hrefs & _ & _).
      pose proof (NoDup_fst_unique _ _ _ _ Hrefs Hr HM) as Heq.
      inversion Heq as [Hid].
      rewrite <- (Hs r0 m mp Hi Hmp Hid). by destruct m.
    - apply canvasMarchersMap_None in HM.
      destruct (allMarchersMap allMarchers !! marcher_id mp) as [cur|] eqn:HA.
      + exfalso. apply HM, Hall, elem_of_intersection. split.
        * apply elem_of_rowIds. eauto.
        * apply allMarchersMap_is_Some. eauto.
      + done. }
  rewrite removeStale_nothing.
  - destruct (decide _); by apply Hloop.
  - intros [k r] Hin%elem_of_map_to_list. simpl.
    apply Hsub, elem_of_canvasMarcherIds. exists r.
    by apply canvasMarchersMap_lookup.
Qed.

Lemma sameCoords_refl a : sameCoords a a = true.
Proof.
  destruct a as [[x1 y1]|]; simpl; [|done].
  by rewrite !(proj2 (Qeq_bool_iff _ _) (Qeq_refl _)).
Qed.

(** Where the first call leaves no stale drawable (its removal pass runs,
    or nothing drawn before is missing from the rows), the same call made
    again changes no object on the canvas: it creates, moves and removes
    nothing. *)
Lemma renderMarchers_repeat rows allMarchers sas c :
  reachable c -> distinctMarchers rows ->
  removalRuns rows c \/ canvasMarcherIds c ⊆ rowIds rows ->
  let once := renderMarchers rows allMarchers sas c in
  let twice := renderMarchers rows allMarchers sas once in
  objects twice = objects once /\
  created once twice = [] /\ moved once twice = [] /\ removed once twice = [].
Proof.
  intros Hreach Hrows Hcase once twice.
  pose proof (reachable_Inv c Hreach) as HI.
  assert (objects twice = objects once) as Hobj.
  { apply renderMarchers_settled.
    - by apply Inv_renderMarchers.
    - by apply renderMarchers_synced.
    - intros k [[Hk Hrun] | (Hk & _)]%renderMarchers_ids; [|done|done].
      destruct Hcase as [Hr|Hsub]; [by apply Hrun | by apply Hsub].
    - intros k [Hk Hros]%elem_of_intersection.
      apply renderMarchers_ids; [done|].
      destruct (decide (k ∈ canvasMarcherIds c)); [left | right]; done. }
  split; [done|].
  assert (getCanvasMarchers twice = getCanvasMarchers once) as Hcm
    by (unfold getCanvasMarchers; by rewrite Hobj).
  unfold created, moved, removed, refsOf, coordsOf. rewrite Hcm.
  repeat split; apply filter_nothing; intros r Hr.
  - by intros ?.
  - rewrite sameCoords_refl. by intros [_ ?].
  - by intros ?.
Qed.

End SceneFacts.

(** ** Reconciliation claims *)

Module SceneClaims.
Import Scene SceneFacts.
Local Open Scope Z_scope.


(** A roster of three marchers and the position row of marcher [k]. *)
Definition exampleRoster : list Marcher :=
  [mkMarcher 1 "Trumpet"; mkMarcher 2 "Trumpet"; mkMarcher 3 "Tuba"].

Definition exampleRow (k : Z) : MarcherPage :=
  mkMarcherPage (100 + k) k 1 (inject_Z k) 0.

(** The canvas after a first render of marchers 1 and 2. *)
Definition afterFirstPage : Canvas :=
  renderMarchers [exampleRow 1; exampleRow 2] exampleRoster [] emptyCanvas.






(** C3 at a failing input.  With marchers 1 and 2 drawn, rendering the rows
    of marchers 2 and 3 finds as many row identities as drawables, skips
    the removal pass and leaves marcher 1 on the canvas; the same call
    made again finds three drawables for two identities and removes the
    drawable of marcher 1: the second, identical call performs a removal
    (and ends with another set of drawables than the first). *)
Theorem renderMarchers_second_call_removes :
  let rows := [exampleRow 2; exampleRow 3] in
  let once := renderMarchers rows exampleRoster [] afterFirstPage in
  let twice := renderMarchers rows exampleRoster [] once in
  canvasMarcherIds once = {[1; 2; 3]} /\
  canvasMarcherIds twice = {[2; 3]} /\
  created once twice = [] /\
  moved once twice = [] /\
  removed once twice = [0%nat].
Proof. repeat split; by vm_compute. Qed.

End SceneClaims.

(** ** Properties of the MarcherPage table functions *)

Module MarcherPageTableFacts.
Import ListFacts MarcherPageTable.
Local Open Scope Z_scope.

(** [isLocked] answers, and says whether a record exists. *)
Lemma isLocked_spec db row :
  isLocked db (marcher_id row) (page_id row) = Ok (bool_decide (locked db row)).
Proof.
  unfold isLocked, getSpmByMarcherPage; simpl. f_equal.
  apply bool_decide_ext. unfold locked. rewrite Exists_exists.
  destruct (find _ _) as [s|] eqn:Hfind.
  - apply find_Some_elem in Hfind as [Hin Hs%bool_decide_eq_true_1].
    split; [eauto | done].
  - split; [done|]. intros (s & Hin & Hs).
    pose proof (find_None_all _ _ Hfind s Hin) as Hf.
    apply bool_decide_eq_false_1 in Hf. done.
Qed.

(** The row [.get(...)] answers with, under the table's constraints. *)
Lemma find_target db update row :
  table_wf db -> row ∈ marcher_pages db -> targets update row ->
  find (fun mp => bool_decide (targets update mp)) (marcher_pages db) = Some row.
Proof.
  intros [_ Hkeys] Hin [Hm Hp].
  destruct (find _ _) as [row'|] eqn:Hfind.
  - apply find_Some_elem in Hfind as [Hin' [Hm' Hp']%bool_decide_eq_true_1].
    f_equal.
    apply (NoDup_fmap_eq _ _ _ _ Hkeys Hin' Hin). simpl. congruence.
  - pose proof (find_None_all _ _ Hfind row Hin) as Hf.
    apply bool_decide_eq_false_1 in Hf. exfalso. by apply Hf.
Qed.

(** The item the loop collects for an update, if any. *)
Definition itemFor (db : Database) (update : ModifiedMarcherPageArgs) :
    option NewModifiedMarcherPageArgs :=
  row ← find (fun mp => bool_decide (targets update mp)) (marcher_pages db);
  if decide (locked db row) then None else Some (mkNewModified (id row) update).

Definition hasTarget (db : Database) (update : ModifiedMarcherPageArgs) : Prop :=
  exists row, row ∈ marcher_pages db /\ targets update row.

Lemma collectUpdates_spec db acc updates :
  table_wf db -> Forall (hasTarget db) updates ->
  collectUpdates db false acc updates = Ok (acc ++ omap (itemFor db) updates).
Proof.
  intros Hwf Hall. revert acc.
  induction Hall as [|update updates (row & Hin & Htg) _ IH]; intros acc; simpl.
  - by rewrite app_nil_r.
  - unfold collectUpdate, itemFor.
    rewrite (find_target db update row Hwf Hin Htg). cbn [negb].
    destruct Htg as [Hm Hp]. rewrite <- Hm, <- Hp, isLocked_spec. simpl.
    destruct (decide (locked db row)) as [Hl|Hl].
    + rewrite bool_decide_eq_true_2 by done. simpl. apply IH.
    + rewrite bool_decide_eq_false_2 by done. simpl.
      rewrite IH, <- app_assoc. done.
Qed.

(** [updateItems] works row by row. *)
Lemma updateItems_rows (items : list NewModifiedMarcherPageArgs)
    (rows : list MarcherPage) :
  foldl (fun rows item => updateItem item <$> rows) rows items
  = (fun row => foldl (fun r item => updateItem item r) row items) <$> rows.
Proof.
  revert rows. induction items as [|item items IH]; intros rows; simpl.
  - by rewrite list_fmap_id.
  - rewrite IH, <- list_fmap_compose. done.
Qed.

(** What the collected items do to one row of the table: nothing when the
    row is locked, the batch otherwise.  [r] is the row as rewritten so
    far; it keeps the id, marcher and page of [row]. *)
Lemma apply_items_row db updates row r :
  table_wf db -> Forall (hasTarget db) updates ->
  row ∈ marcher_pages db ->
  id r = id row -> marcher_id r = marcher_id row -> page_id r = page_id row ->
  foldl (fun r item => updateItem item r) r (omap (itemFor db) updates)
  = if decide (locked db row) then r else applyBatch updates r.
Proof.
  intros Hwf Hall Hin. revert r.
  induction Hall as [|update updates (row' & Hin' & Htg') _ IH];
    intros r Hid Hm Hp; simpl.
  - by destruct (decide (locked db row)).
  - unfold itemFor at 1. rewrite (find_target db update row' Hwf Hin' Htg'). simpl.
    unfold applyBatch in *. simpl.
    destruct (decide (id row' = id row)) as [Hsame|Hidne].
    + (* the update names this row *)
      assert (row' = row) as ->
        by (destruct Hwf as [Hids _]; apply (NoDup_fmap_eq _ _ _ _ Hids Hin' Hin Hsame)).
      assert (targets update r) as Htr
        by (destruct Htg'; split; congruence).
      rewrite (decide_True _ _ Htr).
      destruct (decide (locked db row)) as [Hl|Hl]; simpl.
      * by rewrite IH.
      * assert (updateItem (mkNewModified (id row) update) r = moveTo update r) as ->.
        { unfold updateItem, moveTo; simpl. rewrite decide_True by done.
          destruct Htr as [<- <-]. done. }
        by rewrite IH.
    + (* the update names another row *)
      assert (~ targets update r) as Htr.
      { intros [Hm' Hp']. apply Hidne. destruct Htg' as [Hm'' Hp''].
        destruct Hwf as [_ Hkeys]. f_equal.
        apply (NoDup_fmap_eq _ _ _ _ Hkeys Hin' Hin). simpl. congruence. }
      rewrite (decide_False _ _ Htr).
      destruct (decide (locked db row')); simpl; [by apply IH|].
      assert (updateItem (mkNewModified (id row') update) r = r) as ->.
      { unfold updateItem; simpl. rewrite decide_False; [done | congruence]. }
      by apply IH.
Qed.

(** C5.  With [isChildAction] at its default [false], on a table that
    satisfies its constraints and for a batch whose updates each name an
    existing MarcherPage: the items [updateMarcherPages] hands on to be
    written are the updates whose MarcherPage is not locked (no
    ShapePageMarcher record for its marcher and page), each with the id of
    its row; the call succeeds, leaves every locked MarcherPage as it was,
    and applies to every unlocked MarcherPage the updates that target it,
    in order; nothing else changes. *)
Theorem updateMarcherPages_respects_locks
    (db : Database) (marcherPageUpdates : list ModifiedMarcherPageArgs) :
  table_wf db ->
  Forall (hasTarget db) marcherPageUpdates ->
  collectUpdates db false [] marcherPageUpdates
    = Ok (omap (itemFor db) marcherPageUpdates) /\
  (forall update row,
     row ∈ marcher_pages db -> targets update row ->
     itemFor db update
     = if decide (locked db row) then None
       else Some (mkNewModified (id row) update)) /\
  exists response db',
    updateMarcherPages db marcherPageUpdates false = Ok (response, db') /\
    success response = true /\
    shape_page_marchers db' = shape_page_marchers db /\
    marcher_pages db' =
      (fun row => if decide (locked db row) then row
                  else applyBatch marcherPageUpdates row) <$> marcher_pages db.
Proof.
  intros Hwf Hall.
  pose proof (collectUpdates_spec db [] _ Hwf Hall) as Hitems.
  split; [exact Hitems|]. split.
  { intros update row Hin Htg. unfold itemFor.
    by rewrite (find_target db update row Hwf Hin Htg). }
  unfold updateMarcherPages. rewrite Hitems. simpl.
  eexists _, _. split; [reflexivity|]. simpl.
  split; [done|]. split; [done|].
  rewrite updateItems_rows. apply list_fmap_ext.
  intros i row Hi. apply apply_items_row; try done.
  by eapply list_elem_of_lookup_2.
Qed.

(** A table with a locked MarcherPage (marcher 1 on page 1) and an
    unlocked one (marcher 2 on page 1), and a batch moving both. *)
Definition exampleDb : Database :=
  mkDatabase [mkMarcherPage 10 1 1 0 0; mkMarcherPage 11 2 1 0 0]
             [mkSpm 1 1 1].

Definition exampleBatch : list ModifiedMarcherPageArgs :=
  [mkModified 1 1 50 60; mkModified 2 1 70 80].

(** C5 on that table and batch: the locked row stays, the other moves. *)
Lemma updateMarcherPages_respects_locks_witness :
  exists response db',
    updateMarcherPages exampleDb exampleBatch false = Ok (response, db') /\
    marcher_pages db' = [mkMarcherPage 10 1 1 0 0; mkMarcherPage 11 2 1 70 80].
Proof.
  assert (table_wf exampleDb) as Hwf.
  { split; apply (bool_decide_unpack _); vm_compute; exact I. }
  assert (Forall (hasTarget exampleDb) exampleBatch) as Hall.
  { repeat constructor.
    - exists (mkMarcherPage 10 1 1 0 0). split; [by left | done].
    - exists (mkMarcherPage 11 2 1 0 0). split; [by right; left | done]. }
  destruct (updateMarcherPages_respects_locks exampleDb exampleBatch Hwf Hall)
    as (_ & _ & response & db' & Hrun & _ & _ & Hrows).
  exists response, db'. split; [exact Hrun|].
  rewrite Hrows. reflexivity.
Defined.

(** C5 does not hold for every batch.  On the example table, take the
    batch that moves the unlocked MarcherPage of marcher 2 and then names
    marcher 3, who has no row: the id lookup for the second update throws
    in the loop, before anything is handed on to be written, so the call
    answers with no database written and the update of the unlocked
    MarcherPage is not applied. *)
Lemma updateMarcherPages_unknown_row_drops_batch :
  table_wf exampleDb /\
  (exists row,
     row ∈ marcher_pages exampleDb /\
     targets (mkModified 2 1 70 80) row /\ ~ locked exampleDb row) /\
  (forall row, row ∈ marcher_pages exampleDb -> ~ targets (mkModified 3 1 5 5) row) /\
  updateMarcherPages exampleDb [mkModified 2 1 70 80; mkModified 3 1 5 5] false
  = Throw "TypeError: Cannot read properties of undefined (reading 'id')".
Proof.
  split; [|split; [|split]].
  - split; apply (bool_decide_unpack _); vm_compute; exact I.
  - exists (mkMarcherPage 11 2 1 0 0). split; [by right; left|]. split; [done|].
    unfold locked. cbn. intros Hl. apply Exists_cons in Hl as [[Hm _] | Hl].
    + discriminate Hm.
    + by apply Exists_nil in Hl.
  - intros row Hin [Hm _].
    repeat (apply elem_of_cons in Hin as [-> | Hin]; [discriminate Hm|]).
    by apply elem_of_nil in Hin.
  - reflexivity.
Qed.

(** C10.  [getMarcherPages] tests its optional ids for truthiness, so an
    id of [0] counts as absent: the answer for [marcher_id = 0] (or
    [page_id = 0]) is the answer without that filter, all rows when no
    other filter is given, and the combined filter on marcher and page is
    what is computed exactly when both ids are present and nonzero. *)
Theorem getMarcherPages_zero_id_ignored (db : Database) :
  (forall page_id', getMarcherPages db (Some 0) page_id' = getMarcherPages db None page_id') /\
  (forall marcher_id', getMarcherPages db marcher_id' (Some 0) = getMarcherPages db marcher_id' None) /\
  data (getMarcherPages db (Some 0) None) = marcher_pages db /\
  data (getMarcherPages db None (Some 0)) = marcher_pages db /\
  data (getMarcherPages db (Some 0) (Some 0)) = marcher_pages db /\
  (forall m p, m ≠ 0 -> p ≠ 0 ->
     data (getMarcherPages db (Some m) (Some p))
     = filter (fun mp => marcher_id mp = m /\ page_id mp = p) (marcher_pages db)) /\
  (forall m, m ≠ 0 ->
     data (getMarcherPages db (Some m) (Some 0))
     = filter (fun mp => marcher_id mp = m) (marcher_pages db)) /\
  (forall p, p ≠ 0 ->
     data (getMarcherPages db (Some 0) (Some p))
     = filter (fun mp => page_id mp = p) (marcher_pages db)).
Proof.
  assert (forall k, k ≠ 0 -> truthy (Some k) = true) as Ht.
  { intros k Hk. unfold truthy. by apply negb_true_iff, Z.eqb_neq. }
  repeat split; try done.
  - intros m p Hm Hp. unfold getMarcherPages. by rewrite !Ht.
  - intros m Hm. unfold getMarcherPages. by rewrite Ht.
  - intros p Hp. unfold getMarcherPages. rewrite (Ht p Hp). done.
Qed.

(** The rows returned for [marcher_id = 0] are not the rows of marcher 0. *)
Example getMarcherPages_zero_returns_all :
  data (getMarcherPages
          (mkDatabase [mkMarcherPage 1 0 1 0 0; mkMarcherPage 2 5 1 0 0] [])
          (Some 0) None)
  = [mkMarcherPage 1 0 1 0 0; mkMarcherPage 2 5 1 0 0].
Proof. reflexivity. Qed.

End MarcherPageTableFacts.

(** ** Properties of the vector export *)

Module SvgExportFacts.
Import SvgExport.
Local Open Scope Q_scope.

Section ToSVG.

Variable superToSVG : Canvas -> SvgOptions -> Result string.

(** On success the viewport transform and the dimensions are put back
    (a canvas always has a viewport matrix and nonzero dimensions). *)
Lemma toSVG_success_restores options c m svg c' :
  viewportTransform c = Some m ->
  ~ width c == 0 -> ~ height c == 0 ->
  toSVG superToSVG options c = (c', Returns svg) ->
  viewportTransform c' = viewportTransform c /\
  width c' = width c /\ height c' = height c.
Proof.
  intros Hm Hw Hh. unfold toSVG. cbv zeta.
  destruct (superToSVG _ _) as [svg'|e]; [|discriminate].
  intros [= <- _]. rewrite Hm. simpl. unfold orElse, JS.truthy.
  assert (forall q, ~ q == 0 -> Qeq_bool q 0 = false) as Hnz.
  { intros q Hq. destruct (Qeq_bool q 0) eqn:E; [|done].
    apply Qeq_bool_iff in E. done. }
  by rewrite (Hnz _ Hw), (Hnz _ Hh).
Qed.

(** On failure one error is thrown, wrapping the message of the original
    one, and the canvas is left at the identity transform and the field's
    dimensions: nothing is put back. *)
Lemma toSVG_failure options c c' e :
  toSVG superToSVG options c = (c', Throws e) ->
  (exists original,
      superToSVG (requestRenderAll
                    (setHeight (field_height (fieldProperties c))
                       (setWidth (field_width (fieldProperties c))
                          (setViewportTransform identityMatrix c))))
                 (mkSvgOptions
                    (default (field_width (fieldProperties c)) (options ≫= opt_width))
                    (default (field_height (fieldProperties c)) (options ≫= opt_height))
                    (default (mkViewBox 0 0 (field_width (fieldProperties c))
                                        (field_height (fieldProperties c)))
                             (options ≫= opt_viewBox)))
      = Throws original /\
      e = ErrorObject ("Failed to export canvas to SVG: "
                         ++ match original with
                            | ErrorObject message => message
                            | OtherValue _ => "Unknown error"
                            end)) /\
  viewportTransform c' = Some identityMatrix /\
  width c' = field_width (fieldProperties c) /\
  height c' = field_height (fieldProperties c).
Proof.
  unfold toSVG. cbv zeta.
  destruct (superToSVG _ _) as [svg'|original]; [discriminate|].
  intros [= <- <-]. simpl. split; [|done].
  by exists original.
Qed.

End ToSVG.

(** A canvas zoomed to 2x and panned, 800 by 600, on a 1600 by 800 field. *)
Definition zoomedCanvas : Canvas :=
  mkCanvas (Some (mkMatrix 2 0 0 2 10 10)) 800 600 (mkField 1600 800) 0 0.

(** A serialisation that fails. *)
Definition failingToSVG (c : Canvas) (o : SvgOptions) : Result string :=
  Throws (ErrorObject "boom").

(** C6 at a failing input.  When fabric's serialisation throws, [toSVG]
    re-raises one error wrapping the original message, but the canvas it
    leaves is at the identity transform with the field's dimensions, not
    at the transform and dimensions it had before the call. *)
Theorem toSVG_failure_leaves_export_view :
  let out := toSVG failingToSVG None zoomedCanvas in
  out.2 = Throws (ErrorObject "Failed to export canvas to SVG: boom") /\
  viewportTransform out.1 = Some identityMatrix /\
  width out.1 = 1600 /\ height out.1 = 800 /\
  viewportTransform zoomedCanvas = Some (mkMatrix 2 0 0 2 10 10) /\
  width zoomedCanvas = 800 /\ height zoomedCanvas = 600.
Proof. repeat split. Qed.

End SvgExportFacts.

(** ** Properties of the settings methods *)

Module SettingsFacts.
Import Settings.
Local Open Scope Q_scope.

Lemma gridFlagsDiffer_test old new :
  negb (eqb (gridLines old) (gridLines new))
  || negb (eqb (halfLines old) (halfLines new)) = true
  <-> gridFlagsDiffer old new.
Proof.
  unfold gridFlagsDiffer.
  destruct (gridLines old), (gridLines new), (halfLines old), (halfLines new);
    simpl; split; intros H; try done; try (by left); try (by right);
    destruct H as [H|H]; done.
Qed.

(** The settings of a canvas with only the half-line flag changed, and
    with only the mouse settings changed. *)
Definition withHalfLines (b : bool) (s : UiSettings) : UiSettings :=
  mkUiSettings (lockX s) (lockY s) (gridLines s) b (mouseSettings s).

Definition withMouseSettings (ms : MouseSettings) (s : UiSettings) : UiSettings :=
  mkUiSettings (lockX s) (lockY s) (gridLines s) (halfLines s) ms.

(** C7.  [setUiSettings] rebuilds the field grid exactly when the new
    settings differ from the previous ones in [gridLines] or [halfLines]:
    then [renderFieldGrid] runs once and [staticGridRef] is a newly
    constructed group drawn with the new flags; otherwise the grid object
    is the one held before and nothing is rebuilt.  Toggling [halfLines]
    from true to false is one rebuild; changing only the mouse settings
    (a sensitivity, say) is none. *)
Theorem setUiSettings_rebuilds_grid_iff (new : UiSettings) (c : Canvas) :
  let c' := setUiSettings new c in
  (gridFlagsDiffer (uiSettings c) new ->
     gridBuilds c' = S (gridBuilds c) /\
     staticGridRef c' =
       mkGrid (nextRef c) (gridLines new) (halfLines new) (fieldProperties c) false) /\
  (~ gridFlagsDiffer (uiSettings c) new ->
     gridBuilds c' = gridBuilds c /\ staticGridRef c' = staticGridRef c) /\
  (gridBuilds c' ≠ gridBuilds c <-> gridFlagsDiffer (uiSettings c) new) /\
  (halfLines (uiSettings c) = true ->
     gridBuilds (setUiSettings (withHalfLines false (uiSettings c)) c)
     = S (gridBuilds c)) /\
  (forall ms,
     let c'' := setUiSettings (withMouseSettings ms (uiSettings c)) c in
     gridBuilds c'' = gridBuilds c /\ staticGridRef c'' = staticGridRef c).
Proof.
  intros c'.
  assert (forall s, gridFlagsDiffer (uiSettings c) s ->
            gridBuilds (setUiSettings s c) = S (gridBuilds c) /\
            staticGridRef (setUiSettings s c) =
              mkGrid (nextRef c) (gridLines s) (halfLines s) (fieldProperties c) false)
    as Hyes.
  { intros s Hd%gridFlagsDiffer_test. unfold setUiSettings. cbv zeta.
    rewrite Hd. done. }
  assert (forall s, ~ gridFlagsDiffer (uiSettings c) s ->
            gridBuilds (setUiSettings s c) = gridBuilds c /\
            staticGridRef (setUiSettings s c) = staticGridRef c) as Hno.
  { intros s Hd. unfold setUiSettings. cbv zeta.
    destruct (_ || _) eqn:E; [|done].
    by apply gridFlagsDiffer_test in E. }
  split; [apply Hyes|]. split; [apply Hno|]. split; [|split].
  - subst c'. split.
    + intros Hne. destruct (decide (gridFlagsDiffer (uiSettings c) new)) as [|Hd]; [done|].
      by destruct (Hno _ Hd).
    + intros Hd. destruct (Hyes _ Hd) as [-> _]. lia.
  - intros Hh. apply Hyes. right. rewrite Hh. done.
  - intros ms c''. apply Hno. intros [H|H]; by apply H.
Qed.

(** Setting the field properties always rebuilds the grid. *)
Lemma set_fieldProperties_rebuilds fp c :
  gridBuilds (set_fieldProperties fp c) = S (gridBuilds c) /\
  grid_field (staticGridRef (set_fieldProperties fp c)) = fp.
Proof. done. Qed.

Lemma setPanSensitivity_in_range value c :
  (1 # 10) <= panSensitivity (setPanSensitivity value c) <= 3.
Proof. apply JSFacts.clamp_bounds. lra. Qed.

Lemma setTrackpadPanSensitivity_in_range value c :
  (1 # 10) <= trackpadPanSensitivity (setTrackpadPanSensitivity value c) <= 3.
Proof. apply JSFacts.clamp_bounds. lra. Qed.

Lemma setZoomSensitivity_in_range value c :
  (1 # 100) <= zoomSensitivity (setZoomSensitivity value c) <= (5 # 10).
Proof. apply JSFacts.clamp_bounds. lra. Qed.

(** The dedicated setters keep the three coefficients in their ranges. *)
Lemma setters_keep_range value c :
  sensitivities_in_range c ->
  sensitivities_in_range (setPanSensitivity value c) /\
  sensitivities_in_range (setTrackpadPanSensitivity value c) /\
  sensitivities_in_range (setZoomSensitivity value c).
Proof.
  intros (Hp & Ht & Hz). repeat split; try apply Hp; try apply Ht; try apply Hz;
    simpl; try apply Q.le_max_l; apply Q.max_lub; try lra; apply Q.le_min_l.
Qed.

(** The canvas as constructed without sensitivities in the settings, and
    settings that carry sensitivities outside the ranges. *)
Definition defaultSettings : UiSettings :=
  mkUiSettings false false true true (mkMouseSettings false None None None true).

Definition defaultCanvas : Canvas :=
  mkCanvas defaultSettings (mkField 1600 800 10)
           (mkGrid 0 true true (mkField 1600 800 10) false) None
           false (5 # 10) (3 # 100) (5 # 10) "grab" "grabbing" 1 1.

Definition wildSettings : UiSettings :=
  mkUiSettings false false true true
    (mkMouseSettings false (Some (1 # 100)) (Some 5) (Some 10) true).

(** C9 at a failing input.  [setUiSettings] copies the sensitivities of
    the settings as they are: from a canvas whose coefficients are in
    range, settings carrying 10, 5 and 0.01 leave the pan coefficient at
    10 (above 3), the zoom coefficient at 5 (above 0.5) and the trackpad
    coefficient at 0.01 (below 0.1), where the dedicated setters would
    have clamped them to 3, 0.5 and 0.1. *)
Theorem setUiSettings_does_not_clamp :
  let c' := setUiSettings wildSettings defaultCanvas in
  sensitivities_in_range defaultCanvas /\
  panSensitivity c' = 10 /\ 3 < panSensitivity c' /\
  zoomSensitivity c' = 5 /\ (5 # 10) < zoomSensitivity c' /\
  trackpadPanSensitivity c' = (1 # 100) /\ trackpadPanSensitivity c' < (1 # 10) /\
  panSensitivity (setPanSensitivity 10 defaultCanvas) == 3 /\
  zoomSensitivity (setZoomSensitivity 5 defaultCanvas) == (5 # 10) /\
  trackpadPanSensitivity (setTrackpadPanSensitivity (1 # 100) defaultCanvas) == (1 # 10).
Proof.
  unfold sensitivities_in_range; simpl.
  repeat split; try reflexivity; try (vm_compute; discriminate).
Qed.

End SettingsFacts.

(** ** Properties of the selection manager *)

Module SelectionFacts.
Import Selection.

Lemma setActiveObjects_locked h objs c :
  handleSelectLock c = true -> setActiveObjects h objs c = c.
Proof. intros Hl. unfold setActiveObjects. by rewrite Hl. Qed.

(** A handler that calls [setActiveObjects] again is guarded, whatever
    handlers that inner call would run. *)
Lemma reentrant_guarded h' objs' : guarded (setActiveObjects h' objs').
Proof. intros c Hl. by apply setActiveObjects_locked. Qed.

Lemma setActiveObjects_guarded h objs c :
  guarded h -> handleSelectLock c = false ->
  setActiveObjects h objs c
  = mkCanvas false (requested objs c) (lockX c) (lockY c) (S (renderRequests c)).
Proof.
  intros Hg Hl. destruct c as [l a lx ly n]. simpl in Hl. subst l.
  unfold setActiveObjects, setActiveObject, discardActiveObject, requested.
  destruct objs as [|o [|o' objs]]; destruct a; simpl;
    repeat match goal with
           | |- context [h ?c'] => rewrite (Hg c') by reflexivity
           end;
    reflexivity.
Qed.

(** C8.  Called while [handleSelectLock] is set, [setActiveObjects]
    returns at once and changes nothing; so a re-entrant call, made from a
    selection-change handler with any objects and any handlers of its own,
    is a handler that does nothing under the lock.  A call made while the
    lock is free releases the lock before it returns, whatever the
    handlers do; it runs the handlers with the lock set, so with handlers
    that do nothing under the lock (re-entrant calls among them) it ends
    with the lock free, one repaint requested, and the active object the
    one asked for: a single object selected directly, several grouped in
    an active selection, none cleared. *)
Theorem setActiveObjects_reentrancy_guard
    (h : Canvas -> Canvas) (objs : list Selectable) (c : Canvas) :
  (handleSelectLock c = true -> setActiveObjects h objs c = c) /\
  (forall h' objs', guarded (setActiveObjects h' objs')) /\
  (handleSelectLock c = false ->
     handleSelectLock (setActiveObjects h objs c) = false) /\
  (handleSelectLock c = false -> guarded h ->
     setActiveObjects h objs c
     = mkCanvas false (requested objs c) (lockX c) (lockY c) (S (renderRequests c))) /\
  (forall h' objs',
     handleSelectLock c = false ->
     setActiveObjects (setActiveObjects h' objs') objs c
     = setActiveObjects (fun c' => c') objs c).
Proof.
  split; [apply setActiveObjects_locked|].
  split; [apply reentrant_guarded|]. split; [|split].
  - intros Hl. unfold setActiveObjects. by rewrite Hl.
  - intros Hl Hg. by apply setActiveObjects_guarded.
  - intros h' objs' Hl.
    rewrite !setActiveObjects_guarded; try done.
    apply reentrant_guarded.
Qed.

(** A handler that answers every selection change by selecting objects 7
    and 8 does not get its way. *)
Example reselecting_handler_is_ignored :
  setActiveObjects (setActiveObjects (fun c => c) [7; 8]) [1]
                   (mkCanvas false None false false 0)
  = mkCanvas false (Some (mkActiveObject (SingleObject 1) false false))
             false false 1.
Proof. reflexivity. Qed.

End SelectionFacts.

(** ** Further properties of the viewport controller *)

Module ViewportMore.
Import Viewport ViewportFacts ZoomDisplay.
Local Open Scope Q_scope.

Ltac ltb_props :=
  repeat match goal with
  | H : JS.ltb _ _ = true |- _ => apply JSFacts.ltb_lt in H
  | H : JS.ltb _ _ = false |- _ => apply JSFacts.ltb_ge in H
  | H : JS.leb _ _ = true |- _ => apply JSFacts.leb_le in H
  end.

Ltac ltb_cases :=
  repeat match goal with |- context [JS.ltb ?a ?b] =>
    destruct (JS.ltb a b) eqn:? end;
  ltb_props.

(** X1.  The damping curve of [panContainer] never reverses a movement and
    never amplifies it: the damped value has the sign of the input and
    between 30% and 60% of its size. *)
Theorem applyInertia_attenuates (delta : Q) :
  0 <= delta * applyInertia delta /\
  (3 # 10) * Qabs delta <= Qabs (applyInertia delta) /\
  Qabs (applyInertia delta) <= (6 # 10) * Qabs delta.
Proof.
  unfold applyInertia, JS.sign.
  destruct (Qlt_le_dec delta 0) as [Hneg | Hpos].
  - assert (JS.ltb 0 delta = false) as -> by (apply JSFacts.ltb_ge; lra).
    assert (JS.ltb delta 0 = true) as -> by (by apply JSFacts.ltb_lt).
    assert (Qabs delta == - delta) as Ha by (apply Qabs_neg; lra).
    ltb_cases; rewrite ?Ha in *.
    all: match goal with |- context [Qabs ?e] =>
           assert (Qabs e == - e) as -> by (apply Qabs_neg; nra) end.
    all: nra.
  - assert (JS.ltb delta 0 = false) as -> by (by apply JSFacts.ltb_ge).
    assert (Qabs delta == delta) as Ha by (by apply Qabs_pos).
    ltb_cases; rewrite ?Ha in *.
    all: match goal with |- context [Qabs ?e] =>
           assert (Qabs e == e) as -> by (apply Qabs_pos; nra) end.
    all: nra.
Qed.

(** The final clamp of [zoomContainer] and [fitToScreen]. *)
Definition clampZoom (s : Q) : Q := Qmax MIN_ZOOM (Qmin MAX_ZOOM s).

Lemma clampZoom_proper s1 s2 : s1 == s2 -> clampZoom s1 == clampZoom s2.
Proof. intros H. unfold clampZoom. by rewrite H. Qed.

Lemma clampZoom_spec x :
  (x <= 5 # 10 /\ clampZoom x == 5 # 10) \/
  ((5 # 10) <= x <= 2 /\ clampZoom x == x) \/
  (2 <= x /\ clampZoom x == 2).
Proof.
  unfold clampZoom, MIN_ZOOM, MAX_ZOOM.
  destruct (Q.min_spec 2 x) as [[H1 E1]|[H1 E1]];
    destruct (Q.max_spec (5 # 10) (Qmin 2 x)) as [[H2 E2]|[H2 E2]];
    rewrite E2; rewrite E1 in *; try lra.
Qed.

Lemma Qabs_self_small q : Qabs (q - q) < 1 # 10000.
Proof.
  assert (q - q == 0) as -> by ring. reflexivity.
Qed.

Lemma dampedFactor_half factor :
  (if JS.ltb 1 factor
   then 1 + (factor - 1) * (5 # 10)
   else 1 - (1 - factor) * (5 # 10)) == (1 + factor) / 2.
Proof. destruct (JS.ltb 1 factor); field. Qed.

Lemma zoomContainer_scale_formula (c : Canvas) (factor clientX clientY : Q) :
  attached c -> scale_in_limits c ->
  let s := scale (transformValues c) in
  let s' := scale (transformValues (zoomContainer factor clientX clientY c)) in
  let target := clampZoom (s * ((1 + factor) / 2)) in
  Qabs (s' - target) < (1 # 10000) /\ (~ s' == s -> s' == target).
Proof.
  intros (w & rect & Hw & Hp) [Hlo Hhi]. cbv zeta.
  unfold zoomContainer. rewrite Hw, Hp. cbv zeta.
  set (s := scale (transformValues c)) in *.
  set (damped := if JS.ltb 1 factor then _ else _).
  assert (clampZoom (s * damped) == clampZoom (s * ((1 + factor) / 2))) as Hd.
  { apply clampZoom_proper. unfold damped. by rewrite dampedFactor_half. }
  fold (clampZoom (s * damped)).
  unfold MIN_ZOOM, MAX_ZOOM in Hlo, Hhi.
  set (x := s * ((1 + factor) / 2)) in *.
  assert (x == s * (1 + factor) * (1 # 2)) as Hx by (unfold x; field).
  destruct (JS.leb s MIN_ZOOM && JS.ltb factor 1) eqn:Hmin.
  { apply andb_true_iff in Hmin as [H1 H2]. ltb_props. unfold MIN_ZOOM in H1.
    cbn [showZoomLimitFeedback transformValues]. fold s.
    assert (clampZoom x == s) as ->.
    { destruct (clampZoom_spec x) as [[? ->]|[[? ?]|[? ?]]]; nra. }
    split; [apply Qabs_self_small | intros _; reflexivity]. }
  destruct (JS.leb MAX_ZOOM s && JS.ltb 1 factor) eqn:Hmax.
  { apply andb_true_iff in Hmax as [H1 H2]. ltb_props. unfold MAX_ZOOM in H1.
    cbn [showZoomLimitFeedback transformValues]. fold s.
    assert (clampZoom x == s) as ->.
    { destruct (clampZoom_spec x) as [[? ?]|[[? ?]|[? ->]]]; nra. }
    split; [apply Qabs_self_small | intros _; reflexivity]. }
  destruct (JS.ltb (Qabs (clampZoom (s * damped) - s)) (1 # 10000)) eqn:Hsmall;
    ltb_props.
  - fold s. split; [|intros H; exfalso; apply H; reflexivity]. rewrite <- Hd.
    rewrite Qabs_Qminus. exact Hsmall.
  - transform_simpl. cbn [scale]. rewrite Hd.
    split; [apply Qabs_self_small | intros _; reflexivity].
Qed.

(** X2.  [zoomContainer] damps every request by half, in both
    directions: on an attached canvas whose scale is within the limits, a
    request with factor [f] at scale [s] leaves the scale within 0.0001 of
    [clamp (s * (1 + f) / 2)], and exactly there whenever the scale
    changes at all. *)
Theorem zoomContainer_halves_factor (c : Canvas) (factor clientX clientY : Q) :
  attached c -> scale_in_limits c ->
  let s := scale (transformValues c) in
  let s' := scale (transformValues (zoomContainer factor clientX clientY c)) in
  let target := clampZoom (s * ((1 + factor) / 2)) in
  Qabs (s' - target) < (1 # 10000) /\ (~ s' == s -> s' == target).
Proof. apply zoomContainer_scale_formula. Qed.

(** X2 on the zoom-in button (factor 1.25) pressed at scale 1: the
    scale becomes 1.125. *)
Lemma zoomContainer_halves_factor_witness :
  let w := mkDiv (Some (mkRect 0 0)) "" None in
  let c := initial (Some w) (mkField 1600 800) in
  scale (transformValues (zoomContainer (125 # 100) 400 300 c)) == 1125 # 1000.
Proof.
  intros w c.
  assert (attached c) as Hatt by (eexists _, _; split; reflexivity).
  assert (scale_in_limits c) as Hlim by (split; vm_compute; discriminate).
  destruct (zoomContainer_halves_factor c (125 # 100) 400 300 Hatt Hlim) as [_ Hs].
  rewrite Hs; [reflexivity | vm_compute; discriminate].
Defined.

(** Fabric's viewport matrix agrees with the transform of the container. *)
Definition committed (c : Canvas) : Prop :=
  exists m, viewportTransform c = Some m /\
    m0 m = scale (transformValues c) /\ m3 m = scale (transformValues c) /\
    m4 m = translateX (transformValues c) /\ m5 m = translateY (transformValues c).

(** The container's CSS [transform] shows the transform values. *)
Definition displayed (c : Canvas) : Prop :=
  exists w, cssZoomWrapper c = Some w /\
    style_transform w =
      Some (translateX (transformValues c), translateY (transformValues c),
            scale (transformValues c)).

(** Whether a gesture is a zoom request. *)
Definition is_zoom (g : Gesture) : bool :=
  match g with Zoom _ _ _ => true | _ => false end.

Lemma viewport_set_transition s c :
  viewportTransform (set_transition s c) = viewportTransform c.
Proof. unfold set_transition. by destruct (cssZoomWrapper c). Qed.

Lemma viewport_applyContainerTransform c :
  viewportTransform (applyContainerTransform c) = viewportTransform c.
Proof. unfold applyContainerTransform. by destruct (cssZoomWrapper c). Qed.

Lemma viewport_zoomContainer factor clientX clientY c :
  viewportTransform (zoomContainer factor clientX clientY c) = viewportTransform c.
Proof.
  unfold zoomContainer.
  destruct (cssZoomWrapper c) as [w|]; [|done].
  destruct (parentElement w); [|done]. cbv zeta.
  repeat match goal with |- context [if ?b then _ else _] => destruct b end;
    try reflexivity;
    by rewrite viewport_applyContainerTransform, viewport_set_transition.
Qed.

(** X3.  [zoomContainer] never writes fabric's viewport matrix: the
    matrix after the call is the matrix before it.  So when the matrix
    agreed with the container's transform and the call changes the scale,
    the two disagree afterwards, until something else commits the
    transform. *)
Theorem zoomContainer_leaves_fabric_stale (c : Canvas) (factor clientX clientY : Q) :
  let c' := zoomContainer factor clientX clientY c in
  viewportTransform c' = viewportTransform c /\
  (committed c ->
   ~ scale (transformValues c') == scale (transformValues c) ->
   ~ committed c').
Proof.
  cbv zeta.
  pose proof (viewport_zoomContainer factor clientX clientY c) as Hv.
  split; [exact Hv|].
  intros (m & Hm & H0 & _) Hchg (m' & Hm' & H0' & _).
  rewrite Hv, Hm in Hm'. injection Hm' as <-.
  apply Hchg. rewrite <- H0', H0. reflexivity.
Qed.

Lemma commit_after_update c w m :
  cssZoomWrapper c = Some w -> viewportTransform c = Some m ->
  committed (updateFabricViewportFromContainer c) /\
  (exists m', viewportTransform (updateFabricViewportFromContainer c) = Some m' /\
              m1 m' = m1 m /\ m2 m' = m2 m).
Proof.
  intros Hw Hm. unfold updateFabricViewportFromContainer. rewrite Hw, Hm.
  split.
  - eexists. split; [reflexivity|]. by cbn.
  - eexists. split; [reflexivity|]. by cbn.
Qed.

Lemma displayed_applyContainerTransform c w :
  cssZoomWrapper c = Some w -> displayed (applyContainerTransform c).
Proof.
  intros Hw. unfold applyContainerTransform. rewrite Hw.
  eexists. split; [reflexivity|]. by cbn.
Qed.

Lemma displayed_updateFabricViewport c :
  displayed c -> displayed (updateFabricViewportFromContainer c).
Proof.
  intros (w & Hw & Hs). unfold updateFabricViewportFromContainer. rewrite Hw.
  destruct (viewportTransform c); [|by exists w].
  exists w. by cbn.
Qed.

Lemma commits c w m :
  cssZoomWrapper c = Some w -> viewportTransform c = Some m -> displayed c ->
  let c' := updateFabricViewportFromContainer c in
  committed c' /\ displayed c' /\
  (exists m', viewportTransform c' = Some m' /\ m1 m' = m1 m /\ m2 m' = m2 m).
Proof.
  intros Hw Hm Hd c'.
  destruct (commit_after_update c w m Hw Hm) as [Hc Hk].
  split; [exact Hc|]. split; [|exact Hk].
  by apply displayed_updateFabricViewport.
Qed.

(** X4.  On a canvas with its container and a viewport matrix, a
    pan, [fitToScreen] and [resetZoom] each end with fabric's matrix and
    the container's CSS transform both showing the new transform values;
    the other two entries of the matrix are left alone. *)
Theorem pan_fit_reset_commit_viewport
    (c : Canvas) (g : Gesture) (w : HTMLDivElement) (m : Matrix) :
  cssZoomWrapper c = Some w -> viewportTransform c = Some m ->
  is_zoom g = false ->
  committed (step c g) /\ displayed (step c g) /\
  (exists m', viewportTransform (step c g) = Some m' /\ m1 m' = m1 m /\ m2 m' = m2 m).
Proof.
  intros Hw Hm Hg.
  destruct g as [| dx dy | iw ih |]; [discriminate| | |]; cbn [step].
  - unfold panContainer. rewrite Hw. cbv zeta.
    eapply commits.
    + unfold applyContainerTransform, set_transition; cbn. rewrite Hw. reflexivity.
    + by rewrite viewport_applyContainerTransform, viewport_set_transition.
    + unfold set_transition; cbn. rewrite Hw.
      eapply displayed_applyContainerTransform. reflexivity.
  - unfold fitToScreen. rewrite Hw. cbv zeta.
    eapply commits.
    + unfold applyContainerTransform, set_transition; cbn. rewrite Hw. reflexivity.
    + by rewrite viewport_applyContainerTransform, viewport_set_transition.
    + unfold set_transition; cbn. rewrite Hw.
      eapply displayed_applyContainerTransform. reflexivity.
  - unfold resetZoom. cbv zeta.
    eapply commits.
    + unfold applyContainerTransform; cbn. rewrite Hw. reflexivity.
    + by rewrite viewport_applyContainerTransform.
    + eapply displayed_applyContainerTransform. cbn. exact Hw.
Qed.

(** X4 on a pan by (10, 20) of the initial canvas. *)
Lemma pan_fit_reset_commit_viewport_witness :
  let w := mkDiv (Some (mkRect 0 0)) "" None in
  let c := initial (Some w) (mkField 1600 800) in
  committed (step c (Pan 10 20)) /\ displayed (step c (Pan 10 20)).
Proof.
  intros w c.
  destruct (pan_fit_reset_commit_viewport c (Pan 10 20) w (mkMatrix 1 0 0 1 0 0)
              eq_refl eq_refl eq_refl) as (Hc & Hd & _).
  split; [exact Hc | exact Hd].
Defined.

Lemma wrapper_set_transition s c :
  is_Some (cssZoomWrapper c) -> is_Some (cssZoomWrapper (set_transition s c)).
Proof. unfold set_transition. intros [w Hw]. rewrite Hw. by eexists. Qed.

Lemma wrapper_applyContainerTransform c :
  is_Some (cssZoomWrapper c) -> is_Some (cssZoomWrapper (applyContainerTransform c)).
Proof. unfold applyContainerTransform. intros [w Hw]. rewrite Hw. by eexists. Qed.

Lemma wrapper_updateFabricViewport c :
  is_Some (cssZoomWrapper c) ->
  is_Some (cssZoomWrapper (updateFabricViewportFromContainer c)).
Proof.
  unfold updateFabricViewportFromContainer. intros [w Hw]. rewrite Hw.
  destruct (viewportTransform c); cbn; rewrite ?Hw; by eexists.
Qed.

Lemma field_set_transition s c :
  fieldProperties (set_transition s c) = fieldProperties c.
Proof. unfold set_transition. by destruct (cssZoomWrapper c). Qed.

Lemma field_applyContainerTransform c :
  fieldProperties (applyContainerTransform c) = fieldProperties c.
Proof. unfold applyContainerTransform. by destruct (cssZoomWrapper c). Qed.

Lemma field_updateFabricViewport c :
  fieldProperties (updateFabricViewportFromContainer c) = fieldProperties c.
Proof.
  unfold updateFabricViewportFromContainer.
  destruct (cssZoomWrapper c); [|done]. by destruct (viewportTransform c).
Qed.

Ltac viewport_simpl :=
  repeat first
    [ rewrite field_updateFabricViewport
    | rewrite field_applyContainerTransform
    | rewrite field_set_transition
    | apply wrapper_updateFabricViewport
    | apply wrapper_applyContainerTransform
    | apply wrapper_set_transition ].

Lemma step_keeps_container c g :
  is_Some (cssZoomWrapper c) ->
  is_Some (cssZoomWrapper (step c g)) /\
  fieldProperties (step c g) = fieldProperties c.
Proof.
  intros Hw. destruct g; cbn [step].
  - unfold zoomContainer. destruct (cssZoomWrapper c) as [w|] eqn:Ew; [|done].
    destruct (parentElement w); [|by rewrite Ew]. cbv zeta.
    repeat match goal with |- context [if ?b then _ else _] => destruct b end;
      cbn [showZoomLimitFeedback cssZoomWrapper fieldProperties];
      rewrite ?Ew; try done.
    all: split; viewport_simpl; cbn; by rewrite ?Ew.
  - unfold panContainer. destruct (cssZoomWrapper c) as [w|] eqn:Ew; [|done].
    cbv zeta. split; viewport_simpl; cbn; by rewrite ?Ew.
  - unfold fitToScreen. destruct (cssZoomWrapper c) as [w|] eqn:Ew; [|done].
    cbv zeta. split; viewport_simpl; cbn; by rewrite ?Ew.
  - unfold resetZoom. cbv zeta. split; viewport_simpl; cbn; done.
Qed.

Lemma run_keeps_container gs c :
  is_Some (cssZoomWrapper c) ->
  is_Some (cssZoomWrapper (run gs c)) /\
  fieldProperties (run gs c) = fieldProperties c.
Proof.
  unfold run. revert c. induction gs as [|g gs IH]; intros c Hw; cbn; [done|].
  destruct (step_keeps_container c g Hw) as [Hw' Hf'].
  destruct (IH _ Hw') as [Hw'' Hf'']. split; [done | congruence].
Qed.

Lemma fitToScreen_after_run
    (c : Canvas) (gs : list Gesture) (innerWidth innerHeight : Q) :
  is_Some (cssZoomWrapper c) ->
  let fp := fieldProperties c in
  let t := transformValues (fitToScreen innerWidth innerHeight (run gs c)) in
  scale t = clampZoom (fitScale innerWidth innerHeight fp) /\
  translateX t + width fp / 2 * scale t == innerWidth / 2 /\
  translateY t + height fp / 2 * scale t == innerHeight / 2.
Proof.
  intros Hw fp t.
  destruct (run_keeps_container gs c Hw) as [[w' Hw'] Hf'].
  subst t. unfold fitToScreen. rewrite Hw'. cbv zeta.
  transform_simpl. cbn [scale translateX translateY]. rewrite Hf'. fold fp.
  split; [reflexivity|]. split; ring.
Qed.

(** X5.  [fitToScreen] forgets the viewport's history: on a canvas
    with its container, whatever zooms, pans, fits and resets came before,
    the scale it sets is the fit scale of the window clamped to the zoom
    limits, and the translation puts the centre of the field on the centre
    of the window. *)
Theorem fitToScreen_forgets_history
    (c : Canvas) (gs : list Gesture) (innerWidth innerHeight : Q) :
  is_Some (cssZoomWrapper c) ->
  let fp := fieldProperties c in
  let t := transformValues (fitToScreen innerWidth innerHeight (run gs c)) in
  scale t = clampZoom (fitScale innerWidth innerHeight fp) /\
  translateX t + width fp / 2 * scale t == innerWidth / 2 /\
  translateY t + height fp / 2 * scale t == innerHeight / 2.
Proof. apply fitToScreen_after_run. Qed.

(** X5 after a zoom and a pan, in a window of 1640 by 840 around a
    1600 by 800 field: the scale is 0.8 and the field's centre sits at
    (820, 420). *)
Lemma fitToScreen_forgets_history_witness :
  let w := mkDiv (Some (mkRect 0 0)) "" None in
  let c := initial (Some w) (mkField 1600 800) in
  let t := transformValues (fitToScreen 1640 840 (run [Zoom 3 100 100; Pan 50 50] c)) in
  scale t == 8 # 10 /\ translateX t + 1600 / 2 * scale t == 1640 / 2.
Proof.
  intros w c t.
  destruct (fitToScreen_forgets_history c [Zoom 3 100 100; Pan 50 50] 1640 840)
    as (Hs & Hx & _); [by eexists|].
  split.
  - subst t. rewrite Hs. reflexivity.
  - exact Hx.
Defined.

Lemma round_100 q : q == 100 -> round q = 100%Z.
Proof. intros H. unfold round. rewrite H. reflexivity. Qed.

(** X6.  The zoom read-out is relative to the fit scale, not to
    the scale itself: right after [fitToScreen], in a window whose fit
    scale lies within the zoom limits, it reads 100. *)
Theorem fit_reads_100_percent (c : Canvas) (innerWidth innerHeight : Q) :
  is_Some (cssZoomWrapper c) ->
  let fit := fitScale innerWidth innerHeight (fieldProperties c) in
  MIN_ZOOM <= fit -> fit <= MAX_ZOOM ->
  updateZoomPercentageDisplay innerWidth innerHeight
    (fitToScreen innerWidth innerHeight c) = Some 100%Z.
Proof.
  intros Hw fit Hlo Hhi.
  destruct (step_keeps_container c (FitToScreen innerWidth innerHeight) Hw)
    as [[w' Hw'] Hf']. cbn [step] in Hw', Hf'.
  unfold updateZoomPercentageDisplay. rewrite Hw', Hf'. cbv zeta. fold fit.
  f_equal. apply round_100.
  destruct (fitToScreen_after_run c [] innerWidth innerHeight Hw) as [Hs _].
  cbn [run foldl] in Hs. rewrite Hs. fold fit.
  unfold MIN_ZOOM, MAX_ZOOM in *.
  assert (clampZoom fit == fit) as ->.
  { destruct (clampZoom_spec fit) as [[? E]|[[? E]|[? E]]]; rewrite E;
      try reflexivity; apply Qle_antisym; lra. }
  field. lra.
Qed.

(** X6 in a window of 1640 by 840 around a 1600 by 800 field, where
    the scale after the fit is 0.8. *)
Lemma fit_reads_100_percent_witness :
  let w := mkDiv (Some (mkRect 0 0)) "" None in
  let c := initial (Some w) (mkField 1600 800) in
  updateZoomPercentageDisplay 1640 840 (fitToScreen 1640 840 c) = Some 100%Z.
Proof.
  intros w c.
  apply (fit_reads_100_percent c 1640 840).
  - by eexists.
  - vm_compute; discriminate.
  - vm_compute; discriminate.
Defined.

End ViewportMore.

(** ** Further properties of the MarcherPage table *)

Module MarcherPageTableMore.
Import ListFacts MarcherPageTable MarcherPageLookup MarcherPageTableFacts.
Local Open Scope Z_scope.

Lemma id_truthy k : k ≠ 0 -> truthy (Some k) = true.
Proof. intros Hk. unfold truthy. by apply negb_true_iff, Z.eqb_neq. Qed.

Lemma head_filter_unique {A} (P : A -> Prop) `{!forall x, Decision (P x)}
    (l : list A) (a : A) :
  (forall b, b ∈ l -> P b -> b = a) -> a ∈ l -> P a -> head (filter P l) = Some a.
Proof.
  intros Huniq Hin Ha.
  destruct (filter P l) as [|b rest] eqn:Hf.
  - exfalso. assert (a ∈ filter P l) as Hin' by (apply list_elem_of_filter; done).
    rewrite Hf in Hin'. by apply elem_of_nil in Hin'.
  - cbn. f_equal. assert (b ∈ filter P l) as Hb by (rewrite Hf; by left).
    apply list_elem_of_filter in Hb as [Hb1 Hb2]. by apply Huniq.
Qed.

Lemma getMarcherPage_lookup (db : Database) (m p : Z) (row : MarcherPage) :
  table_wf db -> m ≠ 0 -> p ≠ 0 ->
  data (getMarcherPage db m p) = Some row <->
  row ∈ marcher_pages db /\ marcher_id row = m /\ page_id row = p.
Proof.
  intros [_ Hkeys] Hm Hp.
  unfold getMarcherPage, getMarcherPages.
  rewrite (id_truthy m Hm), (id_truthy p Hp). cbn.
  split.
  - intros Hh. apply head_Some_elem_of in Hh.
    by apply list_elem_of_filter in Hh as [[? ?] ?].
  - intros (Hin & Hrm & Hrp). apply head_filter_unique; [|done..].
    intros b Hb [Hbm Hbp].
    apply (NoDup_fmap_eq _ _ _ _ Hkeys Hb Hin). cbn. congruence.
Qed.

(** X7.  On a table that satisfies its constraints and for nonzero
    ids, [getMarcherPage] answers with a row exactly when that row is in
    the table under the given marcher and page; so it answers [null]
    exactly when the table has no such row. *)
Theorem getMarcherPage_finds_row (db : Database) (m p : Z) (row : MarcherPage) :
  table_wf db -> m ≠ 0 -> p ≠ 0 ->
  data (getMarcherPage db m p) = Some row <->
  row ∈ marcher_pages db /\ marcher_id row = m /\ page_id row = p.
Proof. apply getMarcherPage_lookup. Qed.

(** What a batch does to a row: the keys stay, and the last update naming
    the row gives its position. *)
Lemma applyBatch_keys updates row :
  id (applyBatch updates row) = id row /\
  marcher_id (applyBatch updates row) = marcher_id row /\
  page_id (applyBatch updates row) = page_id row.
Proof.
  unfold applyBatch. revert row.
  induction updates as [|u us IH]; intros row; cbn; [done|].
  destruct (decide (targets u row)).
  - destruct (IH (moveTo u row)) as (-> & -> & ->). done.
  - apply IH.
Qed.

Lemma applyBatch_snoc updates u row :
  applyBatch (updates ++ [u]) row =
  if decide (targets u row) then moveTo u row else applyBatch updates row.
Proof.
  unfold applyBatch. rewrite foldl_app. cbn. fold (applyBatch updates row).
  destruct (applyBatch_keys updates row) as (Hi & Hm & Hp).
  destruct (decide (targets u (applyBatch updates row))) as [Ht|Ht];
    destruct (decide (targets u row)) as [Ht'|Ht']; try done.
  - unfold moveTo. by rewrite Hi, Hm, Hp.
  - exfalso. apply Ht'. destruct Ht. split; congruence.
  - exfalso. apply Ht. destruct Ht'. split; congruence.
Qed.

Lemma applyBatch_last updates row :
  applyBatch updates row =
  from_option (fun u => moveTo u row) row
              (last (filter (fun u => targets u row) updates)).
Proof.
  induction updates as [|u us IH] using rev_ind; [done|].
  rewrite applyBatch_snoc, filter_app, filter_cons, filter_nil.
  destruct (decide (targets u row)).
  - by rewrite last_snoc.
  - by rewrite app_nil_r.
Qed.


(** Whether a call leaves a row alone: only a call that is not a child
    action looks at the locks. *)
Definition skipped (isChildAction : bool) (db : Database) (row : MarcherPage) : Prop :=
  isChildAction = false /\ locked db row.

#[export] Instance skipped_dec b db row : Decision (skipped b db row).
Proof. unfold skipped. apply _. Defined.
#[export] Typeclasses Opaque skipped.

(** The rows of the table after a batch. *)
Definition written (isChildAction : bool) (db : Database)
    (updates : list ModifiedMarcherPageArgs) : list MarcherPage :=
  (fun row => if decide (skipped isChildAction db row) then row
              else applyBatch updates row) <$> marcher_pages db.

(** The table without its locks. *)
Definition unlockAll (db : Database) : Database := mkDatabase (marcher_pages db) [].

Lemma unlockAll_wf db : table_wf db -> table_wf (unlockAll db).
Proof. done. Qed.

Lemma unlockAll_hasTarget db updates :
  Forall (hasTarget db) updates -> Forall (hasTarget (unlockAll db)) updates.
Proof. done. Qed.

Lemma unlockAll_not_locked db row : ~ locked (unlockAll db) row.
Proof. unfold locked. cbn. by intros ?%Exists_nil. Qed.

Lemma collectUpdates_child db acc updates :
  collectUpdates db true acc updates = collectUpdates (unlockAll db) false acc updates.
Proof.
  revert acc. induction updates as [|u us IH]; intros acc; cbn; [done|].
  unfold collectUpdate. cbn [marcher_pages unlockAll negb].
  destruct (find _ _) as [row|]; [|done].
  unfold isLocked, getSpmByMarcherPage. cbn.
  apply IH.
Qed.

(** A call that returns reports success: [updateItems] is the only source
    of the response. *)
Lemma updateMarcherPages_success db updates isChildAction response db' :
  updateMarcherPages db updates isChildAction = Ok (response, db') ->
  success response = true.
Proof.
  unfold updateMarcherPages.
  destruct (collectUpdates _ _ _ _) as [items|msg]; cbn; [|done].
  by intros [= <- _].
Qed.

Lemma updateMarcherPages_rows db updates isChildAction :
  table_wf db -> Forall (hasTarget db) updates ->
  exists response,
    updateMarcherPages db updates isChildAction
    = Ok (response, mkDatabase (written isChildAction db updates)
                               (shape_page_marchers db)).
Proof.
  intros Hwf Hall. unfold updateMarcherPages, written.
  destruct isChildAction.
  - rewrite collectUpdates_child.
    rewrite (collectUpdates_spec (unlockAll db) [] _ (unlockAll_wf _ Hwf)
               (unlockAll_hasTarget _ _ Hall)).
    cbn. eexists. unfold updateItems. do 2 f_equal.
    f_equal. rewrite updateItems_rows. apply list_fmap_ext.
    intros i row Hi%list_elem_of_lookup_2.
    rewrite (apply_items_row (unlockAll db) updates row row) by done.
    rewrite decide_False by apply unlockAll_not_locked.
    rewrite decide_False; [done | by intros [? _]].
  - rewrite (collectUpdates_spec db [] _ Hwf Hall).
    cbn. eexists. unfold updateItems. do 2 f_equal.
    f_equal. rewrite updateItems_rows. apply list_fmap_ext.
    intros i row Hi%list_elem_of_lookup_2.
    rewrite (apply_items_row db updates row row) by done.
    destruct (decide (locked db row)) as [Hl|Hl].
    + by rewrite decide_True.
    + rewrite decide_False; [done | by intros [_ ?]].
Qed.


Definition rewritten (isChildAction : bool) (db : Database)
    (updates : list ModifiedMarcherPageArgs) (row : MarcherPage) : MarcherPage :=
  if decide (skipped isChildAction db row) then row else applyBatch updates row.

Lemma rewritten_keys b db updates row :
  id (rewritten b db updates row) = id row /\
  marcher_id (rewritten b db updates row) = marcher_id row /\
  page_id (rewritten b db updates row) = page_id row.
Proof.
  unfold rewritten. destruct (decide _); [done | apply applyBatch_keys].
Qed.

Lemma written_fmap {B} (f : MarcherPage -> B) b db updates :
  (forall row, f (rewritten b db updates row) = f row) ->
  f <$> written b db updates = f <$> marcher_pages db.
Proof.
  intros Hf. unfold written. rewrite <- list_fmap_compose.
  apply list_fmap_ext. intros i row _. apply Hf.
Qed.

Lemma written_wf b db updates :
  table_wf db ->
  table_wf (mkDatabase (written b db updates) (shape_page_marchers db)).
Proof.
  intros [Hids Hkeys]. split; cbn.
  - rewrite written_fmap; [done|]. intros row. apply rewritten_keys.
  - rewrite written_fmap; [done|]. intros row.
    destruct (rewritten_keys b db updates row) as (_ & -> & ->). done.
Qed.

(** X8.  [updateMarcherPages] only ever writes positions: on a table
    that satisfies its constraints and for a batch whose updates each name
    an existing MarcherPage, the call succeeds, child action or not, and
    the table afterwards has the same ids, marchers and pages in the same
    order, the same ShapePageMarcher records, and still satisfies its
    constraints. *)
Theorem updateMarcherPages_keeps_keys
    (db : Database) (updates : list ModifiedMarcherPageArgs) (isChildAction : bool) :
  table_wf db -> Forall (hasTarget db) updates ->
  exists response db',
    updateMarcherPages db updates isChildAction = Ok (response, db') /\
    table_wf db' /\
    shape_page_marchers db' = shape_page_marchers db /\
    id <$> marcher_pages db' = id <$> marcher_pages db /\
    marcher_id <$> marcher_pages db' = marcher_id <$> marcher_pages db /\
    page_id <$> marcher_pages db' = page_id <$> marcher_pages db.
Proof.
  intros Hwf Hall.
  destruct (updateMarcherPages_rows db updates isChildAction Hwf Hall) as [response Hrun].
  eexists _, _. split; [exact Hrun|].
  split; [by apply written_wf|]. split; [done|]. cbn.
  repeat split; apply written_fmap; intros row; apply rewritten_keys.
Qed.

(** X9.  Called as a child action, [updateMarcherPages] does not
    look at the locks: on a table that satisfies its constraints and for
    a batch whose updates each name an existing MarcherPage, the call
    succeeds, the ShapePageMarcher records stay as they are, and every
    MarcherPage, locked or not, takes the updates that name it, in
    order. *)
Theorem updateMarcherPages_child_ignores_locks
    (db : Database) (updates : list ModifiedMarcherPageArgs) :
  table_wf db -> Forall (hasTarget db) updates ->
  exists response db',
    updateMarcherPages db updates true = Ok (response, db') /\
    success response = true /\
    shape_page_marchers db' = shape_page_marchers db /\
    marcher_pages db' = applyBatch updates <$> marcher_pages db.
Proof.
  intros Hwf Hall.
  destruct (updateMarcherPages_rows db updates true Hwf Hall) as [response Hrun].
  eexists _, _. split; [exact Hrun|].
  split; [exact (updateMarcherPages_success _ _ _ _ _ Hrun)|]. split; [done|]. cbn.
  unfold written. apply list_fmap_ext. intros i row _.
  rewrite decide_False; [done | by intros [? _]].
Qed.

(** The error raised by reading [.id] of a row that was not found. *)
Definition missingRow : string :=
  "TypeError: Cannot read properties of undefined (reading 'id')".

Lemma collectUpdates_missing db b acc updates :
  Exists (fun u => ~ hasTarget db u) updates ->
  collectUpdates db b acc updates = Throw missingRow.
Proof.
  revert acc. induction updates as [|u us IH]; intros acc Hex.
  - by apply Exists_nil in Hex.
  - cbn. unfold collectUpdate.
    destruct (find _ _) as [row|] eqn:Hfind; [|done].
    apply find_Some_elem in Hfind as [Hin Ht%bool_decide_eq_true_1].
    apply Exists_cons in Hex as [Hu | Hex].
    { exfalso. apply Hu. by exists row. }
    destruct b; cbn.
    + by apply IH.
    + destruct (negb _); cbn; by apply IH.
Qed.

(** X10.  A batch with an update that names no row of the table is
    rejected as a whole: the id lookup throws a [TypeError] before
    anything is handed on to be written, so the updates that came earlier
    in the batch are not applied either. *)
Theorem updateMarcherPages_missing_row_throws
    (db : Database) (updates : list ModifiedMarcherPageArgs) (isChildAction : bool) :
  Exists (fun u => ~ hasTarget db u) updates ->
  updateMarcherPages db updates isChildAction = Throw missingRow.
Proof.
  intros Hex. unfold updateMarcherPages.
  by rewrite (collectUpdates_missing db isChildAction [] updates Hex).
Qed.

Lemma written_elem b db updates row :
  row ∈ marcher_pages db -> rewritten b db updates row ∈ written b db updates.
Proof. intros Hin. unfold written. apply list_elem_of_fmap. by exists row. Qed.

(** X11.  Writing then reading: on a table that satisfies its
    constraints and for a batch whose updates each name an existing
    MarcherPage, the call succeeds, and afterwards [getMarcherPage]
    answers for a MarcherPage of the table (nonzero ids) with the row as
    it was when the call skips it (it is locked and the call is not a
    child action), and otherwise with the position of the last update of
    the batch that names it; a row no update names is unchanged. *)
Theorem update_then_getMarcherPage
    (db : Database) (updates : list ModifiedMarcherPageArgs) (isChildAction : bool)
    (row : MarcherPage) :
  table_wf db -> Forall (hasTarget db) updates ->
  row ∈ marcher_pages db -> marcher_id row ≠ 0 -> page_id row ≠ 0 ->
  exists response db',
    updateMarcherPages db updates isChildAction = Ok (response, db') /\
    success response = true /\
    data (getMarcherPage db' (marcher_id row) (page_id row))
    = Some (if decide (skipped isChildAction db row) then row
            else from_option (fun u => moveTo u row) row
                   (last (filter (fun u => targets u row) updates))).
Proof.
  intros Hwf Hall Hin Hm Hp.
  destruct (updateMarcherPages_rows db updates isChildAction Hwf Hall) as [response Hrun].
  eexists _, _. split; [exact Hrun|].
  split; [exact (updateMarcherPages_success _ _ _ _ _ Hrun)|].
  rewrite <- applyBatch_last.
  apply getMarcherPage_lookup; [by apply written_wf | done..|].
  fold (rewritten isChildAction db updates row).
  destruct (rewritten_keys isChildAction db updates row) as (_ & -> & ->).
  split; [|done]. cbn. by apply written_elem.
Qed.




Lemma exampleDb_wf : table_wf exampleDb.
Proof. split; apply (bool_decide_unpack _); vm_compute; exact I. Qed.

Lemma exampleBatch_hasTarget : Forall (hasTarget exampleDb) exampleBatch.
Proof.
  repeat constructor.
  - exists (mkMarcherPage 10 1 1 0 0). split; [by left | done].
  - exists (mkMarcherPage 11 2 1 0 0). split; [by right; left | done].
Qed.

(** X7 on the example table: marcher 2 on page 1 is row 11. *)
Lemma getMarcherPage_finds_row_witness :
  data (getMarcherPage exampleDb 2 1) = Some (mkMarcherPage 11 2 1 0 0).
Proof.
  apply (getMarcherPage_finds_row exampleDb 2 1 (mkMarcherPage 11 2 1 0 0)
           exampleDb_wf); [done | done |].
  split; [by right; left | done].
Defined.

(** X8 on the example table and batch. *)
Lemma updateMarcherPages_keeps_keys_witness :
  exists response db',
    updateMarcherPages exampleDb exampleBatch false = Ok (response, db') /\
    id <$> marcher_pages db' = [10; 11].
Proof.
  destruct (updateMarcherPages_keeps_keys exampleDb exampleBatch false
              exampleDb_wf exampleBatch_hasTarget)
    as (response & db' & Hrun & _ & _ & Hids & _).
  exists response, db'. split; [exact Hrun | exact Hids].
Defined.

(** X9 on the example table and batch: the locked row moves too. *)
Lemma updateMarcherPages_child_ignores_locks_witness :
  exists response db',
    updateMarcherPages exampleDb exampleBatch true = Ok (response, db') /\
    marcher_pages db' = [mkMarcherPage 10 1 1 50 60; mkMarcherPage 11 2 1 70 80].
Proof.
  destruct (updateMarcherPages_child_ignores_locks exampleDb exampleBatch
              exampleDb_wf exampleBatch_hasTarget)
    as (response & db' & Hrun & _ & _ & Hrows).
  exists response, db'. split; [exact Hrun|].
  rewrite Hrows. reflexivity.
Defined.

(** X10 on a batch whose second update names marcher 3, who has no
    row. *)
Lemma updateMarcherPages_missing_row_throws_witness :
  updateMarcherPages exampleDb [mkModified 2 1 70 80; mkModified 3 1 5 5] false
  = Throw missingRow.
Proof.
  apply updateMarcherPages_missing_row_throws.
  apply Exists_cons_tl, Exists_cons_hd.
  intros (row & Hin & [Hm _]).
  repeat (apply elem_of_cons in Hin as [-> | Hin]; [discriminate Hm|]).
  by apply elem_of_nil in Hin.
Defined.

(** X11 on the example table, with two updates for the unlocked
    row: the later one is what is read back. *)
Lemma update_then_getMarcherPage_witness :
  exists response db',
    updateMarcherPages exampleDb [mkModified 2 1 70 80; mkModified 2 1 5 6] false
    = Ok (response, db') /\
    data (getMarcherPage db' 2 1) = Some (mkMarcherPage 11 2 1 5 6).
Proof.
  assert (Forall (hasTarget exampleDb) [mkModified 2 1 70 80; mkModified 2 1 5 6])
    as Hall.
  { repeat constructor;
      (exists (mkMarcherPage 11 2 1 0 0); split; [by right; left | done]). }
  assert (mkMarcherPage 11 2 1 0 0 ∈ marcher_pages exampleDb) as Hin
    by (by right; left).
  destruct (update_then_getMarcherPage exampleDb _ false _ exampleDb_wf Hall Hin)
    as (response & db' & Hrun & _ & Hget); [done | done |].
  exists response, db'. split; [exact Hrun | exact Hget].
Defined.


End MarcherPageTableMore.

(** ** Further properties of the vector export *)

Module SvgExportMore.
Import SvgExport SvgExportFacts.
Local Open Scope Q_scope.

(** The canvas fabric's serialiser is run on: identity transform, the
    field's dimensions, one repaint requested. *)
Definition exportView (c : Canvas) : Canvas :=
  requestRenderAll
    (setHeight (field_height (fieldProperties c))
       (setWidth (field_width (fieldProperties c))
          (setViewportTransform identityMatrix c))).

(** The options it is given: the field's dimensions and view box, unless
    the caller sets them. *)
Definition exportOptions (options : option CallerOptions) (c : Canvas) : SvgOptions :=
  mkSvgOptions
    (default (field_width (fieldProperties c)) (options ≫= opt_width))
    (default (field_height (fieldProperties c)) (options ≫= opt_height))
    (default (mkViewBox 0 0 (field_width (fieldProperties c))
                        (field_height (fieldProperties c)))
             (options ≫= opt_viewBox)).

Lemma number_truthy q : ~ q == 0 -> JS.truthy q = true.
Proof.
  intros Hq. unfold JS.truthy. destruct (Qeq_bool q 0) eqn:E; [|done].
  apply Qeq_bool_iff in E. done.
Qed.

(** X13.  When fabric's serialisation returns, [toSVG] is a round trip on
    the canvas: for a canvas with a viewport matrix and nonzero
    dimensions, the canvas left behind is the one handed in, with two
    repaints requested and nothing else changed, and the result is the
    string fabric produced for the canvas at the identity transform and
    the field's dimensions. *)
Theorem toSVG_success_round_trip
    (superToSVG : Canvas -> SvgOptions -> Result string)
    (options : option CallerOptions) (c : Canvas) (m : Matrix) (svg : string) :
  viewportTransform c = Some m ->
  ~ width c == 0 -> ~ height c == 0 ->
  superToSVG (exportView c) (exportOptions options c) = Returns svg ->
  toSVG superToSVG options c
  = (mkCanvas (Some m) (width c) (height c) (fieldProperties c)
              (S (S (renderRequests c))) (consoleErrors c),
     Returns svg).
Proof.
  intros Hm Hw Hh Hsvg. unfold toSVG. cbv zeta.
  unfold exportView, exportOptions in Hsvg. cbn in Hsvg |- *.
  rewrite Hsvg, Hm. cbn. unfold orElse.
  by rewrite (number_truthy _ Hw), (number_truthy _ Hh).
Qed.

(** A serialisation that reports the size of the canvas it is run on. *)
Definition sizeToSVG (c : Canvas) (o : SvgOptions) : Result string :=
  if Qeq_bool (width c) 1600 && Qeq_bool (height c) 800
  then Returns "field-sized" else Returns "window-sized".

(** X13 on the zoomed and panned example canvas. *)
Lemma toSVG_success_round_trip_witness :
  toSVG sizeToSVG None zoomedCanvas
  = (mkCanvas (Some (mkMatrix 2 0 0 2 10 10)) 800 600 (mkField 1600 800) 2 0,
     Returns "field-sized").
Proof.
  apply (toSVG_success_round_trip sizeToSVG None zoomedCanvas
           (mkMatrix 2 0 0 2 10 10) "field-sized" eq_refl).
  - vm_compute; discriminate.
  - vm_compute; discriminate.
  - reflexivity.
Defined.

End SvgExportMore.

(** ** Further properties of the settings methods *)

Module SettingsMore.
Import Settings SettingsFacts.
Local Open Scope Q_scope.

(** X14.  Applying the same settings a second time changes nothing: the
    canvas after the second [setUiSettings] is the canvas after the first;
    in particular the grid is not rebuilt again. *)
Theorem setUiSettings_idempotent (new : UiSettings) (c : Canvas) :
  setUiSettings new (setUiSettings new c) = setUiSettings new c.
Proof.
  unfold setUiSettings. cbv zeta.
  destruct (negb (eqb (gridLines (uiSettings c)) (gridLines new))
            || negb (eqb (halfLines (uiSettings c)) (halfLines new))) eqn:E;
    cbn; rewrite !eqb_reflx; cbn.
  all: destruct (activeObject c); cbn.
  all: destruct (trackpadModeEnabled c), (trackpadMode (mouseSettings new)); cbn.
  all: destruct (truthy (panSensitivity_setting (mouseSettings new)));
       destruct (truthy (trackpadPanSensitivity_setting (mouseSettings new)));
       destruct (truthy (zoomSensitivity_setting (mouseSettings new)));
       reflexivity.
Qed.

(** A sensitivity the settings leave out, or give as [0]. *)
Definition unset (v : option Q) : Prop :=
  match v with
  | None => True
  | Some q => q == 0
  end.

Lemma truthy_unset v : unset v -> truthy v = false.
Proof.
  destruct v as [q|]; cbn; [|done]. intros Hq. unfold JS.truthy.
  apply negb_false_iff. by apply Qeq_bool_iff.
Qed.

(** X15.  [setUiSettings] tests the sensitivities of the settings for
    truthiness: one that is left out or is [0] leaves the coefficient of
    the canvas as it was. *)
Theorem setUiSettings_ignores_zero_sensitivity (new : UiSettings) (c : Canvas) :
  let ms := mouseSettings new in
  let c' := setUiSettings new c in
  (unset (panSensitivity_setting ms) -> panSensitivity c' = panSensitivity c) /\
  (unset (trackpadPanSensitivity_setting ms) ->
     trackpadPanSensitivity c' = trackpadPanSensitivity c) /\
  (unset (zoomSensitivity_setting ms) -> zoomSensitivity c' = zoomSensitivity c).
Proof.
  cbv zeta. unfold setUiSettings. cbv zeta.
  repeat split; intros Hu%truthy_unset;
    destruct (_ || _); cbn; by rewrite Hu.
Qed.

Lemma clamp_in_range lo hi v :
  lo <= v -> v <= hi -> Qmax lo (Qmin hi v) == v.
Proof.
  intros Hlo Hhi.
  destruct (Q.min_spec hi v) as [[H1 E1]|[H1 E1]];
    destruct (Q.max_spec lo (Qmin hi v)) as [[H2 E2]|[H2 E2]];
    rewrite E2; rewrite E1 in *; try reflexivity; apply Qle_antisym; lra.
Qed.

Lemma clamp_below lo hi v : lo <= hi -> v <= lo -> Qmax lo (Qmin hi v) == lo.
Proof.
  intros Hlh Hv.
  destruct (Q.min_spec hi v) as [[H1 E1]|[H1 E1]];
    destruct (Q.max_spec lo (Qmin hi v)) as [[H2 E2]|[H2 E2]];
    rewrite E2; rewrite E1 in *; try reflexivity; apply Qle_antisym; lra.
Qed.

Lemma clamp_above lo hi v : lo <= hi -> hi <= v -> Qmax lo (Qmin hi v) == hi.
Proof.
  intros Hlh Hv.
  destruct (Q.min_spec hi v) as [[H1 E1]|[H1 E1]];
    destruct (Q.max_spec lo (Qmin hi v)) as [[H2 E2]|[H2 E2]];
    rewrite E2; rewrite E1 in *; try reflexivity; apply Qle_antisym; lra.
Qed.

(** The value a clamp to [[lo, hi]] gives. *)
Definition nearest (lo hi v : Q) : Q :=
  if Qle_bool v lo then lo else if Qle_bool hi v then hi else v.

Lemma clamp_nearest lo hi v : lo <= hi -> Qmax lo (Qmin hi v) == nearest lo hi v.
Proof.
  intros Hlh. unfold nearest.
  destruct (Qle_bool v lo) eqn:E1.
  { apply Qle_bool_iff in E1. by apply clamp_below. }
  destruct (Qle_bool hi v) eqn:E2.
  { apply Qle_bool_iff in E2. by apply clamp_above. }
  apply clamp_in_range.
  - destruct (Qlt_le_dec v lo) as [H|H]; [|done].
    apply Qlt_le_weak, Qle_bool_iff in H. congruence.
  - destruct (Qlt_le_dec hi v) as [H|H]; [|done].
    apply Qlt_le_weak, Qle_bool_iff in H. congruence.
Qed.

(** The three sensitivity setters store the value of their range
    nearest to the one given: the lower bound for a value at or below it,
    the upper bound for one at or above it, the value itself in between
    (ranges [[0.1, 3]] for the two pan coefficients and [[0.01, 0.5]] for
    the zoom coefficient). *)
Lemma sensitivity_setters_clamp (value : Q) (c : Canvas) :
  panSensitivity (setPanSensitivity value c) == nearest (1 # 10) 3 value /\
  trackpadPanSensitivity (setTrackpadPanSensitivity value c)
    == nearest (1 # 10) 3 value /\
  zoomSensitivity (setZoomSensitivity value c) == nearest (1 # 100) (5 # 10) value.
Proof.
  cbn. repeat split; apply clamp_nearest; lra.
Qed.

(** A sensitivity of the settings that is left out, given as [0], or
    within [[lo, hi]]. *)
Definition unset_or_within (lo hi : Q) (v : option Q) : Prop :=
  match v with
  | None => True
  | Some q => q == 0 \/ (lo <= q /\ q <= hi)
  end.

Lemma copied_within lo hi v old :
  unset_or_within lo hi v -> lo <= old /\ old <= hi ->
  let new := if truthy v then default 0 v else old in
  lo <= new /\ new <= hi.
Proof.
  intros Hv Hold. cbv zeta.
  destruct v as [q|]; cbn; [|done].
  unfold JS.truthy. destruct (Qeq_bool q 0) eqn:E; cbn; [done|].
  destruct Hv as [Hz|Hr]; [|done].
  apply Qeq_bool_iff in Hz. congruence.
Qed.

(** X16.  [setUiSettings] keeps the three coefficients within their
    ranges as long as the settings do: when every sensitivity of the
    settings is left out, [0], or within its range, a canvas whose
    coefficients are in range stays so. *)
Theorem setUiSettings_keeps_range (new : UiSettings) (c : Canvas) :
  sensitivities_in_range c ->
  unset_or_within (1 # 10) 3 (panSensitivity_setting (mouseSettings new)) ->
  unset_or_within (1 # 10) 3 (trackpadPanSensitivity_setting (mouseSettings new)) ->
  unset_or_within (1 # 100) (5 # 10) (zoomSensitivity_setting (mouseSettings new)) ->
  sensitivities_in_range (setUiSettings new c).
Proof.
  intros (Hp & Ht & Hz) Hsp Hst Hsz.
  unfold sensitivities_in_range, setUiSettings. cbv zeta.
  destruct (_ || _); cbn.
  all: split; [by apply copied_within|]; split; by apply copied_within.
Qed.

(** X16 on the default canvas, with settings that give a pan
    sensitivity of 2, a zoom sensitivity of 0 and no trackpad sensitivity. *)
Lemma setUiSettings_keeps_range_witness :
  sensitivities_in_range
    (setUiSettings
       (mkUiSettings false false true true
          (mkMouseSettings false None (Some 0) (Some 2) true))
       defaultCanvas).
Proof.
  apply setUiSettings_keeps_range.
  - unfold sensitivities_in_range; cbn. repeat split; vm_compute; discriminate.
  - right. split; vm_compute; discriminate.
  - exact I.
  - left. reflexivity.
Defined.

End SettingsMore.

(** ** Properties of the gesture handlers *)

Module GesturesFacts.
Import Viewport ViewportFacts ViewportMore Gestures.
Local Open Scope Q_scope.

Lemma Qabs_ge_10_pos q : 10 <= Qabs q -> 0 < Qabs q.
Proof. intros H. lra. Qed.

(** X17.  The delta tests of [isMacTrackpadGesture] never reject an
    event: on macOS with trackpad mode on, every wheel event in pixel mode
    counts as a trackpad gesture, whatever its deltas, and no other event
    does.  (Deltas of size 10 or more in both directions are not
    "precise", but then both are nonzero.) *)
Theorem trackpad_gesture_is_pixel_mode (e : WheelEvent) (s : State) :
  isMacTrackpadGesture e s
  = isMacOS s && trackpadModeEnabled s && (deltaMode e =? 0)%Z.
Proof.
  unfold isMacTrackpadGesture.
  destruct (isMacOS s); cbn; [|done].
  destruct (trackpadModeEnabled s); cbn; [|done].
  destruct (deltaMode e =? 0)%Z; cbn; [|done].
  destruct (JS.ltb (Qabs (deltaY e)) 10) eqn:Hy; [done|].
  destruct (JS.ltb (Qabs (deltaX e)) 10) eqn:Hx; [done|].
  ltb_props. cbn.
  assert (JS.ltb 0 (Qabs (deltaX e)) = true) as ->
    by (apply JSFacts.ltb_lt; lra).
  assert (JS.ltb 0 (Qabs (deltaY e)) = true) as ->
    by (apply JSFacts.ltb_lt; lra).
  done.
Qed.

Lemma disableCaching_canvas s : canvas (disableCaching s) = canvas s.
Proof. unfold disableCaching. by destruct (objectCaching s). Qed.

Lemma disableCaching_off s : objectCaching (disableCaching s) = false.
Proof. unfold disableCaching. by destruct (objectCaching s) eqn:E. Qed.

(** The sensitivity [handleContainerWheel] pans with. *)
Definition wheelPanSensitivity (s : State) : Q :=
  if isMacOS s && trackpadModeEnabled s
  then trackpadPanSensitivity s else panSensitivity s.

Lemma panContainer_translate deltaX deltaY c :
  is_Some (cssZoomWrapper c) ->
  let t := transformValues c in
  let t' := transformValues (panContainer deltaX deltaY c) in
  translateX t' = translateX t + applyInertia deltaX /\
  translateY t' = translateY t + applyInertia deltaY /\
  scale t' = scale t.
Proof.
  intros [w Hw]. cbv zeta. unfold panContainer. rewrite Hw. cbv zeta.
  transform_simpl. done.
Qed.

(** X18.  A wheel event without Ctrl or Cmd never zooms: both wheel
    handlers leave the scale alone, and on a canvas with its container
    [handleContainerWheel] moves the translation by the damped deltas,
    negated and multiplied by the trackpad sensitivity on macOS in
    trackpad mode and by the pan sensitivity otherwise. *)
Theorem wheel_without_modifier_pans (e : WheelEvent) (s : State) :
  ctrlKey e = false -> metaKey e = false ->
  is_Some (cssZoomWrapper (canvas s)) ->
  let t := transformValues (canvas s) in
  let t' := transformValues (canvas (handleContainerWheel e s)) in
  scale t' = scale t /\
  translateX t' = translateX t + applyInertia (- deltaX e * wheelPanSensitivity s) /\
  translateY t' = translateY t + applyInertia (- deltaY e * wheelPanSensitivity s) /\
  scale (transformValues (canvas (handleMacOSTrackpad e s))) = scale t.
Proof.
  intros Hc Hm Hw. cbv zeta.
  unfold handleContainerWheel, handleMacOSTrackpad, wheelPanSensitivity. cbv zeta.
  rewrite Hc, Hm. cbn [orb].
  assert (forall dx dy,
            let t' := transformValues (panContainer dx dy (canvas (disableCaching s))) in
            scale t' = scale (transformValues (canvas s)) /\
            translateX t' = translateX (transformValues (canvas s)) + applyInertia dx /\
            translateY t' = translateY (transformValues (canvas s)) + applyInertia dy)
    as Hpan.
  { intros dx dy. rewrite disableCaching_canvas.
    destruct (panContainer_translate dx dy (canvas s) Hw) as (? & ? & ?). done. }
  assert (isMacOS (disableCaching s) = isMacOS s) as -> 
    by (unfold disableCaching; by destruct (objectCaching s)).
  assert (trackpadModeEnabled (disableCaching s) = trackpadModeEnabled s) as ->
    by (unfold disableCaching; by destruct (objectCaching s)).
  assert (trackpadPanSensitivity (disableCaching s) = trackpadPanSensitivity s) as ->
    by (unfold disableCaching; by destruct (objectCaching s)).
  assert (panSensitivity (disableCaching s) = panSensitivity s) as ->
    by (unfold disableCaching; by destruct (objectCaching s)).
  repeat split.
  1-3: destruct (isMacOS s && trackpadModeEnabled s); cbn; apply Hpan.
  destruct (isMacOS s); cbn; [|done].
  destruct (isMacTrackpadGesture e s); cbn; [|done].
  by rewrite panContainer_scale, disableCaching_canvas.
Qed.

Lemma smoothZoomFactor_half e s :
  (1 + smoothZoomFactor e s) / 2
  == 1 + (if JS.ltb (deltaY e) 0 then 1 else -1) * (zoomSensitivity s / 2).
Proof. unfold smoothZoomFactor. destruct (JS.ltb (deltaY e) 0); field. Qed.

(** X19.  With Ctrl or Cmd held, [handleContainerWheel] zooms by
    half the zoom sensitivity per event: on an attached canvas with its
    scale [s] within the limits, the scale afterwards is within 0.0001 of
    [clamp (s * (1 + z / 2))] for an event with [deltaY < 0] and of
    [clamp (s * (1 - z / 2))] for any other, an event with [deltaY = 0]
    included. *)
Theorem wheel_with_modifier_zooms (e : WheelEvent) (s : State) :
  ctrlKey e || metaKey e = true ->
  attached (canvas s) -> scale_in_limits (canvas s) ->
  let direction := if JS.ltb (deltaY e) 0 then 1 else -1 in
  let target :=
    clampZoom (scale (transformValues (canvas s))
               * (1 + direction * (zoomSensitivity s / 2))) in
  Qabs (scale (transformValues (canvas (handleContainerWheel e s))) - target)
    < 1 # 10000.
Proof.
  intros Hmod Hatt Hlim. cbv zeta.
  unfold handleContainerWheel. cbv zeta. rewrite Hmod.
  assert (canvas
            (restartZoomTimeout
               (if isMacOS (disableCaching s) && trackpadModeEnabled (disableCaching s)
                then on_canvas (zoomContainer (smoothZoomFactor e (disableCaching s))
                                  (clientX e) (clientY e)) (disableCaching s)
                else on_canvas (zoomContainer (smoothZoomFactor e (disableCaching s))
                                  (clientX e) (clientY e)) (disableCaching s)))
          = zoomContainer (smoothZoomFactor e s) (clientX e) (clientY e) (canvas s))
    as ->.
  { assert (smoothZoomFactor e (disableCaching s) = smoothZoomFactor e s) as ->
      by (unfold disableCaching; by destruct (objectCaching s)).
    destruct (_ && _); cbn; by rewrite disableCaching_canvas. }
  destruct (zoomContainer_scale_formula (canvas s) (smoothZoomFactor e s)
              (clientX e) (clientY e) Hatt Hlim) as [Hnear _].
  cbv zeta in Hnear.
  assert (clampZoom (scale (transformValues (canvas s))
                     * (1 + (if JS.ltb (deltaY e) 0 then 1 else -1)
                            * (zoomSensitivity s / 2)))
          == clampZoom (scale (transformValues (canvas s))
                        * ((1 + smoothZoomFactor e s) / 2))) as ->.
  { apply clampZoom_proper. by rewrite smoothZoomFactor_half. }
  exact Hnear.
Qed.

Lemma viewport_updateFabric_some c :
  is_Some (viewportTransform c) ->
  is_Some (viewportTransform (updateFabricViewportFromContainer c)).
Proof.
  intros [m Hm]. unfold updateFabricViewportFromContainer.
  destruct (cssZoomWrapper c); rewrite ?Hm; by eexists.
Qed.

Lemma step_keeps_viewport c g :
  is_Some (viewportTransform c) -> is_Some (viewportTransform (step c g)).
Proof.
  intros Hv. destruct g; cbn [step].
  - by rewrite viewport_zoomContainer.
  - unfold panContainer. destruct (cssZoomWrapper c); [|done]. cbv zeta.
    apply viewport_updateFabric_some.
    by rewrite viewport_applyContainerTransform, viewport_set_transition.
  - unfold fitToScreen. destruct (cssZoomWrapper c); [|done]. cbv zeta.
    apply viewport_updateFabric_some.
    by rewrite viewport_applyContainerTransform, viewport_set_transition.
  - unfold resetZoom. cbv zeta. apply viewport_updateFabric_some.
    by rewrite viewport_applyContainerTransform.
Qed.

(** Each wheel event is one viewport operation. *)
Definition wheelGesture (e : WheelEvent) (s : State) : Gesture :=
  if ctrlKey e || metaKey e
  then Zoom (smoothZoomFactor e s) (clientX e) (clientY e)
  else Pan (- deltaX e * wheelPanSensitivity s) (- deltaY e * wheelPanSensitivity s).

Lemma wheel_canvas e s :
  canvas (handleContainerWheel e s) = step (canvas s) (wheelGesture e s) /\
  objectCaching (handleContainerWheel e s) = false /\
  zoomTimeout (handleContainerWheel e s) = true.
Proof.
  unfold handleContainerWheel, wheelGesture, wheelPanSensitivity, smoothZoomFactor.
  cbv zeta. unfold disableCaching.
  destruct (objectCaching s) eqn:Ec; cbn;
    destruct (isMacOS s && trackpadModeEnabled s);
    destruct (ctrlKey e || metaKey e); cbn; by rewrite ?Ec.
Qed.

(** A burst of wheel events handled by [handleContainerWheel]. *)
Definition wheels (es : list WheelEvent) (s : State) : State :=
  foldl (fun s e => handleContainerWheel e s) s es.

Lemma wheels_keep es s :
  is_Some (cssZoomWrapper (canvas s)) -> is_Some (viewportTransform (canvas s)) ->
  is_Some (cssZoomWrapper (canvas (wheels es s))) /\
  is_Some (viewportTransform (canvas (wheels es s))).
Proof.
  unfold wheels. revert s. induction es as [|e es IH]; intros s Hw Hv; cbn; [done|].
  destruct (wheel_canvas e s) as (Hc & _ & _).
  apply IH; rewrite Hc.
  - by apply step_keeps_container.
  - by apply step_keeps_viewport.
Qed.

(** X20.  The grid cache is switched back on once per burst of
    wheel events: after any number of events (one at least) the grid's
    object caching is off and one timer is pending; when the timer
    expires, caching is on again, no timer is pending, fabric's matrix
    agrees with the container's transform, which the expiry does not
    change, and a further expiry does nothing. *)
Theorem wheel_debounce (es : list WheelEvent) (e : WheelEvent) (s : State) :
  is_Some (cssZoomWrapper (canvas s)) -> is_Some (viewportTransform (canvas s)) ->
  let s1 := wheels (es ++ [e]) s in
  let s2 := zoomTimeoutFired s1 in
  (objectCaching s1 = false /\ zoomTimeout s1 = true) /\
  (objectCaching s2 = true /\ zoomTimeout s2 = false) /\
  committed (canvas s2) /\
  transformValues (canvas s2) = transformValues (canvas s1) /\
  zoomTimeoutFired s2 = s2.
Proof.
  intros Hw Hv s1 s2.
  destruct (wheels_keep (es ++ [e]) s Hw Hv) as [[w1 Hw1] [m1 Hm1]]. fold s1 in Hw1, Hm1.
  assert (objectCaching s1 = false /\ zoomTimeout s1 = true) as [Hc Ht].
  { unfold s1, wheels. rewrite foldl_app. cbn.
    destruct (wheel_canvas e (foldl (fun s e => handleContainerWheel e s) s es))
      as (_ & ? & ?). done. }
  split; [done|].
  unfold s2, zoomTimeoutFired. rewrite Ht. cbn. rewrite Hc. cbn.
  split; [done|]. split; [|split; [|done]].
  - by destruct (commit_after_update (canvas s1) w1 m1 Hw1 Hm1).
  - by rewrite transform_updateFabricViewport.
Qed.

Lemma last_cons_default {A} (a : A) (l : list A) (d : A) :
  List.last (a :: l) d = List.last l a.
Proof.
  revert a d. induction l as [|b l IH]; intros a d; [done|].
  change (List.last (a :: b :: l) d) with (List.last (b :: l) d).
  by rewrite !IH.
Qed.

Lemma applyInertia_forward delta :
  0 <= delta ->
  (3 # 10) * delta <= applyInertia delta /\ applyInertia delta <= (6 # 10) * delta.
Proof.
  intros Hpos. unfold applyInertia, JS.sign.
  assert (JS.ltb delta 0 = false) as -> by (by apply JSFacts.ltb_ge).
  assert (Qabs delta == delta) as Ha by (by apply Qabs_pos).
  ltb_cases; rewrite ?Ha in *; nra.
Qed.

(** The cursor never moves left: each position is at or right of the one
    before. *)
Fixpoint forward (x : Q) (xs : list Q) : Prop :=
  match xs with
  | [] => True
  | x' :: rest => x <= x' /\ forward x' rest
  end.

(** The mouse moves of a drag. *)
Definition moves (es : list MouseEvent) (s : State) : State :=
  foldl (fun s e => handleContainerMouseMove e s) s es.

(** A mouse drag: button down, the moves, button up. *)
Definition drag (down : MouseEvent) (es : list MouseEvent) (s : State) : State :=
  handleContainerMouseUp (moves es (handleContainerMouseDown down s)).

Lemma moves_forward es s :
  isPanning s = true -> is_Some (cssZoomWrapper (canvas s)) ->
  forward (lastPosX s) (mouse_clientX <$> es) ->
  let s' := moves es s in
  let travelled := List.last (mouse_clientX <$> es) (lastPosX s) - lastPosX s in
  let t := transformValues (canvas s) in
  let t' := transformValues (canvas s') in
  isPanning s' = true /\ is_Some (cssZoomWrapper (canvas s')) /\
  scale t' = scale t /\
  (3 # 10) * travelled <= translateX t' - translateX t /\
  translateX t' - translateX t <= (6 # 10) * travelled.
Proof.
  unfold moves. revert s. induction es as [|e es IH]; intros s Hp Hw Hf; cbv zeta.
  - cbn. repeat split; try done; lra.
  - cbn [fmap list_fmap] in Hf. destruct Hf as [Hle Hf].
    cbn [foldl].
    set (s1 := handleContainerMouseMove e s).
    assert (s1 = set_lastPos (mouse_clientX e) (mouse_clientY e)
                   (on_canvas (panContainer (mouse_clientX e - lastPosX s)
                                            (mouse_clientY e - lastPosY s)) s)) as Hs1.
    { unfold s1, handleContainerMouseMove. by rewrite Hp. }
    destruct (panContainer_translate (mouse_clientX e - lastPosX s)
                (mouse_clientY e - lastPosY s) (canvas s) Hw) as (Hx & _ & Hsc).
    assert (canvas s1 = panContainer (mouse_clientX e - lastPosX s)
                          (mouse_clientY e - lastPosY s) (canvas s)) as Hc1
      by (by rewrite Hs1).
    assert (isPanning s1 = true) as Hp1 by (by rewrite Hs1).
    assert (lastPosX s1 = mouse_clientX e) as Hl1 by (by rewrite Hs1).
    assert (is_Some (cssZoomWrapper (canvas s1))) as Hw1.
    { rewrite Hc1. by apply (step_keeps_container _ (Pan _ _)). }
    rewrite <- Hl1 in Hf.
    destruct (IH s1 Hp1 Hw1 Hf) as (Hp' & Hw' & Hsc' & Hlo & Hhi).
    split; [exact Hp'|]. split; [exact Hw'|].
    rewrite Hc1 in Hsc', Hlo, Hhi. rewrite Hsc, Hx in *.
    split; [by rewrite Hsc'|].
    destruct (applyInertia_forward (mouse_clientX e - lastPosX s)) as [Ilo Ihi]; [lra|].
    assert (List.last (mouse_clientX <$> e :: es) (lastPosX s)
            = List.last (mouse_clientX <$> es) (lastPosX s1)) as ->.
    { rewrite Hl1. cbn [fmap list_fmap]. apply last_cons_default. }
    rewrite Hl1 in *. split; lra.
Qed.

(** X21.  A mouse drag moves the view less than the cursor.  For a
    drag started with the middle button or with Alt, on a canvas with its
    container, during which the cursor never moves left: when the button
    is released panning is over, the scale is what it was, and the view
    has moved right by between 30% and 60% of the distance the cursor has
    travelled. *)
Theorem drag_lags_cursor (down : MouseEvent) (es : list MouseEvent) (s : State) :
  (button down =? 1)%Z || altKey down = true ->
  is_Some (cssZoomWrapper (canvas s)) ->
  forward (mouse_clientX down) (mouse_clientX <$> es) ->
  let s' := drag down es s in
  let travelled :=
    List.last (mouse_clientX <$> es) (mouse_clientX down) - mouse_clientX down in
  let t := transformValues (canvas s) in
  let t' := transformValues (canvas s') in
  isPanning s' = false /\ scale t' = scale t /\
  (3 # 10) * travelled <= translateX t' - translateX t /\
  translateX t' - translateX t <= (6 # 10) * travelled.
Proof.
  intros Hb Hw Hf. cbv zeta. unfold drag.
  set (s0 := handleContainerMouseDown down s).
  assert (s0 = set_body_cursor "grabbing"
                 (set_lastPos (mouse_clientX down) (mouse_clientY down)
                    (set_isPanning true s))) as Hs0
    by (unfold s0, handleContainerMouseDown; by rewrite Hb).
  assert (canvas s0 = canvas s) as Hc0 by (by rewrite Hs0).
  assert (lastPosX s0 = mouse_clientX down) as Hl0 by (by rewrite Hs0).
  assert (isPanning s0 = true) as Hp0 by (by rewrite Hs0).
  rewrite <- Hc0 in Hw. rewrite <- Hl0 in Hf.
  destruct (moves_forward es s0 Hp0 Hw Hf) as (Hp & _ & Hsc & Hlo & Hhi).
  rewrite Hc0, Hl0 in *.
  unfold handleContainerMouseUp. rewrite Hp. cbn.
  rewrite transform_updateFabricViewport. done.
Qed.

Section Pinch.

Variable hypot : Q -> Q -> Q.

(** A two-finger move whose finger distance differs from the
    recorded one by 10 pixels or less does not zoom: the scale and the
    recorded distance stay, and the reference point becomes the midpoint
    of the two touches. *)
Lemma pinch_below_threshold (touch1 touch2 : Touch) (s : State) :
  let distance := hypot (touch_clientX touch2 - touch_clientX touch1)
                        (touch_clientY touch2 - touch_clientY touch1) in
  Qabs (distance - initialPinchDistance s) <= 10 ->
  let s' := handleContainerTouchMove hypot [touch1; touch2] s in
  scale (transformValues (canvas s')) = scale (transformValues (canvas s)) /\
  initialPinchDistance s' = initialPinchDistance s /\
  lastPosX s' = (touch_clientX touch1 + touch_clientX touch2) / 2 /\
  lastPosY s' = (touch_clientY touch1 + touch_clientY touch2) / 2.
Proof.
  intros distance Hd s'. subst s'. unfold handleContainerTouchMove. cbv zeta.
  fold distance.
  assert (JS.ltb 10 (Qabs (distance - initialPinchDistance s)) = false) as ->
    by (by apply JSFacts.ltb_ge).
  cbn. by rewrite panContainer_scale.
Qed.

End Pinch.

(** A canvas in its container on macOS, trackpad mode on, with the default
    sensitivities. *)
Definition exampleState : State :=
  mkState (initial (Some (mkDiv (Some (mkRect 0 0)) "" None)) (mkField 1600 800))
          true true (5 # 10) (3 # 100) (5 # 10) true false false 0 0 0 "".

(** X18 on a scroll by (4, -20): the view moves by (-1.2, 4). *)
Lemma wheel_without_modifier_pans_witness :
  let e := mkWheelEvent 4 (-20) 0 false false 100 100 in
  let t' := transformValues (canvas (handleContainerWheel e exampleState)) in
  scale t' = 1 /\ translateX t' == - (12 # 10) /\ translateY t' == 4.
Proof.
  intros e t'.
  destruct (wheel_without_modifier_pans e exampleState eq_refl eq_refl)
    as (Hs & Hx & Hy & _); [by eexists|].
  fold t' in Hs, Hx, Hy. rewrite Hs, Hx, Hy.
  split; [reflexivity|]. split; vm_compute; reflexivity.
Defined.

(** X19 on Ctrl with a scroll up by 10 at scale 1. *)
Lemma wheel_with_modifier_zooms_witness :
  let e := mkWheelEvent 0 (-10) 0 true false 100 100 in
  Qabs (scale (transformValues (canvas (handleContainerWheel e exampleState)))
        - clampZoom (1 * (1 + 1 * ((3 # 100) / 2)))) < 1 # 10000.
Proof.
  intros e.
  assert (attached (canvas exampleState)) as Hatt
    by (eexists _, _; split; reflexivity).
  assert (scale_in_limits (canvas exampleState)) as Hlim
    by (split; vm_compute; discriminate).
  exact (wheel_with_modifier_zooms e exampleState eq_refl Hatt Hlim).
Defined.

(** X20 on two wheel events. *)
Lemma wheel_debounce_witness :
  let e1 := mkWheelEvent 0 (-10) 0 true false 100 100 in
  let e2 := mkWheelEvent 4 (-20) 0 false false 100 100 in
  let s2 := zoomTimeoutFired (wheels [e1; e2] exampleState) in
  objectCaching s2 = true /\ committed (canvas s2).
Proof.
  intros e1 e2 s2.
  destruct (wheel_debounce [e1] e2 exampleState) as (_ & [Hc _] & Hm & _);
    [by eexists | by eexists |].
  split; [exact Hc | exact Hm].
Defined.

(** X21 on a drag from x = 100 over 104 to 130: the view moves right by
    between 9 and 18 pixels. *)
Lemma drag_lags_cursor_witness :
  let down := mkMouseEvent 1 false 100 50 in
  let es := [mkMouseEvent 1 false 104 50; mkMouseEvent 1 false 130 50] in
  let t' := transformValues (canvas (drag down es exampleState)) in
  (3 # 10) * (130 - 100) <= translateX t' - 0 /\
  translateX t' - 0 <= (6 # 10) * (130 - 100).
Proof.
  intros down es t'.
  destruct (drag_lags_cursor down es exampleState eq_refl) as (_ & _ & Hlo & Hhi).
  - by eexists.
  - cbn. split; [|split]; [vm_compute; discriminate..|exact I].
  - split; [exact Hlo | exact Hhi].
Defined.

(** A stand-in for [Math.hypot] that agrees with it when one argument is
    zero. *)
Definition hypotOnAxis (a b : Q) : Q := Qabs a + Qabs b.

(** On two touches 100 pixels apart that both move by 6 pixels to
    the right, the recorded distance being 100. *)
Example pinch_below_threshold_example :
  let s := set_initialPinchDistance 100 (set_lastPos 150 50 exampleState) in
  let s' := handleContainerTouchMove hypotOnAxis [mkTouch 106 50; mkTouch 206 50] s in
  scale (transformValues (canvas s')) = 1 /\ initialPinchDistance s' = 100.
Proof.
  intros s s'.
  destruct (pinch_below_threshold hypotOnAxis (mkTouch 106 50) (mkTouch 206 50) s)
    as (Hs & Hd & _); [vm_compute; discriminate|].
  split; [exact Hs | exact Hd].
Defined.

End GesturesFacts.

(** ** Properties of the background image placement *)

Module BackgroundImageFacts.
Import MarcherPageTable BackgroundImage.
Local Open Scope Q_scope.

(** The image, scaled and offset, as it lies on the field. *)
Definition placedWidth (image : Image) (v : BgImageValues) : Q :=
  image_width image * scale v.
Definition placedHeight (image : Image) (v : BgImageValues) : Q :=
  image_height image * scale v.

(** The scaled image is centred on the field. *)
Definition centred (fp : FieldProperties) (image : Image) (v : BgImageValues) : Prop :=
  left v + placedWidth image v / 2 == width fp / 2 /\
  top v + placedHeight image v / 2 == height fp / 2.

(** Sizes that can be divided by. *)
Definition positive_sizes (fp : FieldProperties) (image : Image) : Prop :=
  0 < width fp /\ 0 < height fp /\ 0 < image_width image /\ 0 < image_height image.

Lemma ratio_lt W H iw ih :
  0 < H -> 0 < ih -> (W / H < iw / ih <-> W * ih < iw * H).
Proof.
  intros HH Hih.
  assert (0 < H * ih) as HK by nra.
  assert (W * ih == W / H * (H * ih)) as -> by (field; lra).
  assert (iw * H == iw / ih * (H * ih)) as -> by (field; lra).
  symmetry. by apply Qmult_lt_r.
Qed.

Lemma ratio_le W H iw ih :
  0 < H -> 0 < ih -> (iw / ih <= W / H <-> iw * H <= W * ih).
Proof.
  intros HH Hih. split; intros Hle.
  - apply Qnot_lt_le. intros Hlt. apply (ratio_lt W H iw ih HH Hih) in Hlt.
    apply (Qlt_not_le _ _ Hlt Hle).
  - apply Qnot_lt_le. intros Hlt. apply (ratio_lt W H iw ih HH Hih) in Hlt.
    apply (Qlt_not_le _ _ Hlt Hle).
Qed.

Lemma scaled_le a b c d : 0 < c -> a * b <= d * c -> a * (b / c) <= d.
Proof.
  intros Hc Hle. assert (a * (b / c) == a * b / c) as -> by (field; lra).
  by apply Qle_shift_div_r.
Qed.

Lemma scaled_ge a b c d : 0 < c -> d * c <= a * b -> d <= a * (b / c).
Proof.
  intros Hc Hle. assert (a * (b / c) == a * b / c) as -> by (field; lra).
  by apply Qle_shift_div_l.
Qed.

Lemma scaled_self a b : 0 < a -> a * (b / a) == b.
Proof. intros Ha. field. lra. Qed.

Lemma not_fill_eqb fp : imageFillOrFit fp <> "fill" ->
  String.eqb (imageFillOrFit fp) "fill" = false.
Proof. intros H. by apply String.eqb_neq. Qed.

(** In every mode but "fill" the image is fitted into the field. *)
Lemma fit_contains_image (c : Canvas) (image : Image) (ratio : Q) :
  let fp := fieldProperties c in
  backgroundImage c = Some image ->
  positive_sizes fp image ->
  ratio == image_width image / image_height image ->
  imageFillOrFit fp <> "fill" ->
  exists c' v,
    refreshBackgroundImageValues (Some ratio) c = Ok c' /\
    bgImageValues c' = Some v /\
    placedWidth image v <= width fp /\ placedHeight image v <= height fp /\
    (placedWidth image v == width fp \/ placedHeight image v == height fp) /\
    centred fp image v.
Proof.
  intros fp Himg (HW & HH & Hiw & Hih) Hr Hfit.
  unfold refreshBackgroundImageValues, placeImage. rewrite Himg. cbv zeta. fold fp.
  rewrite (not_fill_eqb fp Hfit).
  set (c1 := if negb _ then _ else c).
  destruct (JS.ltb (width fp / height fp) ratio) eqn:Hcmp.
  - apply JSFacts.ltb_lt in Hcmp. rewrite Hr in Hcmp.
    apply (proj1 (ratio_lt _ _ _ _ HH Hih)) in Hcmp.
    eexists _, _. split; [reflexivity|]. split; [reflexivity|].
    unfold centred, placedWidth, placedHeight; cbn.
    rewrite !scaled_self by done.
    split; [lra|]. split; [apply scaled_le; [done | lra]|].
    split; [by left|]. split; field; lra.
  - apply JSFacts.ltb_ge in Hcmp. rewrite Hr in Hcmp.
    apply (proj1 (ratio_le _ _ _ _ HH Hih)) in Hcmp.
    eexists _, _. split; [reflexivity|]. split; [reflexivity|].
    unfold centred, placedWidth, placedHeight; cbn.
    rewrite !scaled_self by done.
    split; [apply scaled_le; [done | lra]|]. split; [lra|].
    split; [by right|]. split; field; lra.
Qed.

(** In mode "fill" the image covers the field. *)
Lemma fill_covers_field (c : Canvas) (image : Image) (ratio : Q) :
  let fp := fieldProperties c in
  backgroundImage c = Some image ->
  positive_sizes fp image ->
  ratio == image_width image / image_height image ->
  imageFillOrFit fp = "fill" ->
  exists c' v,
    refreshBackgroundImageValues (Some ratio) c = Ok c' /\
    bgImageValues c' = Some v /\
    width fp <= placedWidth image v /\ height fp <= placedHeight image v /\
    (placedWidth image v == width fp \/ placedHeight image v == height fp) /\
    centred fp image v.
Proof.
  intros fp Himg (HW & HH & Hiw & Hih) Hr Hfill.
  unfold refreshBackgroundImageValues, placeImage. rewrite Himg. cbv zeta. fold fp.
  rewrite Hfill. cbn [String.eqb Ascii.eqb Bool.eqb].
  destruct (JS.ltb (width fp / height fp) ratio) eqn:Hcmp.
  - apply JSFacts.ltb_lt in Hcmp. rewrite Hr in Hcmp.
    apply (proj1 (ratio_lt _ _ _ _ HH Hih)) in Hcmp.
    eexists _, _. split; [reflexivity|]. split; [reflexivity|].
    unfold centred, placedWidth, placedHeight; cbn.
    rewrite !scaled_self by done.
    split; [apply scaled_ge; [done | lra]|]. split; [lra|].
    split; [by right|]. split; field; lra.
  - apply JSFacts.ltb_ge in Hcmp. rewrite Hr in Hcmp.
    apply (proj1 (ratio_le _ _ _ _ HH Hih)) in Hcmp.
    eexists _, _. split; [reflexivity|]. split; [reflexivity|].
    unfold centred, placedWidth, placedHeight; cbn.
    rewrite !scaled_self by done.
    split; [lra|]. split; [apply scaled_ge; [done | lra]|].
    split; [by left|]. split; field; lra.
Qed.

(** The error of a refresh that has no aspect ratio to go by. *)
Definition missingRatio : string :=
  "Must provide an aspect ratio or have _bgImageValues be defined".

Lemma placeImage_fields image ratio c :
  backgroundImage (placeImage image ratio c) = backgroundImage c /\
  fieldProperties (placeImage image ratio c) = fieldProperties c /\
  exists v, bgImageValues (placeImage image ratio c) = Some v /\
            imgAspectRatio v = ratio.
Proof.
  unfold placeImage. cbv zeta.
  repeat match goal with |- context [if ?b then _ else _] => destruct b end;
    cbn; (split; [done|]); (split; [done|]); by eexists.
Qed.

(** The values stored depend on the canvas through its field only. *)
Lemma placeImage_values image ratio c c' :
  fieldProperties c' = fieldProperties c ->
  bgImageValues (placeImage image ratio c') = bgImageValues (placeImage image ratio c).
Proof.
  intros Hfp. unfold placeImage. cbv zeta. rewrite Hfp.
  repeat match goal with |- context [if ?b then _ else _] => destruct b end;
    reflexivity.
Qed.

(** X22.  The aspect ratio has to be given once.  Without a background
    image the refresh does nothing, whatever it is given; with an image
    but neither an aspect ratio nor stored values it throws; and once a
    refresh with an aspect ratio has succeeded, a refresh without one
    succeeds too and stores the same values again. *)
Theorem refresh_needs_ratio_once (c : Canvas) :
  (backgroundImage c = None ->
   forall ratio, refreshBackgroundImageValues ratio c = Ok c) /\
  (is_Some (backgroundImage c) -> bgImageValues c = None ->
   refreshBackgroundImageValues None c = Throw missingRatio) /\
  (forall ratio c',
     refreshBackgroundImageValues (Some ratio) c = Ok c' ->
     exists c'',
       refreshBackgroundImageValues None c' = Ok c'' /\
       bgImageValues c'' = bgImageValues c').
Proof.
  split; [|split].
  - intros Himg ratio. unfold refreshBackgroundImageValues. by rewrite Himg.
  - intros [image Himg] Hv. unfold refreshBackgroundImageValues.
    by rewrite Himg, Hv.
  - intros ratio c'. unfold refreshBackgroundImageValues.
    destruct (backgroundImage c) as [image|] eqn:Himg.
    + intros [= <-].
      destruct (placeImage_fields image ratio c) as (-> & Hfp & v & Hv & Hr).
      rewrite Himg, Hv, Hr. eexists. split; [reflexivity|].
      rewrite <- Hv. by apply placeImage_values.
    + intros [= <-]. rewrite Himg. by exists c.
Qed.

(** A square image of 400 pixels on a field of 1600 by 800. *)
Definition squareOnField (mode : string) : Canvas :=
  mkCanvas (Some (mkImage 400 400)) None (mkField 1600 800 mode) [].

Lemma squareOnField_sizes mode :
  positive_sizes (fieldProperties (squareOnField mode)) (mkImage 400 400).
Proof. repeat split. Qed.

(** X23.  The background image is fitted into the field, or in mode
    "fill" made to cover it.  For an image and a field of positive sizes
    and the aspect ratio of the image, the refresh succeeds and stores a
    scale and offsets under which the scaled image is centred on the
    field and matches it in one direction; in the other direction it is
    no larger than the field, and in mode "fill" no smaller. *)
Theorem background_image_placement (c : Canvas) (image : Image) (ratio : Q) :
  let fp := fieldProperties c in
  backgroundImage c = Some image ->
  positive_sizes fp image ->
  ratio == image_width image / image_height image ->
  exists c' v,
    refreshBackgroundImageValues (Some ratio) c = Ok c' /\
    bgImageValues c' = Some v /\
    (if String.eqb (imageFillOrFit fp) "fill"
     then width fp <= placedWidth image v /\ height fp <= placedHeight image v
     else placedWidth image v <= width fp /\ placedHeight image v <= height fp) /\
    (placedWidth image v == width fp \/ placedHeight image v == height fp) /\
    centred fp image v.
Proof.
  intros fp Himg Hpos Hr.
  destruct (String.eqb_spec (imageFillOrFit fp) "fill") as [Hfill|Hfit].
  - destruct (fill_covers_field c image ratio Himg Hpos Hr Hfill)
      as (c' & v & Hrun & Hv & Hw & Hh & Hone & Hc).
    by exists c', v.
  - destruct (fit_contains_image c image ratio Himg Hpos Hr Hfit)
      as (c' & v & Hrun & Hv & Hw & Hh & Hone & Hc).
    by exists c', v.
Qed.

(** X23 on the square image: fitted, it is 800 by 800 at most. *)
Lemma background_image_placement_witness :
  exists c' v,
    refreshBackgroundImageValues (Some 1) (squareOnField "fit") = Ok c' /\
    bgImageValues c' = Some v /\
    placedWidth (mkImage 400 400) v <= 1600 /\
    placedHeight (mkImage 400 400) v <= 800.
Proof.
  destruct (background_image_placement (squareOnField "fit") (mkImage 400 400) 1
              eq_refl (squareOnField_sizes "fit"))
    as (c' & v & Hrun & Hv & [Hw Hh] & _); [reflexivity|].
  exists c', v. repeat split; assumption.
Defined.

End BackgroundImageFacts.

(** ** Properties of the shape reconciliation *)

Module ShapesFacts.
Import ListFacts Scene SceneFacts Shapes.
Local Open Scope Z_scope.

(** The shapes reduced to references and shape identities. *)
Definition view (c : Canvas) : list (ObjRef * Z) :=
  (fun ms => (ms.1, shape_id ms.2)) <$> marcherShapes c.

Definition shapeMap (c : Canvas) : gmap Z ObjRef :=
  new_Map ((fun ms => (shape_id ms.2, ms.1)) <$> marcherShapes c).

(** References are handed out once and below [nextRef]. *)
Definition shapes_wf (c : Canvas) : Prop :=
  NoDup (marcherShapes c).*1 /\
  Forall (fun r => (r < nextRef c)%nat) (marcherShapes c).*1.

Lemma view_fst c : (view c).*1 = (marcherShapes c).*1.
Proof. unfold view. rewrite <- list_fmap_compose. done. Qed.

Lemma view_snd c : (view c).*2 = (fun ms => shape_id ms.2) <$> marcherShapes c.
Proof. unfold view. rewrite <- list_fmap_compose. done. Qed.

Lemma shapeIds_view c : shapeIds c = list_to_set (view c).*2.
Proof. unfold shapeIds. by rewrite view_snd. Qed.

Lemma shapeMap_lookup c k r :
  shapeMap c !! k = Some r -> (r, k) ∈ view c.
Proof.
  intros H%new_Map_lookup_Some.
  apply list_elem_of_fmap in H as ([r' p] & [= -> ->] & Hin).
  apply list_elem_of_fmap. by exists (r', p).
Qed.

Lemma shapeMap_dom c : dom (shapeMap c) = shapeIds c.
Proof.
  unfold shapeMap. rewrite dom_new_Map. unfold shapeIds.
  by rewrite <- list_fmap_compose.
Qed.

(** The first loop: what is collected and what is destroyed. *)
Lemma removeAbsent_spec keep entries removed c :
  let out := foldl (removeAbsent keep) (removed, c) entries in
  marcherShapes out.2 = marcherShapes c /\
  nextRef out.2 = nextRef c /\
  destroyed out.2 = destroyed c ++ (filter (fun e => e.1 ∉ keep) entries).*2 /\
  (forall k, k ∈ out.1 <-> k ∈ removed \/ (k ∈ entries.*1 /\ k ∉ keep)).
Proof.
  revert removed c. induction entries as [|[k r] entries IH]; intros removed c;
    cbv zeta; cbn [foldl].
  - rewrite filter_nil. cbn. rewrite app_nil_r.
    split; [done|]. split; [done|]. split; [done|].
    intros k. split; [by left|]. intros [?|[H%elem_of_nil _]]; done.
  - destruct (decide (k ∈ keep)) as [Hk|Hk].
    + assert (removeAbsent keep (removed, c) (k, r) = (removed, c)) as ->
        by (unfold removeAbsent; cbn; by rewrite decide_True).
      destruct (IH removed c) as (H1 & H2 & H3 & H4).
      rewrite filter_cons_False by (cbn; tauto).
      split; [done|]. split; [done|]. split; [done|].
      intros k'. rewrite H4. cbn. rewrite elem_of_cons. split.
      * intros [?|[? ?]]; [by left|]. right. split; [by right | done].
      * intros [?|[[->|?] ?]]; [by left | done |]. by right.
    + assert (removeAbsent keep (removed, c) (k, r)
              = ({[k]} ∪ removed, destroy r c)) as ->
        by (unfold removeAbsent; cbn; by rewrite decide_False).
      destruct (IH ({[k]} ∪ removed) (destroy r c)) as (H1 & H2 & H3 & H4).
      rewrite filter_cons_True by done.
      split; [done|]. split; [done|]. split.
      { rewrite H3. cbn. by rewrite <- app_assoc. }
      intros k'. rewrite H4. cbn. rewrite elem_of_cons, elem_of_union, elem_of_singleton.
      split.
      * intros [[->|?]|[? ?]]; [right; split; [by left | done] | by left |].
        right. split; [by right | done].
      * intros [?|[[->|?] ?]]; [left; by right | left; by left |]. by right.
Qed.

Lemma filter_ext_elem {A} (P Q : A -> Prop) `{!forall x, Decision (P x)}
    `{!forall x, Decision (Q x)} (l : list A) :
  (forall a, a ∈ l -> (P a <-> Q a)) -> filter P l = filter Q l.
Proof.
  induction l as [|a l IH]; intros Hext; [done|].
  rewrite !filter_cons.
  assert (filter P l = filter Q l) as -> by (apply IH; intros; apply Hext; by right).
  destruct (decide (P a)) as [Hp|Hp]; destruct (decide (Q a)) as [Hq|Hq]; try done.
  - exfalso. apply Hq, (Hext a); [by left | done].
  - exfalso. apply Hp, (Hext a); [by left | done].
Qed.

Lemma filter_elems {A} (P : A -> Prop) `{!forall x, Decision (P x)} (l : list A) :
  (forall a, a ∈ l -> P a) -> filter P l = l.
Proof.
  induction l as [|a l IH]; intros HP; [done|].
  rewrite filter_cons_True by (apply HP; by left).
  f_equal. apply IH. intros a' Ha'. apply HP. by right.
Qed.

(** The canvas after the shapes absent from the pages are dropped. *)
Definition afterRemoval (shapePages : list ShapePage) (c : Canvas) : Canvas :=
  let newShapeIds : gset Z := list_to_set (shape_id <$> shapePages) in
  let '(removedShapeIds, c) :=
    foldl (removeAbsent newShapeIds) (∅, c) (map_to_list (shapeMap c)) in
  if decide (size removedShapeIds ≠ 0%nat) then
    mkCanvas (filter (fun ms => shape_id ms.2 ∉ removedShapeIds) (marcherShapes c))
             (destroyed c) (nextRef c)
  else c.

Lemma renderMarcherShapes_unfold shapePages c :
  renderMarcherShapes shapePages c
  = foldl (renderShapePage (shapeMap c)) (afterRemoval shapePages c) shapePages.
Proof.
  unfold renderMarcherShapes, afterRemoval, shapeMap. cbv zeta.
  by destruct (foldl _ _ _).
Qed.

Lemma afterRemoval_spec shapePages c :
  let keep : gset Z := list_to_set (shape_id <$> shapePages) in
  marcherShapes (afterRemoval shapePages c)
    = filter (fun ms => shape_id ms.2 ∈ keep) (marcherShapes c) /\
  nextRef (afterRemoval shapePages c) = nextRef c /\
  destroyed (afterRemoval shapePages c)
    = destroyed c ++ (filter (fun e => e.1 ∉ keep) (map_to_list (shapeMap c))).*2.
Proof.
  intros keep. unfold afterRemoval. cbv zeta. fold keep.
  pose proof (removeAbsent_spec keep (map_to_list (shapeMap c)) ∅ c) as Hspec.
  cbv zeta in Hspec.
  destruct (foldl _ _ _) as [removed c1]. cbn [fst snd] in Hspec.
  destruct Hspec as (H1 & H2 & H3 & H4).
  assert (forall ms, ms ∈ marcherShapes c ->
            (shape_id ms.2 ∉ removed <-> shape_id ms.2 ∈ keep)) as Hiff.
  { intros ms Hin. rewrite H4. split.
    - intros Hn. destruct (decide (shape_id ms.2 ∈ keep)) as [|Hk]; [done|].
      exfalso. apply Hn. right. split; [|done].
      assert (shape_id ms.2 ∈ dom (shapeMap c)) as Hd.
      { rewrite shapeMap_dom. unfold shapeIds. apply elem_of_list_to_set.
        apply list_elem_of_fmap. by exists ms. }
      apply elem_of_dom in Hd as [r Hr].
      apply list_elem_of_fmap. exists (shape_id ms.2, r).
      split; [done|]. by apply elem_of_map_to_list.
    - intros Hk [He|[_ Hn]]; [by apply elem_of_empty in He | done]. }
  destruct (decide (size removed ≠ 0%nat)) as [Hs|Hs]; cbn.
  - rewrite H1. split; [by apply filter_ext_elem|]. done.
  - split; [|done]. rewrite H1.
    assert (removed = ∅) as -> by (apply leibniz_equiv, size_empty_inv; lia).
    rewrite <- (filter_ext_elem _ _ _ Hiff).
    symmetry. apply filter_all. intros ms. apply not_elem_of_empty.
Qed.

(** The drawables the second loop constructs, with their references. *)
Fixpoint pushed (r : ObjRef) (shapePages : list ShapePage) : list (ObjRef * Z) :=
  match shapePages with
  | [] => []
  | shapePage :: rest => (r, shape_id shapePage) :: pushed (S r) rest
  end.

(** A map from identities to references agrees with a view when it names a
    reference under the identity the view gives it. *)
Definition agrees (M : gmap Z ObjRef) (v : list (ObjRef * Z)) : Prop :=
  forall r k k', (r, k) ∈ v -> M !! k' = Some r -> k = k'.

Definition below (M : gmap Z ObjRef) (n : ObjRef) : Prop :=
  forall k r, M !! k = Some r -> (r < n)%nat.

Lemma view_setShapePage M r shapePage c :
  agrees M (view c) -> M !! shape_id shapePage = Some r ->
  view (setShapePage r shapePage c) = view c.
Proof.
  intros Hag HM. unfold view, setShapePage. cbn.
  rewrite <- list_fmap_compose. apply list_fmap_ext.
  intros i [r' p] Hi. cbn.
  destruct (decide (r' = r)) as [->|]; [|done]. cbn. f_equal.
  symmetry. apply (Hag r (shape_id p) (shape_id shapePage)); [|done].
  apply list_elem_of_fmap. exists (r, p). split; [done|].
  by eapply list_elem_of_lookup_2.
Qed.

Lemma renderShapePages_view M shapePages c :
  agrees M (view c) -> below M (nextRef c) ->
  let created := filter (fun sp => M !! shape_id sp = None) shapePages in
  let c' := foldl (renderShapePage M) c shapePages in
  view c' = view c ++ pushed (nextRef c) created /\
  nextRef c' = (nextRef c + length created)%nat /\
  destroyed c' = destroyed c.
Proof.
  revert c. induction shapePages as [|sp sps IH]; intros c Hag Hbe; cbv zeta;
    cbn [foldl].
  - rewrite filter_nil. cbn. rewrite app_nil_r. split; [done|]. split; [lia | done].
  - unfold renderShapePage at 2 4 6.
    destruct (M !! shape_id sp) as [r|] eqn:HM.
    + rewrite filter_cons_False by (rewrite HM; done).
      assert (view (setShapePage r sp c) = view c) as Hv
        by (by eapply view_setShapePage).
      destruct (IH (setShapePage r sp c)) as (H1 & H2 & H3);
        [by rewrite Hv | done |].
      rewrite H1, H2, H3, Hv. done.
    + rewrite filter_cons_True by done.
      assert (view (push_new sp c) = view c ++ [(nextRef c, shape_id sp)]) as Hv
        by (unfold view, push_new; cbn; by rewrite fmap_app).
      destruct (IH (push_new sp c)) as (H1 & H2 & H3).
      * rewrite Hv. intros r k k' Hin Hk'.
        apply elem_of_app in Hin as [Hin|Hin]; [by eapply Hag|].
        apply list_elem_of_singleton in Hin as [= -> ->].
        apply Hbe in Hk'. lia.
      * intros k r Hk. apply Hbe in Hk. cbn. lia.
      * rewrite H1, H2, H3, Hv. cbn. rewrite <- app_assoc. cbn.
        split; [done|]. split; [lia | done].
Qed.

Lemma pushed_fst r shapePages : (pushed r shapePages).*1 = seq r (length shapePages).
Proof. revert r. induction shapePages; intros r; cbn; [done|]. by f_equal. Qed.

Lemma pushed_snd r shapePages : (pushed r shapePages).*2 = shape_id <$> shapePages.
Proof. revert r. induction shapePages; intros r; cbn; [done|]. by f_equal. Qed.

Lemma view_elem c r k :
  (r, k) ∈ view c <-> exists p, (r, p) ∈ marcherShapes c /\ shape_id p = k.
Proof.
  unfold view. rewrite list_elem_of_fmap. split.
  - intros ([r' p] & [= -> ->] & Hin). by exists p.
  - intros (p & Hin & <-). by exists (r, p).
Qed.

Lemma shapeMap_agrees c : shapes_wf c -> agrees (shapeMap c) (view c).
Proof.
  intros [Hnd _] r k k' Hin HM. apply shapeMap_lookup in HM.
  apply (NoDup_fst_unique (view c) r); [by rewrite view_fst | done..].
Qed.

Lemma shapeMap_below c : shapes_wf c -> below (shapeMap c) (nextRef c).
Proof.
  intros [_ Hlt] k r HM%shapeMap_lookup.
  rewrite Forall_forall in Hlt. apply Hlt.
  rewrite <- view_fst. apply list_elem_of_fmap. by exists (r, k).
Qed.

Lemma renderMarcherShapes_view shapePages c :
  shapes_wf c ->
  let keep : gset Z := list_to_set (shape_id <$> shapePages) in
  let created := filter (fun sp => shapeMap c !! shape_id sp = None) shapePages in
  let c' := renderMarcherShapes shapePages c in
  view c' = filter (fun rk => rk.2 ∈ keep) (view c) ++ pushed (nextRef c) created /\
  nextRef c' = (nextRef c + length created)%nat /\
  destroyed c'
    = destroyed c ++ (filter (fun e => e.1 ∉ keep) (map_to_list (shapeMap c))).*2.
Proof.
  intros Hwf keep created c'. subst c'. rewrite renderMarcherShapes_unfold.
  destruct (afterRemoval_spec shapePages c) as (Hs & Hn & Hd). fold keep in Hs, Hd.
  assert (view (afterRemoval shapePages c) = filter (fun rk => rk.2 ∈ keep) (view c))
    as Hv.
  { unfold view. rewrite Hs. clear.
    induction (marcherShapes c) as [|ms l IH]; [done|].
    rewrite filter_cons. csimpl. rewrite filter_cons. cbn.
    destruct (decide (shape_id ms.2 ∈ keep)); csimpl; by rewrite IH. }
  destruct (renderShapePages_view (shapeMap c) shapePages (afterRemoval shapePages c))
    as (H1 & H2 & H3).
  - rewrite Hv. intros r k k' [_ Hin]%list_elem_of_filter.
    by apply shapeMap_agrees.
  - rewrite Hn. by apply shapeMap_below.
  - rewrite H1, H2, H3, Hv, Hn, Hd. done.
Qed.

Lemma renderMarcherShapes_wf shapePages c :
  shapes_wf c -> shapes_wf (renderMarcherShapes shapePages c).
Proof.
  intros Hwf. set (c' := renderMarcherShapes shapePages c).
  set (keep := list_to_set (shape_id <$> shapePages) : gset Z).
  destruct (renderMarcherShapes_view shapePages c Hwf) as (Hv & Hn & Hd).
  fold c' keep in Hv, Hn, Hd.
  set (created := filter (fun sp => shapeMap c !! shape_id sp = None) shapePages) in *.
  pose proof Hwf as [Hnd Hlt]. rewrite Forall_forall in Hlt.
    unfold shapes_wf. rewrite <- view_fst, Hv, fmap_app, pushed_fst. split.
    + apply NoDup_app. split; [|split].
      * apply NoDup_fst_filter. by rewrite view_fst.
      * intros r Hin Hin'. apply elem_of_seq in Hin' as [Hge _].
        apply list_elem_of_fmap in Hin as ([r' k] & -> & [_ Hin]%list_elem_of_filter).
        assert ((r' < nextRef c)%nat); [|cbn in *; lia].
        apply Hlt. rewrite <- view_fst. apply list_elem_of_fmap. by exists (r', k).
      * apply NoDup_seq.
    + apply Forall_app. split; apply Forall_forall; intros r Hin.
      * apply list_elem_of_fmap in Hin as ([r' k] & -> & [_ Hin]%list_elem_of_filter).
        assert ((r' < nextRef c)%nat); [|cbn in *; lia].
        apply Hlt. rewrite <- view_fst. apply list_elem_of_fmap. by exists (r', k).
      * apply elem_of_seq in Hin. lia.
Qed.

Lemma renderMarcherShapes_ids shapePages c :
  shapes_wf c ->
  shapeIds (renderMarcherShapes shapePages c) = list_to_set (shape_id <$> shapePages).
Proof.
  intros Hwf. set (c' := renderMarcherShapes shapePages c).
  set (keep := list_to_set (shape_id <$> shapePages) : gset Z).
  destruct (renderMarcherShapes_view shapePages c Hwf) as (Hv & Hn & Hd).
  fold c' keep in Hv, Hn, Hd.
  set (created := filter (fun sp => shapeMap c !! shape_id sp = None) shapePages) in *.
    rewrite shapeIds_view, Hv, fmap_app, pushed_snd. apply set_eq. intros k. split.
    + intros Hin. apply elem_of_list_to_set in Hin.
      apply elem_of_list_to_set.
      apply elem_of_app in Hin as [Hin|Hin].
      * apply list_elem_of_fmap in Hin as ([r k'] & -> & [Hk _]%list_elem_of_filter).
        by apply elem_of_list_to_set in Hk.
      * apply list_elem_of_fmap in Hin as (sp & -> & [_ Hin]%list_elem_of_filter).
        apply list_elem_of_fmap. by exists sp.
    + intros Hin. apply elem_of_list_to_set in Hin.
      apply elem_of_list_to_set, elem_of_app.
      apply list_elem_of_fmap in Hin as (sp & -> & Hin).
      destruct (shapeMap c !! shape_id sp) as [r|] eqn:HM.
      * left. apply shapeMap_lookup in HM.
        apply list_elem_of_fmap. exists (r, shape_id sp). split; [done|].
        apply list_elem_of_filter. split; [|done]. cbn.
        apply elem_of_list_to_set, list_elem_of_fmap. by exists sp.
      * right. apply list_elem_of_fmap. exists sp. split; [done|].
        by apply list_elem_of_filter.
Qed.

Lemma renderMarcherShapes_kept shapePages c r p :
  shapes_wf c -> (r, p) ∈ marcherShapes c ->
  r ∈ (marcherShapes (renderMarcherShapes shapePages c)).*1
  <-> shape_id p ∈ (list_to_set (shape_id <$> shapePages) : gset Z).
Proof.
  intros Hwf. set (c' := renderMarcherShapes shapePages c).
  set (keep := list_to_set (shape_id <$> shapePages) : gset Z).
  destruct (renderMarcherShapes_view shapePages c Hwf) as (Hv & Hn & Hd).
  fold c' keep in Hv, Hn, Hd.
  set (created := filter (fun sp => shapeMap c !! shape_id sp = None) shapePages) in *.
  pose proof Hwf as [Hnd Hlt]. rewrite Forall_forall in Hlt.
  revert r p.
  intros r p Hin. rewrite <- view_fst, Hv, fmap_app, elem_of_app, pushed_fst.
    assert ((r < nextRef c)%nat) as Hr.
    { apply Hlt. apply list_elem_of_fmap. by exists (r, p). }
    split.
    + intros [Hf|Hs]; [|apply elem_of_seq in Hs; lia].
      apply list_elem_of_fmap in Hf as ([r' k] & -> & [Hk Hv']%list_elem_of_filter).
      apply view_elem in Hv' as (p' & Hin' & <-). cbn in *.
      by rewrite (NoDup_fst_unique _ _ _ _ Hnd Hin Hin').
    + intros Hk. left. apply list_elem_of_fmap. exists (r, shape_id p).
      split; [done|]. apply list_elem_of_filter. split; [done|].
      apply view_elem. by exists p.
Qed.

Lemma renderMarcherShapes_destroyed shapePages c r :
  shapes_wf c -> r ∈ destroyed (renderMarcherShapes shapePages c) ->
  r ∈ destroyed c \/
  exists p, (r, p) ∈ marcherShapes c /\
            shape_id p ∉ (list_to_set (shape_id <$> shapePages) : gset Z).
Proof.
  intros Hwf. set (c' := renderMarcherShapes shapePages c).
  set (keep := list_to_set (shape_id <$> shapePages) : gset Z).
  destruct (renderMarcherShapes_view shapePages c Hwf) as (Hv & Hn & Hd).
  fold c' keep in Hv, Hn, Hd. revert r.
  intros r. rewrite Hd, elem_of_app. intros [?|Hin]; [by left|]. right.
    apply list_elem_of_fmap in Hin as ([k r'] & -> & [Hk Hin]%list_elem_of_filter).
    apply elem_of_map_to_list, shapeMap_lookup, view_elem in Hin as (p & Hin & <-).
    by exists p.
Qed.

(** X24.  [renderMarcherShapes] reconciles the shapes with the pages
    from any state: whatever shapes the canvas holds (their references
    distinct), after the call the shape identities held are exactly those
    of the pages given; a shape held before stays, as the same object,
    exactly when its identity is among the pages; only shapes whose
    identity is absent from the pages are destroyed; and the references
    are still distinct.  No test on sizes guards the removal. *)
Theorem renderMarcherShapes_reconciles (shapePages : list ShapePage) (c : Canvas) :
  shapes_wf c ->
  let c' := renderMarcherShapes shapePages c in
  let newShapeIds : gset Z := list_to_set (shape_id <$> shapePages) in
  shapes_wf c' /\
  shapeIds c' = newShapeIds /\
  (forall r p, (r, p) ∈ marcherShapes c ->
     (r ∈ (marcherShapes c').*1 <-> shape_id p ∈ newShapeIds)) /\
  (forall r, r ∈ destroyed c' ->
     r ∈ destroyed c \/
     exists p, (r, p) ∈ marcherShapes c /\ shape_id p ∉ newShapeIds).
Proof.
  intros Hwf c' newShapeIds.
  split; [by apply renderMarcherShapes_wf|].
  split; [by apply renderMarcherShapes_ids|].
  split.
  - intros r p Hin. by apply renderMarcherShapes_kept.
  - intros r Hin. by apply renderMarcherShapes_destroyed.
Qed.

(** X25.  A second [renderMarcherShapes] with the same pages
    constructs nothing and destroys nothing: the shapes held and their
    identities, the next reference and the objects destroyed are what the
    first call left. *)
Theorem renderMarcherShapes_second_call_settled
    (shapePages : list ShapePage) (c : Canvas) :
  shapes_wf c ->
  let c' := renderMarcherShapes shapePages c in
  let c'' := renderMarcherShapes shapePages c' in
  view c'' = view c' /\ nextRef c'' = nextRef c' /\ destroyed c'' = destroyed c'.
Proof.
  intros Hwf c' c''.
  pose proof (renderMarcherShapes_wf shapePages c Hwf) as Hwf'.
  pose proof (renderMarcherShapes_ids shapePages c Hwf) as Hids. fold c' in Hwf', Hids.
  destruct (renderMarcherShapes_view shapePages c' Hwf') as (Hv & Hn & Hd).
  fold c'' in Hv, Hn, Hd.
  assert (filter (fun sp => shapeMap c' !! shape_id sp = None) shapePages = []) as Hnone.
  { apply filter_nothing. intros sp Hin HM.
    apply not_elem_of_dom in HM. apply HM. rewrite shapeMap_dom, Hids.
    apply elem_of_list_to_set, list_elem_of_fmap. by exists sp. }
  assert (filter (fun e => e.1 ∉ (list_to_set (shape_id <$> shapePages) : gset Z))
                 (map_to_list (shapeMap c')) = []) as Hkeep.
  { apply filter_nothing. intros [k r] Hin%elem_of_map_to_list Hk. apply Hk. cbn.
    rewrite <- Hids, <- shapeMap_dom. apply elem_of_dom. by eexists. }
  rewrite Hnone in Hv, Hn. rewrite Hkeep in Hd. cbn in Hv, Hn, Hd.
  rewrite app_nil_r in Hv, Hd. split; [|split; [lia | done]].
  rewrite Hv. apply filter_elems. intros [r k] Hin. cbn.
  rewrite <- Hids, shapeIds_view. apply elem_of_list_to_set.
  apply list_elem_of_fmap. by exists (r, k).
Qed.

(** Two shapes, 7 and 8, on the canvas; pages for the shapes 8 and 9. *)
Definition twoShapes : Canvas :=
  mkCanvas [(0%nat, mkShapePage 1 7 "M 0 0"); (1%nat, mkShapePage 2 8 "M 1 1")] [] 2%nat.

Definition nextPages : list ShapePage :=
  [mkShapePage 3 8 "M 2 2"; mkShapePage 4 9 "M 3 3"].

Lemma twoShapes_wf : shapes_wf twoShapes.
Proof.
  split.
  - apply (bool_decide_unpack _). vm_compute. exact I.
  - repeat constructor.
Qed.

(** X24 on that canvas: shapes 8 and 9 are held afterwards. *)
Lemma renderMarcherShapes_reconciles_witness :
  shapeIds (renderMarcherShapes nextPages twoShapes) = list_to_set [8; 9].
Proof.
  exact (proj1 (proj2 (renderMarcherShapes_reconciles nextPages twoShapes
                         twoShapes_wf))).
Defined.

(** X25 on that canvas: the second call destroys nothing more. *)
Lemma renderMarcherShapes_second_call_settled_witness :
  destroyed (renderMarcherShapes nextPages (renderMarcherShapes nextPages twoShapes))
  = destroyed (renderMarcherShapes nextPages twoShapes).
Proof.
  exact (proj2 (proj2 (renderMarcherShapes_second_call_settled nextPages twoShapes
                         twoShapes_wf))).
Defined.

End ShapesFacts.

(** ** Properties of static marchers, marcher lines and pathways *)

Module SceneObjectsFacts.
Import ListFacts Scene SceneFacts ShapesFacts SceneObjects.
Local Open Scope Z_scope.

Lemma removals_objects (os : list (ObjRef * FabricObject)) (c : Canvas) :
  NoDup (objects c).*1 ->
  let c' := foldl (fun c obj => remove obj.1 c) c os in
  objects c' = filter (fun ro => ro.1 ∉ os.*1) (objects c) /\
  nextRef c' = nextRef c /\ consoleErrors c' = consoleErrors c.
Proof.
  revert c. induction os as [|[r o] os IH]; intros c Hnd; cbv zeta; cbn [foldl].
  - split; [|done]. symmetry. apply filter_all. intros ro. cbn. apply not_elem_of_nil.
  - destruct (IH (remove r c)) as (H1 & H2 & H3).
    { cbn. rewrite remove_ref_filter by done. by apply NoDup_fst_filter. }
    cbn [fst]. rewrite H1, H2, H3. split; [|done]. cbn [remove objects].
    rewrite remove_ref_filter by done. rewrite list_filter_filter.
    apply list_filter_iff. intros ro. cbn. rewrite not_elem_of_cons. tauto.
Qed.

Lemma removeAllObjectsByType_objects type c :
  NoDup (objects c).*1 ->
  let c' := removeAllObjectsByType type c in
  objects c' = filter (fun ro => instanceOf ro.2 type = false) (objects c) /\
  nextRef c' = nextRef c /\ consoleErrors c' = consoleErrors c.
Proof.
  intros Hnd. unfold removeAllObjectsByType. cbv zeta.
  destruct (removals_objects (getObjectsByType type c) c Hnd) as (H1 & H2 & H3).
  split; [|done]. rewrite H1. apply filter_ext_elem. intros [r o] Hin. cbn.
  unfold getObjectsByType. split.
  - intros Hn. destruct (instanceOf o type) eqn:E; [|done].
    exfalso. apply Hn. apply list_elem_of_fmap. exists (r, o). split; [done|].
    by apply list_elem_of_filter.
  - intros Hf Hin'.
    apply list_elem_of_fmap in Hin' as ([r' o'] & Hr & [Ht Hin']%list_elem_of_filter).
    cbn in Hr, Ht. subst r'.
    rewrite (NoDup_fst_unique _ _ _ _ Hnd Hin Hin') in Hf. congruence.
Qed.

(** Both creating loops follow one scheme: a row gives an object, which is
    constructed, added and collected, or nothing, and is reported. *)
Definition creating (make : MarcherPage -> option FabricObject)
    (acc : list (ObjRef * FabricObject) * Canvas) (marcherPage : MarcherPage) :
    list (ObjRef * FabricObject) * Canvas :=
  match make marcherPage with
  | None => (acc.1, console_error marcherPage acc.2)
  | Some o => (acc.1 ++ [(nextRef acc.2, o)], add_new o acc.2)
  end.

(** The static marcher drawn for a row, and the pathway drawn from a row. *)
Definition staticFor (color : string) (allMarchers : list Marcher)
    (marcherPage : MarcherPage) : option FabricObject :=
  (fun _ => AStaticCanvasMarcher marcherPage color)
    <$> find (fun marcher => bool_decide (id marcher = marcher_id marcherPage))
             allMarchers.

Definition pathwayFor (startPageMarcherPages : list MarcherPage) (color : string)
    (strokeWidth : option Q) (dashed : bool) (previousMarcherPage : MarcherPage) :
    option FabricObject :=
  (fun selectedMarcherPage =>
     APathway previousMarcherPage selectedMarcherPage color strokeWidth dashed
              (marcher_id previousMarcherPage))
    <$> find (fun marcherPage =>
                bool_decide (marcher_id marcherPage = marcher_id previousMarcherPage))
             startPageMarcherPages.

Lemma renderStaticMarcher_creating color allMarchers acc marcherPage :
  renderStaticMarcher color allMarchers acc marcherPage
  = creating (staticFor color allMarchers) acc marcherPage.
Proof.
  unfold renderStaticMarcher, creating, staticFor. destruct acc as [created c].
  by destruct (find _ _).
Qed.

Lemma renderPathway_creating starts color strokeWidth dashed acc previousMarcherPage :
  renderPathway starts color strokeWidth dashed acc previousMarcherPage
  = creating (pathwayFor starts color strokeWidth dashed) acc previousMarcherPage.
Proof.
  unfold renderPathway, creating, pathwayFor. destruct acc as [created c].
  by destruct (find _ _).
Qed.

(** Objects with the references they are constructed under. *)
Fixpoint numbered (r : ObjRef) (os : list FabricObject) : list (ObjRef * FabricObject) :=
  match os with
  | [] => []
  | o :: rest => (r, o) :: numbered (S r) rest
  end.

Lemma numbered_fst r os : (numbered r os).*1 = seq r (length os).
Proof. revert r. induction os; intros r; cbn; [done|]. by f_equal. Qed.

Lemma numbered_snd r os : (numbered r os).*2 = os.
Proof. revert r. induction os; intros r; cbn; [done|]. by f_equal. Qed.

Lemma creating_spec make (rows : list MarcherPage) acc :
  let news := numbered (nextRef acc.2) (omap make rows) in
  foldl (creating make) acc rows
  = (acc.1 ++ news,
     mkCanvas (objects acc.2 ++ news) (nextRef acc.2 + length news)%nat
              (consoleErrors acc.2 ++ filter (fun row => make row = None) rows)).
Proof.
  revert acc. induction rows as [|row rows IH]; intros [created c]; cbv zeta;
    cbn [foldl fst snd].
  - cbn. rewrite !app_nil_r, Nat.add_0_r. by destruct c.
  - rewrite filter_cons. cbn [omap].
    destruct (make row) as [o|] eqn:Hmake.
    + assert (creating make (created, c) row
              = (created ++ [(nextRef c, o)], add_new o c)) as ->
        by (unfold creating; by rewrite Hmake).
      rewrite IH. rewrite decide_False by done. cbn. rewrite Hmake. cbn.
      rewrite <- !app_assoc. cbn. do 2 f_equal. by rewrite Nat.add_succ_r.
    + assert (creating make (created, c) row = (created, console_error row c)) as ->
        by (unfold creating; by rewrite Hmake).
      rewrite IH. rewrite decide_True by done. cbn. rewrite Hmake.
      by rewrite <- app_assoc.
Qed.

Lemma find_by_key {A} (key : A -> Z) (k : Z) (l : list A) :
  (k ∈ key <$> l -> exists a, find (fun a => bool_decide (key a = k)) l = Some a /\
                               a ∈ l /\ key a = k) /\
  (k ∉ key <$> l -> find (fun a => bool_decide (key a = k)) l = None).
Proof.
  destruct (find _ l) as [a|] eqn:Hfind.
  - apply find_Some_elem in Hfind as [Hin Hk%bool_decide_eq_true_1]. split.
    + intros _. by exists a.
    + intros Hn. exfalso. apply Hn. apply list_elem_of_fmap. by exists a.
  - split; [|done]. intros Hin. exfalso.
    apply list_elem_of_fmap in Hin as (a & -> & Hin).
    pose proof (find_None_all _ _ Hfind a Hin) as Hf.
    by apply bool_decide_eq_false_1 in Hf.
Qed.

Lemma staticFor_None color allMarchers marcherPage :
  staticFor color allMarchers marcherPage = None
  <-> marcher_id marcherPage ∉ id <$> allMarchers.
Proof.
  unfold staticFor.
  destruct (find_by_key id (marcher_id marcherPage) allMarchers) as [Hyes Hno].
  split.
  - intros Hnone Hin. destruct (Hyes Hin) as (a & Ha & _). by rewrite Ha in Hnone.
  - intros Hn. by rewrite (Hno Hn).
Qed.

Lemma omap_staticFor color allMarchers (rows : list MarcherPage) :
  omap (staticFor color allMarchers) rows
  = (fun mp => AStaticCanvasMarcher mp color)
      <$> filter (fun mp => marcher_id mp ∈ id <$> allMarchers) rows.
Proof.
  induction rows as [|row rows IH]; [done|]. rewrite filter_cons. csimpl.
  destruct (decide (marcher_id row ∈ id <$> allMarchers)) as [Hin|Hn].
  - destruct (proj1 (find_by_key id (marcher_id row) allMarchers) Hin) as (a & Ha & _).
    unfold staticFor at 1. rewrite Ha. csimpl. by rewrite IH.
  - rewrite (proj2 (staticFor_None color allMarchers row) Hn). done.
Qed.

Lemma numbered_wf news c :
  canvas_wf c ->
  canvas_wf (mkCanvas (objects c ++ numbered (nextRef c) news)
                      (nextRef c + length (numbered (nextRef c) news))%nat
                      (consoleErrors c)).
Proof.
  intros [Hnd Hlt]. rewrite Forall_forall in Hlt.
  assert (length (numbered (nextRef c) news) = length news) as Hlen.
  { rewrite <- (length_fmap fst), numbered_fst. apply length_seq. }
  unfold canvas_wf. cbn. rewrite fmap_app, numbered_fst, Hlen. split.
  - apply NoDup_app. split; [done|]. split; [|apply NoDup_seq].
    intros r Hin Hin'. apply Hlt in Hin. apply elem_of_seq in Hin'. lia.
  - apply Forall_app. split; apply Forall_forall; intros r Hin.
    + apply Hlt in Hin. lia.
    + apply elem_of_seq in Hin. lia.
Qed.

(** X26.  Static marchers come and go without trace.  On a canvas
    whose references are distinct, [renderStaticMarchers] creates one
    static marcher, in the given colour, for each row whose marcher is in
    the roster, in the order of the rows, adds them on top of the objects
    there and returns them; the rows of unknown marchers are reported and
    skipped.  [removeStaticCanvasMarchers] then leaves the objects that
    were on the canvas before, without the static marchers among them. *)
Theorem static_marchers_round_trip
    (color : string) (intendedMarcherPages : list MarcherPage)
    (allMarchers : list Marcher) (c : Canvas) :
  canvas_wf c ->
  let out := renderStaticMarchers color intendedMarcherPages allMarchers c in
  out.1.*2 = (fun mp => AStaticCanvasMarcher mp color)
               <$> filter (fun mp => marcher_id mp ∈ id <$> allMarchers)
                          intendedMarcherPages /\
  objects out.2 = objects c ++ out.1 /\
  consoleErrors out.2
    = consoleErrors c
      ++ filter (fun mp => marcher_id mp ∉ id <$> allMarchers) intendedMarcherPages /\
  objects (removeStaticCanvasMarchers out.2)
    = filter (fun ro => instanceOf ro.2 StaticCanvasMarcherClass = false) (objects c).
Proof.
  intros Hwf out.
  assert (out = foldl (creating (staticFor color allMarchers)) ([], c)
                      intendedMarcherPages) as Hout.
  { unfold out, renderStaticMarchers. generalize ([] : list (ObjRef * FabricObject), c).
    induction intendedMarcherPages as [|mp mps IH]; intros acc; cbn; [done|].
    by rewrite renderStaticMarcher_creating, IH. }
  rewrite creating_spec in Hout. cbn [fst snd] in Hout. rewrite app_nil_l in Hout.
  set (news := numbered (nextRef c) (omap (staticFor color allMarchers)
                                          intendedMarcherPages)) in *.
  rewrite Hout. cbn [fst snd objects consoleErrors].
  split; [|split; [done|split]].
  - unfold news. by rewrite numbered_snd, omap_staticFor.
  - f_equal. apply list_filter_iff. intros mp. apply staticFor_None.
  - pose proof (numbered_wf (omap (staticFor color allMarchers) intendedMarcherPages)
                  c Hwf) as [Hnd _]. fold news in Hnd.
    unfold removeStaticCanvasMarchers. cbv zeta.
    destruct (removeAllObjectsByType_objects StaticCanvasMarcherClass
                (mkCanvas (objects c ++ news) (nextRef c + length news)%nat
                   (consoleErrors c ++
                    filter (fun row => staticFor color allMarchers row = None)
                           intendedMarcherPages)) Hnd) as [Hobj _].
    unfold removeAllObjectsByType in Hobj. cbv zeta in Hobj. rewrite Hobj.
    cbn [objects]. rewrite filter_app.
    rewrite (filter_nothing _ news); [by rewrite app_nil_r|].
    intros [r o] Hin. cbn.
    assert (o ∈ omap (staticFor color allMarchers) intendedMarcherPages) as Ho.
    { rewrite <- (numbered_snd (nextRef c)). apply list_elem_of_fmap. by exists (r, o). }
    rewrite omap_staticFor in Ho. apply list_elem_of_fmap in Ho as (mp & -> & _).
    done.
Qed.

Lemma adds_objects (os : list (ObjRef * FabricObject)) (c : Canvas) :
  objects (foldl (fun c o => add o c) c os) = objects c ++ os.
Proof.
  revert c. induction os as [|o os IH]; intros c; cbn [foldl].
  - by rewrite app_nil_r.
  - rewrite IH. cbn. by rewrite <- app_assoc.
Qed.

(** X27.  After [renderMarcherLines] the marcher lines on the canvas
    are the lines given, in their order, whatever lines were there before;
    every object that is not a marcher line stays where it was, below the
    lines.  (The canvas has distinct references; the lines given are
    marcher lines.) *)
Theorem renderMarcherLines_exact
    (marcherLines : list (ObjRef * FabricObject)) (c : Canvas) :
  canvas_wf c ->
  Forall (fun line => instanceOf line.2 MarcherLineClass = true) marcherLines ->
  let c' := renderMarcherLines marcherLines c in
  objects c'
    = filter (fun ro => instanceOf ro.2 MarcherLineClass = false) (objects c)
      ++ marcherLines /\
  getObjectsByType MarcherLineClass c' = marcherLines.
Proof.
  intros [Hnd _] Hlines c'.
  assert (objects c'
          = filter (fun ro => instanceOf ro.2 MarcherLineClass = false) (objects c)
            ++ marcherLines) as Hobj.
  { unfold c', renderMarcherLines. rewrite adds_objects.
    by destruct (removeAllObjectsByType_objects MarcherLineClass c Hnd) as [-> _]. }
  split; [exact Hobj|].
  unfold getObjectsByType. rewrite Hobj, filter_app.
  rewrite filter_nothing.
  - cbn. apply filter_elems. by apply Forall_forall.
  - intros ro [Hf _]%list_elem_of_filter. congruence.
Qed.

Lemma pathwayFor_None starts color strokeWidth dashed row :
  pathwayFor starts color strokeWidth dashed row = None
  <-> marcher_id row ∉ marcher_id <$> starts.
Proof.
  unfold pathwayFor.
  destruct (find_by_key marcher_id (marcher_id row) starts) as [Hyes Hno].
  split.
  - intros Hnone Hin. destruct (Hyes Hin) as (a & Ha & _). by rewrite Ha in Hnone.
  - intros Hn. by rewrite (Hno Hn).
Qed.

Lemma pathwayFor_Some starts color strokeWidth dashed row o :
  pathwayFor starts color strokeWidth dashed row = Some o ->
  exists finish,
    o = APathway row finish color strokeWidth dashed (marcher_id row) /\
    finish ∈ starts /\ marcher_id finish = marcher_id row.
Proof.
  unfold pathwayFor. destruct (find _ _) as [finish|] eqn:Hfind; [|done].
  intros [= <-]. apply find_Some_elem in Hfind as [Hin Hk%bool_decide_eq_true_1].
  by exists finish.
Qed.

(** X28.  [renderPathways] draws one pathway for each row of the
    end page whose marcher has a row on the start page, and reports the
    other rows: every pathway created starts at a row of the end page,
    ends at a row of the start page of the same marcher, and carries that
    marcher's id; the pathways are added on top of the objects there; and
    pathways and reports together are as many as the rows of the end
    page. *)
Theorem renderPathways_joins_rows_of_one_marcher
    (startPageMarcherPages endPageMarcherPages : list MarcherPage)
    (color : string) (strokeWidth : option Q) (dashed : bool) (c : Canvas) :
  let out := renderPathways startPageMarcherPages endPageMarcherPages
                            color strokeWidth dashed c in
  let reported :=
    filter (fun mp => marcher_id mp ∉ marcher_id <$> startPageMarcherPages)
           endPageMarcherPages in
  Forall (fun pathway =>
            exists start finish,
              pathway.2 = APathway start finish color strokeWidth dashed
                                   (marcher_id start) /\
              start ∈ endPageMarcherPages /\ finish ∈ startPageMarcherPages /\
              marcher_id finish = marcher_id start) out.1 /\
  objects out.2 = objects c ++ out.1 /\
  consoleErrors out.2 = consoleErrors c ++ reported /\
  (length out.1 + length reported = length endPageMarcherPages)%nat.
Proof.
  intros out reported.
  set (make := pathwayFor startPageMarcherPages color strokeWidth dashed).
  assert (out = foldl (creating make) ([], c) endPageMarcherPages) as Hout.
  { unfold out, renderPathways. generalize ([] : list (ObjRef * FabricObject), c).
    induction endPageMarcherPages as [|mp mps IH]; intros acc; cbn; [done|].
    by rewrite renderPathway_creating, IH. }
  rewrite creating_spec in Hout. cbn [fst snd] in Hout. rewrite app_nil_l in Hout.
  assert (filter (fun row => make row = None) endPageMarcherPages = reported) as Hrep.
  { apply list_filter_iff. intros mp. apply pathwayFor_None. }
  rewrite Hrep in Hout. rewrite Hout. cbn [fst snd objects consoleErrors].
  split; [|split; [done|split; [done|]]].
  - apply Forall_forall. intros [r o] Hin. cbn.
    assert (o ∈ omap make endPageMarcherPages) as Ho.
    { rewrite <- (numbered_snd (nextRef c)). apply list_elem_of_fmap. by exists (r, o). }
    apply list_elem_of_omap in Ho as (row & Hrow & Hmake).
    apply pathwayFor_Some in Hmake as (finish & -> & Hfin & Hid).
    by exists row, finish.
  - rewrite <- (length_fmap fst), numbered_fst, length_seq, <- Hrep.
    clear. induction endPageMarcherPages as [|mp mps IH]; [done|].
    rewrite filter_cons. csimpl.
    destruct (make mp); [rewrite decide_False by done | rewrite decide_True by done];
      cbn; lia.
Qed.

(** A canvas holding the grid, a static marcher and a marcher line. *)
Definition stage : Canvas :=
  mkCanvas [(0%nat, AnotherObject "Group");
            (1%nat, AStaticCanvasMarcher (mkMarcherPage 1 1 1 0 0) "grey");
            (2%nat, AMarcherLine 5)]
           3%nat [].

Lemma stage_wf : canvas_wf stage.
Proof.
  split.
  - apply (bool_decide_unpack _). vm_compute. exact I.
  - repeat constructor.
Qed.

(** X26 on that canvas, for a row of marcher 1, who is in the roster,
    and a row of marcher 9, who is not: after rendering and removing, the
    grid and the line are left. *)
Lemma static_marchers_round_trip_witness :
  let out := renderStaticMarchers "red"
               [mkMarcherPage 2 1 2 10 10; mkMarcherPage 3 9 2 20 20]
               [mkMarcher 1 "Flute"] stage in
  consoleErrors out.2 = [mkMarcherPage 3 9 2 20 20] /\
  objects (removeStaticCanvasMarchers out.2)
  = [(0%nat, AnotherObject "Group"); (2%nat, AMarcherLine 5)].
Proof.
  intros out.
  destruct (static_marchers_round_trip "red"
              [mkMarcherPage 2 1 2 10 10; mkMarcherPage 3 9 2 20 20]
              [mkMarcher 1 "Flute"] stage stage_wf) as (_ & _ & Herr & Hobj).
  fold out in Herr, Hobj. rewrite Herr, Hobj. split; reflexivity.
Defined.

(** X27 on that canvas, for two new lines. *)
Lemma renderMarcherLines_exact_witness :
  let lines := [(3%nat, AMarcherLine 6); (4%nat, AMarcherLine 7)] in
  getObjectsByType MarcherLineClass (renderMarcherLines lines stage) = lines.
Proof.
  intros lines.
  apply (renderMarcherLines_exact lines stage stage_wf).
  repeat constructor.
Defined.

End SceneObjectsFacts.

(** ** Properties of the grid lines *)

Module FieldGridFacts.
Import FieldGrid.
Local Open Scope Q_scope.

Lemma forUp_stuck limit step fuel i :
  step <= 0 -> i < limit -> forUp fuel i limit step = None.
Proof.
  intros Hstep. revert i. induction fuel as [|fuel IH]; intros i Hi; cbn [forUp];
    rewrite (proj2 (JSFacts.ltb_lt i limit) Hi); [done|].
  rewrite IH; [done | lra].
Qed.

(** X30.  With a step of zero (or less) and the centre left of the
    field's right edge, the first of the two loops never ends: whatever
    number of rounds it is given, it uses them up, and no grid is built. *)
Theorem grid_lines_need_positive_step (fp : FieldProperties) (fuel : nat) :
  pixelsPerStep fp <= 0 -> centerFront_xPixels fp < width fp ->
  gridLinesX fuel fp = None.
Proof.
  intros Hstep Hcenter. unfold gridLinesX. cbv zeta.
  by rewrite forUp_stuck.
Qed.

(** X30 on a field 100 wide with its centre at 50 and a step of 0: a
    thousand rounds are not enough. *)
Lemma grid_lines_need_positive_step_witness :
  gridLinesX 1000 (mkField 100 50 0 50 40) = None.
Proof.
  apply grid_lines_need_positive_step; [discriminate | reflexivity].
Defined.

End FieldGridFacts.
